(** * sngrep: settings, dissector tree, SIP messages and the HEP writer

    A shallow embedding of the parts of sngrep that the specification
    makes statements about, followed by the statements themselves.

    - [GLib]     the few libc / GLib string functions the sources call
    - [Setting]  src/setting.c
    - [Storage]  src/storage/message.c
    - [Parser]   src/parser/parser.c
    - [Hep]      src/capture/capture_hep.c

    The modules [GLibProps], [SettingProps], [StorageProps], [ParserProps]
    and [HepProps] hold what is proved about them.

    Conventions.  A C string is a [string] holding the characters before
    the terminating NUL; a [gchar *] that may be NULL is an
    [option string].  Global or heap state that a function mutates is
    passed in and handed back.  The sources are built with USE_HEP and
    WITH_SSL defined. *)

From Stdlib Require Import ZArith Ascii String DecimalString List Lia.
From stdpp Require Import base decidable option list gmap strings fin_maps.

Local Open Scope Z_scope.

(* ===================================================================== *)
(** * libc and GLib string functions                                      *)
(* ===================================================================== *)

Module GLib.

(** [tolower(3)] in the C locale. *)
Definition tolower (c : ascii) : ascii :=
  let n := N_of_ascii c in
  if ((65 <=? n) && (n <=? 90))%N then ascii_of_N (n + 32) else c.

Definition char_code (c : ascii) : Z := Z.of_N (N_of_ascii c).

(** Comparison of two C strings after [f] has been applied to every
    character.  The C library fixes the sign of the result only: the
    shorter string is the smaller one when it is a prefix of the other. *)
Fixpoint strcmp_with (f : ascii → ascii) (s1 s2 : string) : Z :=
  match s1, s2 with
  | EmptyString, EmptyString => 0
  | EmptyString, String _ _ => -1
  | String _ _, EmptyString => 1
  | String c1 r1, String c2 r2 =>
      if Ascii.eqb (f c1) (f c2) then strcmp_with f r1 r2
      else char_code (f c1) - char_code (f c2)
  end.

Definition strcmp : string → string → Z := strcmp_with (λ c, c).
Definition strcasecmp : string → string → Z := strcmp_with tolower.

(** [g_strcmp0]: [strcmp] that accepts NULL, which sorts first. *)
Definition g_strcmp0 (s1 s2 : option string) : Z :=
  match s1, s2 with
  | None, None => 0
  | None, Some _ => -1
  | Some _, None => 1
  | Some a, Some b => strcmp a b
  end.

Definition strlen (s : string) : Z := Z.of_nat (String.length s).

(** [strncpy(dst, src, n)] into a zeroed buffer: at most [n] characters. *)
Fixpoint strncpy (n : nat) (s : string) : string :=
  match n, s with
  | S k, String c r => String c (strncpy k r)
  | _, _ => EmptyString
  end.

(** One pass of [g_strsplit] over a non-empty remainder: the token that
    ends at the next delimiter and the tokens after it, with [splits]
    cuts still allowed. *)
Fixpoint strsplit_tokens (delim : ascii) (splits : nat) (s : string)
  : string * list string :=
  match s with
  | EmptyString => (EmptyString, [])
  | String c r =>
      if Ascii.eqb c delim then
        match splits with
        | O => (s, [])
        | S k => let '(t, ts) := strsplit_tokens delim k r in
                 (EmptyString, t :: ts)
        end
      else
        let '(t, ts) := strsplit_tokens delim splits r in (String c t, ts)
  end.

(** [g_strsplit(string, delimiter, max_tokens)] for a delimiter of one
    character.  The empty string yields no token at all; [max_tokens < 1]
    means no limit; otherwise the last token holds the unsplit rest. *)
Definition g_strsplit (s : string) (delim : ascii) (max_tokens : Z)
  : list string :=
  match s with
  | EmptyString => []
  | _ =>
      let splits := if max_tokens <? 1 then String.length s
                    else Z.to_nat (max_tokens - 1) in
      let '(t, ts) := strsplit_tokens delim splits s in t :: ts
  end.

End GLib.

(* ===================================================================== *)
(** * Settings (src/setting.c)                                            *)
(* ===================================================================== *)

Module Setting.
Import GLib.
Local Open Scope string_scope.
Local Open Scope list_scope.
Local Open Scope Z_scope.

(** Modelled from the spec: [SETTING_ON] and [SETTING_OFF] are macros of
    setting.h, which is not among the sources.  The spec speaks of settings
    being on or off, and [setting_bool_new] lists the two values of a
    boolean setting as on,off. *)
Definition SETTING_ON : string := "on".

(** Modelled from the spec: [SETTING_OFF] of setting.h, see [SETTING_ON]. *)
Definition SETTING_OFF : string := "off".

Inductive SettingFmt : Set :=
  | SETTING_FMT_STRING
  | SETTING_FMT_NUMBER
  | SETTING_FMT_BOOLEAN
  | SETTING_FMT_ENUM.

(** [struct _Setting].  [valuelist] stays NULL for numbers and strings. *)
Record Setting : Type := mkSetting {
  name : string;
  fmt : SettingFmt;
  value : string;
  valuelist : option (list string)
}.

Definition with_value (sett : Setting) (v : string) : Setting :=
  {| name := name sett; fmt := fmt sett; value := v;
     valuelist := valuelist sett |}.

(** [enum SettingId]: one constant per slot of [settings->values], listed
    in the order in which [settings_init] fills the slots. *)
Inductive SettingId : Set :=
  | SETTING_BACKGROUND
  | SETTING_COLORMODE
  | SETTING_SYNTAX
  | SETTING_SYNTAX_TAG
  | SETTING_SYNTAX_BRANCH
  | SETTING_ALTKEY_HINT
  | SETTING_EXITPROMPT
  | SETTING_CAPTURE_LIMIT
  | SETTING_CAPTURE_DEVICE
  | SETTING_CAPTURE_OUTFILE
  | SETTING_CAPTURE_KEYFILE
  | SETTING_CAPTURE_TLSSERVER
  | SETTING_CAPTURE_RTP
  | SETTING_CAPTURE_PACKET_IP
  | SETTING_CAPTURE_PACKET_UDP
  | SETTING_CAPTURE_PACKET_TCP
  | SETTING_CAPTURE_PACKET_TLS
  | SETTING_CAPTURE_PACKET_HEP
  | SETTING_CAPTURE_PACKET_WS
  | SETTING_CAPTURE_PACKET_SIP
  | SETTING_CAPTURE_PACKET_SDP
  | SETTING_CAPTURE_PACKET_RTP
  | SETTING_CAPTURE_PACKET_RTCP
  | SETTING_CAPTURE_STORAGE
  | SETTING_CAPTURE_ROTATE
  | SETTING_SIP_NOINCOMPLETE
  | SETTING_SIP_HEADER_X_CID
  | SETTING_SIP_CALLS
  | SETTING_SAVEPATH
  | SETTING_DISPLAY_ALIAS
  | SETTING_CL_SCROLLSTEP
  | SETTING_CL_COLORATTR
  | SETTING_CL_AUTOSCROLL
  | SETTING_CL_SORTFIELD
  | SETTING_CL_SORTORDER
  | SETTING_CL_FIXEDCOLS
  | SETTING_CL_COL_INDEX_POS
  | SETTING_CL_COL_INDEX_WIDTH
  | SETTING_CL_COL_SIPFROM_POS
  | SETTING_CL_COL_SIPFROM_WIDTH
  | SETTING_CL_COL_SIPFROMUSER_POS
  | SETTING_CL_COL_SIPFROMUSER_WIDTH
  | SETTING_CL_COL_SIPTO_POS
  | SETTING_CL_COL_SIPTO_WIDTH
  | SETTING_CL_COL_SIPTOUSER_POS
  | SETTING_CL_COL_SIPTOUSER_WIDTH
  | SETTING_CL_COL_SRC_POS
  | SETTING_CL_COL_SRC_WIDTH
  | SETTING_CL_COL_DST_POS
  | SETTING_CL_COL_DST_WIDTH
  | SETTING_CL_COL_CALLID_POS
  | SETTING_CL_COL_CALLID_WIDTH
  | SETTING_CL_COL_XCALLID_POS
  | SETTING_CL_COL_XCALLID_WIDTH
  | SETTING_CL_COL_DATE_POS
  | SETTING_CL_COL_DATE_WIDTH
  | SETTING_CL_COL_TIME_POS
  | SETTING_CL_COL_TIME_WIDTH
  | SETTING_CL_COL_METHOD_POS
  | SETTING_CL_COL_METHOD_WIDTH
  | SETTING_CL_COL_TRANSPORT_POS
  | SETTING_CL_COL_TRANSPORT_WIDTH
  | SETTING_CL_COL_MSGCNT_POS
  | SETTING_CL_COL_MSGCNT_WIDTH
  | SETTING_CL_COL_CALLSTATE_POS
  | SETTING_CL_COL_CALLSTATE_WIDTH
  | SETTING_CL_COL_CONVDUR_POS
  | SETTING_CL_COL_CONVDUR_WIDTH
  | SETTING_CL_COL_TOTALDUR_POS
  | SETTING_CL_COL_TOTALDUR_WIDTH
  | SETTING_CL_COL_REASON_TXT_POS
  | SETTING_CL_COL_REASON_TXT_WIDTH
  | SETTING_CL_COL_WARNING_POS
  | SETTING_CL_COL_WARNING_WIDTH
  | SETTING_CF_FORCERAW
  | SETTING_CF_RAWMINWIDTH
  | SETTING_CF_RAWFIXEDWIDTH
  | SETTING_CF_SPLITCALLID
  | SETTING_CF_HIGHTLIGHT
  | SETTING_CF_SCROLLSTEP
  | SETTING_CF_LOCALHIGHLIGHT
  | SETTING_CF_SDP_INFO
  | SETTING_CF_MEDIA
  | SETTING_CF_ONLYMEDIA
  | SETTING_CF_DELTA
  | SETTING_CF_HIDEDUPLICATE
  | SETTING_CR_SCROLLSTEP
  | SETTING_CR_NON_ASCII
  | SETTING_FILTER_PAYLOAD
  | SETTING_FILTER_METHODS
  | SETTING_HEP_SEND
  | SETTING_HEP_SEND_VER
  | SETTING_HEP_SEND_ADDR
  | SETTING_HEP_SEND_PORT
  | SETTING_HEP_SEND_PASS
  | SETTING_HEP_SEND_ID
  | SETTING_HEP_LISTEN
  | SETTING_HEP_LISTEN_VER
  | SETTING_HEP_LISTEN_ADDR
  | SETTING_HEP_LISTEN_PORT
  | SETTING_HEP_LISTEN_PASS
  | SETTING_HEP_LISTEN_UUID.

Definition setting_code (id : SettingId) : nat :=
  match id with
  | SETTING_BACKGROUND => 0
  | SETTING_COLORMODE => 1
  | SETTING_SYNTAX => 2
  | SETTING_SYNTAX_TAG => 3
  | SETTING_SYNTAX_BRANCH => 4
  | SETTING_ALTKEY_HINT => 5
  | SETTING_EXITPROMPT => 6
  | SETTING_CAPTURE_LIMIT => 7
  | SETTING_CAPTURE_DEVICE => 8
  | SETTING_CAPTURE_OUTFILE => 9
  | SETTING_CAPTURE_KEYFILE => 10
  | SETTING_CAPTURE_TLSSERVER => 11
  | SETTING_CAPTURE_RTP => 12
  | SETTING_CAPTURE_PACKET_IP => 13
  | SETTING_CAPTURE_PACKET_UDP => 14
  | SETTING_CAPTURE_PACKET_TCP => 15
  | SETTING_CAPTURE_PACKET_TLS => 16
  | SETTING_CAPTURE_PACKET_HEP => 17
  | SETTING_CAPTURE_PACKET_WS => 18
  | SETTING_CAPTURE_PACKET_SIP => 19
  | SETTING_CAPTURE_PACKET_SDP => 20
  | SETTING_CAPTURE_PACKET_RTP => 21
  | SETTING_CAPTURE_PACKET_RTCP => 22
  | SETTING_CAPTURE_STORAGE => 23
  | SETTING_CAPTURE_ROTATE => 24
  | SETTING_SIP_NOINCOMPLETE => 25
  | SETTING_SIP_HEADER_X_CID => 26
  | SETTING_SIP_CALLS => 27
  | SETTING_SAVEPATH => 28
  | SETTING_DISPLAY_ALIAS => 29
  | SETTING_CL_SCROLLSTEP => 30
  | SETTING_CL_COLORATTR => 31
  | SETTING_CL_AUTOSCROLL => 32
  | SETTING_CL_SORTFIELD => 33
  | SETTING_CL_SORTORDER => 34
  | SETTING_CL_FIXEDCOLS => 35
  | SETTING_CL_COL_INDEX_POS => 36
  | SETTING_CL_COL_INDEX_WIDTH => 37
  | SETTING_CL_COL_SIPFROM_POS => 38
  | SETTING_CL_COL_SIPFROM_WIDTH => 39
  | SETTING_CL_COL_SIPFROMUSER_POS => 40
  | SETTING_CL_COL_SIPFROMUSER_WIDTH => 41
  | SETTING_CL_COL_SIPTO_POS => 42
  | SETTING_CL_COL_SIPTO_WIDTH => 43
  | SETTING_CL_COL_SIPTOUSER_POS => 44
  | SETTING_CL_COL_SIPTOUSER_WIDTH => 45
  | SETTING_CL_COL_SRC_POS => 46
  | SETTING_CL_COL_SRC_WIDTH => 47
  | SETTING_CL_COL_DST_POS => 48
  | SETTING_CL_COL_DST_WIDTH => 49
  | SETTING_CL_COL_CALLID_POS => 50
  | SETTING_CL_COL_CALLID_WIDTH => 51
  | SETTING_CL_COL_XCALLID_POS => 52
  | SETTING_CL_COL_XCALLID_WIDTH => 53
  | SETTING_CL_COL_DATE_POS => 54
  | SETTING_CL_COL_DATE_WIDTH => 55
  | SETTING_CL_COL_TIME_POS => 56
  | SETTING_CL_COL_TIME_WIDTH => 57
  | SETTING_CL_COL_METHOD_POS => 58
  | SETTING_CL_COL_METHOD_WIDTH => 59
  | SETTING_CL_COL_TRANSPORT_POS => 60
  | SETTING_CL_COL_TRANSPORT_WIDTH => 61
  | SETTING_CL_COL_MSGCNT_POS => 62
  | SETTING_CL_COL_MSGCNT_WIDTH => 63
  | SETTING_CL_COL_CALLSTATE_POS => 64
  | SETTING_CL_COL_CALLSTATE_WIDTH => 65
  | SETTING_CL_COL_CONVDUR_POS => 66
  | SETTING_CL_COL_CONVDUR_WIDTH => 67
  | SETTING_CL_COL_TOTALDUR_POS => 68
  | SETTING_CL_COL_TOTALDUR_WIDTH => 69
  | SETTING_CL_COL_REASON_TXT_POS => 70
  | SETTING_CL_COL_REASON_TXT_WIDTH => 71
  | SETTING_CL_COL_WARNING_POS => 72
  | SETTING_CL_COL_WARNING_WIDTH => 73
  | SETTING_CF_FORCERAW => 74
  | SETTING_CF_RAWMINWIDTH => 75
  | SETTING_CF_RAWFIXEDWIDTH => 76
  | SETTING_CF_SPLITCALLID => 77
  | SETTING_CF_HIGHTLIGHT => 78
  | SETTING_CF_SCROLLSTEP => 79
  | SETTING_CF_LOCALHIGHLIGHT => 80
  | SETTING_CF_SDP_INFO => 81
  | SETTING_CF_MEDIA => 82
  | SETTING_CF_ONLYMEDIA => 83
  | SETTING_CF_DELTA => 84
  | SETTING_CF_HIDEDUPLICATE => 85
  | SETTING_CR_SCROLLSTEP => 86
  | SETTING_CR_NON_ASCII => 87
  | SETTING_FILTER_PAYLOAD => 88
  | SETTING_FILTER_METHODS => 89
  | SETTING_HEP_SEND => 90
  | SETTING_HEP_SEND_VER => 91
  | SETTING_HEP_SEND_ADDR => 92
  | SETTING_HEP_SEND_PORT => 93
  | SETTING_HEP_SEND_PASS => 94
  | SETTING_HEP_SEND_ID => 95
  | SETTING_HEP_LISTEN => 96
  | SETTING_HEP_LISTEN_VER => 97
  | SETTING_HEP_LISTEN_ADDR => 98
  | SETTING_HEP_LISTEN_PORT => 99
  | SETTING_HEP_LISTEN_PASS => 100
  | SETTING_HEP_LISTEN_UUID => 101
  end.

Definition setting_ids : list SettingId :=
  [ SETTING_BACKGROUND;
    SETTING_COLORMODE;
    SETTING_SYNTAX;
    SETTING_SYNTAX_TAG;
    SETTING_SYNTAX_BRANCH;
    SETTING_ALTKEY_HINT;
    SETTING_EXITPROMPT;
    SETTING_CAPTURE_LIMIT;
    SETTING_CAPTURE_DEVICE;
    SETTING_CAPTURE_OUTFILE;
    SETTING_CAPTURE_KEYFILE;
    SETTING_CAPTURE_TLSSERVER;
    SETTING_CAPTURE_RTP;
    SETTING_CAPTURE_PACKET_IP;
    SETTING_CAPTURE_PACKET_UDP;
    SETTING_CAPTURE_PACKET_TCP;
    SETTING_CAPTURE_PACKET_TLS;
    SETTING_CAPTURE_PACKET_HEP;
    SETTING_CAPTURE_PACKET_WS;
    SETTING_CAPTURE_PACKET_SIP;
    SETTING_CAPTURE_PACKET_SDP;
    SETTING_CAPTURE_PACKET_RTP;
    SETTING_CAPTURE_PACKET_RTCP;
    SETTING_CAPTURE_STORAGE;
    SETTING_CAPTURE_ROTATE;
    SETTING_SIP_NOINCOMPLETE;
    SETTING_SIP_HEADER_X_CID;
    SETTING_SIP_CALLS;
    SETTING_SAVEPATH;
    SETTING_DISPLAY_ALIAS;
    SETTING_CL_SCROLLSTEP;
    SETTING_CL_COLORATTR;
    SETTING_CL_AUTOSCROLL;
    SETTING_CL_SORTFIELD;
    SETTING_CL_SORTORDER;
    SETTING_CL_FIXEDCOLS;
    SETTING_CL_COL_INDEX_POS;
    SETTING_CL_COL_INDEX_WIDTH;
    SETTING_CL_COL_SIPFROM_POS;
    SETTING_CL_COL_SIPFROM_WIDTH;
    SETTING_CL_COL_SIPFROMUSER_POS;
    SETTING_CL_COL_SIPFROMUSER_WIDTH;
    SETTING_CL_COL_SIPTO_POS;
    SETTING_CL_COL_SIPTO_WIDTH;
    SETTING_CL_COL_SIPTOUSER_POS;
    SETTING_CL_COL_SIPTOUSER_WIDTH;
    SETTING_CL_COL_SRC_POS;
    SETTING_CL_COL_SRC_WIDTH;
    SETTING_CL_COL_DST_POS;
    SETTING_CL_COL_DST_WIDTH;
    SETTING_CL_COL_CALLID_POS;
    SETTING_CL_COL_CALLID_WIDTH;
    SETTING_CL_COL_XCALLID_POS;
    SETTING_CL_COL_XCALLID_WIDTH;
    SETTING_CL_COL_DATE_POS;
    SETTING_CL_COL_DATE_WIDTH;
    SETTING_CL_COL_TIME_POS;
    SETTING_CL_COL_TIME_WIDTH;
    SETTING_CL_COL_METHOD_POS;
    SETTING_CL_COL_METHOD_WIDTH;
    SETTING_CL_COL_TRANSPORT_POS;
    SETTING_CL_COL_TRANSPORT_WIDTH;
    SETTING_CL_COL_MSGCNT_POS;
    SETTING_CL_COL_MSGCNT_WIDTH;
    SETTING_CL_COL_CALLSTATE_POS;
    SETTING_CL_COL_CALLSTATE_WIDTH;
    SETTING_CL_COL_CONVDUR_POS;
    SETTING_CL_COL_CONVDUR_WIDTH;
    SETTING_CL_COL_TOTALDUR_POS;
    SETTING_CL_COL_TOTALDUR_WIDTH;
    SETTING_CL_COL_REASON_TXT_POS;
    SETTING_CL_COL_REASON_TXT_WIDTH;
    SETTING_CL_COL_WARNING_POS;
    SETTING_CL_COL_WARNING_WIDTH;
    SETTING_CF_FORCERAW;
    SETTING_CF_RAWMINWIDTH;
    SETTING_CF_RAWFIXEDWIDTH;
    SETTING_CF_SPLITCALLID;
    SETTING_CF_HIGHTLIGHT;
    SETTING_CF_SCROLLSTEP;
    SETTING_CF_LOCALHIGHLIGHT;
    SETTING_CF_SDP_INFO;
    SETTING_CF_MEDIA;
    SETTING_CF_ONLYMEDIA;
    SETTING_CF_DELTA;
    SETTING_CF_HIDEDUPLICATE;
    SETTING_CR_SCROLLSTEP;
    SETTING_CR_NON_ASCII;
    SETTING_FILTER_PAYLOAD;
    SETTING_FILTER_METHODS;
    SETTING_HEP_SEND;
    SETTING_HEP_SEND_VER;
    SETTING_HEP_SEND_ADDR;
    SETTING_HEP_SEND_PORT;
    SETTING_HEP_SEND_PASS;
    SETTING_HEP_SEND_ID;
    SETTING_HEP_LISTEN;
    SETTING_HEP_LISTEN_VER;
    SETTING_HEP_LISTEN_ADDR;
    SETTING_HEP_LISTEN_PORT;
    SETTING_HEP_LISTEN_PASS;
    SETTING_HEP_LISTEN_UUID ].

Lemma setting_ids_code id : setting_ids !! setting_code id = Some id.
Proof. by destruct id. Qed.

Lemma setting_code_inj x y : setting_code x = setting_code y → x = y.
Proof.
  intros H. pose proof (setting_ids_code x) as Hx.
  rewrite H, setting_ids_code in Hx. congruence.
Qed.

#[global] Instance SettingId_eq_dec : EqDecision SettingId.
Proof.
  refine (λ x y, cast_if (decide (setting_code x = setting_code y)));
    [by apply setting_code_inj | congruence].
Defined.

#[global] Instance SettingId_countable : Countable SettingId :=
  inj_countable setting_code (λ n, setting_ids !! n) setting_ids_code.

Record SettingAlias : Type := { alias_address : string; alias_alias : string }.
Record SettingExtenIp : Type := { ext_address : string; ext_externip : string }.

(** [SettingStorage], the object behind the file-level pointer [settings].
    A slot of [values] that holds NULL has no binding in the map. *)
Record SettingStorage : Type := mkStorage {
  values : gmap SettingId Setting;
  alias : list SettingAlias;
  externips : list SettingExtenIp
}.

Definition with_values (st : SettingStorage) (vs : gmap SettingId Setting)
  : SettingStorage :=
  {| values := vs; alias := alias st; externips := externips st |}.

(** A call either returns, or ends the process through [exit], or makes
    a library function write past the end of a buffer, from where on the
    behaviour of the program is undefined; in each case the state reached
    until then is kept. *)
Inductive Outcome (A : Type) : Type :=
  | Returns (a : A)
  | Exits (code : Z) (a : A)
  | Overruns (a : A).
Arguments Returns {A} a.
Arguments Exits {A} code a.
Arguments Overruns {A} a.

(** [SettingOpts], the argument of [settings_init]. *)
Record SettingOpts : Type := {
  use_defaults : bool;
  file : option string
}.

(** What [settings_init] and [setting_read_file] obtain from the process
    environment: [g_get_home_dir], [g_get_current_dir], [getenv], and for
    every path what [fopen] finds there, as the lines [fgets] delivers. *)
Record Env : Type := {
  homedir : option string;
  curdir : string;
  getenv : string → option string;
  fopen : string → option (list string)
}.

(** The settings together with the record of the files that
    [setting_read_file] was asked to open, oldest first. *)
Record World : Type := mkWorld {
  settings : SettingStorage;
  opened : list string
}.

Section Functions.

(** Declared in headers that are not among the sources: the size of the
    [value] array of a setting (setting.h), [g_atoi] (glib-extra.h), the
    name of the call index attribute, [attr_name(ATTR_CALLINDEX)]
    (storage/attribute.h); and from libc what
    [sscanf(line, "%s %s %[^\t\n]", type, option, value)] converts: the
    fields in their order, three of them when the call returns 3, fewer
    when it stops early. *)
Variable SETTING_MAX_LEN : nat.
Variable g_atoi : string → Z.
Variable attr_name_callindex : string.
Variable sscanf_line : string → list string.

Definition setting_number_new (name value : string) : Setting :=
  {| name := name; fmt := SETTING_FMT_NUMBER;
     value := strncpy SETTING_MAX_LEN value; valuelist := None |}.

Definition setting_string_new (name value : string) : Setting :=
  {| name := name; fmt := SETTING_FMT_STRING;
     value := strncpy SETTING_MAX_LEN value; valuelist := None |}.

Definition setting_bool_new (name value : string) : Setting :=
  {| name := name; fmt := SETTING_FMT_BOOLEAN;
     value := strncpy SETTING_MAX_LEN value;
     valuelist := Some (g_strsplit "on,off" "," (-1)) |}.

Definition setting_enum_new (name value valuelist : string) : Setting :=
  {| name := name; fmt := SETTING_FMT_ENUM;
     value := strncpy SETTING_MAX_LEN value;
     valuelist := Some (g_strsplit valuelist "," (-1)) |}.

Definition setting_by_id (st : SettingStorage) (id : SettingId)
  : option Setting :=
  values st !! id.

(** The loop over the slots of [settings->values], lowest index first. *)
Fixpoint setting_by_name_from (st : SettingStorage) (ids : list SettingId)
    (nm : string) : option (SettingId * Setting) :=
  match ids with
  | [] => None
  | id :: rest =>
      match values st !! id with
      | Some sett =>
          if g_strcmp0 (Some (name sett)) (Some nm) =? 0 then Some (id, sett)
          else setting_by_name_from st rest nm
      | None => setting_by_name_from st rest nm
      end
  end.

Definition setting_by_name (st : SettingStorage) (nm : string)
  : option Setting :=
  snd <$> setting_by_name_from st setting_ids nm.

(** [setting_id]; [None] stands for [SETTING_UNKNOWN]. *)
Definition setting_id (st : SettingStorage) (nm : string) : option SettingId :=
  fst <$> setting_by_name_from st setting_ids nm.

Definition setting_get_value (st : SettingStorage) (id : SettingId)
  : option string :=
  match setting_by_id st id with
  | Some sett => if 0 <? strlen (value sett) then Some (value sett) else None
  | None => None
  end.

Definition setting_get_intvalue (st : SettingStorage) (id : SettingId) : Z :=
  match setting_by_id st id with
  | Some sett => if 0 <? strlen (value sett) then g_atoi (value sett) else -1
  | None => -1
  end.

(** [setting_set_value]: the value is cleared first; a value that does not
    fit ends the process with status 1. *)
Definition setting_set_value (st : SettingStorage) (id : SettingId)
    (v : option string) : Outcome SettingStorage :=
  match setting_by_id st id with
  | None => Returns st
  | Some sett =>
      let cleared := with_values st (<[id := with_value sett EmptyString]> (values st)) in
      match v with
      | None => Returns cleared
      | Some s =>
          if (String.length s <? SETTING_MAX_LEN)%nat
          then Returns (with_values st (<[id := with_value sett s]> (values st)))
          else Exits 1 cleared
      end
  end.

Definition setting_has_value (st : SettingStorage) (id : SettingId)
    (v : string) : bool :=
  match setting_by_id st id with
  | Some sett => strcmp (value sett) v =? 0
  | None => false
  end.

Definition setting_enabled (st : SettingStorage) (id : SettingId) : bool :=
  setting_has_value st id "on" || setting_has_value st id "yes".

Definition setting_disabled (st : SettingStorage) (id : SettingId) : bool :=
  setting_has_value st id "off" || setting_has_value st id "no".

(** The loop of [setting_enum_next] over the NULL-terminated value list;
    [first] is what the recursive call with a NULL value returns. *)
Fixpoint enum_next_from (first : option string) (vl : list string) (v : string)
  : option string :=
  match vl with
  | [] => None
  | x :: rest =>
      if strcmp x v =? 0 then
        match rest with
        | vnext :: _ => Some vnext
        | [] => first
        end
      else enum_next_from first rest v
  end.

Definition setting_enum_next (st : SettingStorage) (id : SettingId)
    (v : option string) : option string :=
  match setting_by_id st id with
  | None => None
  | Some sett =>
      match fmt sett with
      | SETTING_FMT_ENUM =>
          match valuelist sett with
          | None => None
          | Some vl =>
              match v with
              | None => head vl
              | Some s => enum_next_from (head vl) vl s
              end
          end
      | _ => None
      end
  end.

Definition setting_toggle (st : SettingStorage) (id : SettingId)
  : Outcome SettingStorage :=
  match setting_by_id st id with
  | None => Returns st
  | Some sett =>
      match fmt sett with
      | SETTING_FMT_BOOLEAN =>
          if setting_enabled st id
          then setting_set_value st id (Some SETTING_OFF)
          else setting_set_value st id (Some SETTING_ON)
      | SETTING_FMT_ENUM =>
          setting_set_value st id (setting_enum_next st id (Some (value sett)))
      | SETTING_FMT_STRING => Returns st
      | SETTING_FMT_NUMBER => Returns st
      end
  end.

Definition setting_alias_new (address al : string) : SettingAlias :=
  {| alias_address := address; alias_alias := al |}.

Definition setting_externip_new (address externip : string) : SettingExtenIp :=
  {| ext_address := address; ext_externip := externip |}.

(** A field and its terminating NUL fit an array of [size] characters. *)
Definition field_fits (size : nat) (field : string) : bool :=
  (String.length field <? size)%nat.

(** [sscanf] stores the fields it converts, however long, into
    [char type[20], option[50], value[50]]: whether each of them fits. *)
Definition fields_fit (fields : list string) : bool :=
  match fields with
  | [] => true
  | type :: rest =>
      field_fits 20 type &&
      match rest with
      | [] => true
      | option :: rest' =>
          field_fits 50 option &&
          match rest' with
          | [] => true
          | v :: _ => field_fits 50 v
          end
      end
  end.

(** The body of the [while (fgets ...)] loop of [setting_read_file] for one
    line.  A field that does not fit its array is written past the end of
    the array.  [bind] and [unbind] lines go to the key bindings, which are
    no part of the settings storage. *)
Definition setting_read_line (line : string) (st : SettingStorage)
  : Outcome SettingStorage :=
  match line with
  | EmptyString => Returns st
  | String c _ =>
      if Ascii.eqb c "#" then Returns st
      else
        let fields := sscanf_line line in
        if negb (fields_fit fields) then Overruns st
        else
          match fields with
          | [type; option; v] =>
              if strcasecmp type "set" =? 0 then
                match setting_id st option with
                | None => Returns st
                | Some id => setting_set_value st id (Some v)
                end
              else if strcasecmp type "alias" =? 0 then
                Returns {| values := values st;
                           alias := (alias st ++ [setting_alias_new option v])%list;
                           externips := externips st |}
              else if strcasecmp type "externip" =? 0 then
                Returns {| values := values st;
                           alias := alias st;
                           externips := (externips st ++ [setting_externip_new option v])%list |}
              else Returns st
          | _ => Returns st
          end
  end.

Fixpoint setting_read_lines (lines : list string) (st : SettingStorage)
  : Outcome SettingStorage :=
  match lines with
  | [] => Returns st
  | line :: rest =>
      match setting_read_line line st with
      | Returns st' => setting_read_lines rest st'
      | Exits code st' => Exits code st'
      | Overruns st' => Overruns st'
      end
  end.

(** [setting_read_file].  Its status (-1 when the file cannot be opened)
    is dropped, as every caller drops it. *)
Definition setting_read_file (env : Env) (fname : string) (w : World)
  : Outcome World :=
  let log := (opened w ++ [fname])%list in
  match fopen env fname with
  | None => Returns {| settings := settings w; opened := log |}
  | Some lines =>
      match setting_read_lines lines (settings w) with
      | Returns st => Returns {| settings := st; opened := log |}
      | Exits code st => Exits code {| settings := st; opened := log |}
      | Overruns st => Overruns {| settings := st; opened := log |}
      end
  end.

(** The slots that [settings_init] fills and the setting put into each, in
    the order of the [g_ptr_array_set] calls. *)
Definition default_settings (env : Env) : list (SettingId * Setting) :=
  [
    (SETTING_BACKGROUND, setting_enum_new "background" "dark" "dark,default");
    (SETTING_COLORMODE, setting_enum_new "colormode" "request" "request,cseq,callid");
    (SETTING_SYNTAX, setting_bool_new "syntax" SETTING_ON);
    (SETTING_SYNTAX_TAG, setting_bool_new "syntax.tag" SETTING_OFF);
    (SETTING_SYNTAX_BRANCH, setting_bool_new "syntax.branch" SETTING_OFF);
    (SETTING_ALTKEY_HINT, setting_bool_new "hintkeyalt" SETTING_OFF);
    (SETTING_EXITPROMPT, setting_bool_new "exitprompt" SETTING_ON);
    (SETTING_CAPTURE_LIMIT, setting_number_new "capture.limit" "20000");
    (SETTING_CAPTURE_DEVICE, setting_string_new "capture.device" "any");
    (SETTING_CAPTURE_OUTFILE, setting_string_new "capture.outfile" EmptyString);
    (SETTING_CAPTURE_KEYFILE, setting_string_new "capture.keyfile" EmptyString);
    (SETTING_CAPTURE_TLSSERVER, setting_string_new "capture.tlsserver" EmptyString);
    (SETTING_CAPTURE_RTP, setting_bool_new "capture.rtp" SETTING_OFF);
    (SETTING_CAPTURE_PACKET_IP, setting_bool_new "capture.packet.ip" SETTING_ON);
    (SETTING_CAPTURE_PACKET_UDP, setting_bool_new "capture.packet.udp" SETTING_ON);
    (SETTING_CAPTURE_PACKET_TCP, setting_bool_new "capture.packet.tcp" SETTING_ON);
    (SETTING_CAPTURE_PACKET_TLS, setting_bool_new "capture.packet.tls" SETTING_OFF);
    (SETTING_CAPTURE_PACKET_HEP, setting_bool_new "capture.packet.hep" SETTING_OFF);
    (SETTING_CAPTURE_PACKET_WS, setting_bool_new "capture.packet.ws" SETTING_OFF);
    (SETTING_CAPTURE_PACKET_SIP, setting_bool_new "capture.packet.sip" SETTING_ON);
    (SETTING_CAPTURE_PACKET_SDP, setting_bool_new "capture.packet.sdp" SETTING_ON);
    (SETTING_CAPTURE_PACKET_RTP, setting_bool_new "capture.packet.rtp" SETTING_ON);
    (SETTING_CAPTURE_PACKET_RTCP, setting_bool_new "capture.packet.rtcp" SETTING_ON);
    (SETTING_CAPTURE_STORAGE, setting_enum_new "capture.storage" "memory" "none,memory");
    (SETTING_CAPTURE_ROTATE, setting_bool_new "capture.rotate" SETTING_OFF);
    (SETTING_SIP_NOINCOMPLETE, setting_bool_new "sip.noincomplete" SETTING_ON);
    (SETTING_SIP_HEADER_X_CID, setting_string_new "sip.xcid" "X-Call-ID|X-CID");
    (SETTING_SIP_CALLS, setting_bool_new "sip.calls" SETTING_OFF);
    (SETTING_SAVEPATH, setting_string_new "savepath" (curdir env));
    (SETTING_DISPLAY_ALIAS, setting_bool_new "displayalias" SETTING_OFF);
    (SETTING_CL_SCROLLSTEP, setting_number_new "cl.scrollstep" "4");
    (SETTING_CL_COLORATTR, setting_bool_new "cl.colorattr" SETTING_ON);
    (SETTING_CL_AUTOSCROLL, setting_bool_new "cl.autoscroll" SETTING_OFF);
    (SETTING_CL_SORTFIELD, setting_string_new "cl.sortfield" attr_name_callindex);
    (SETTING_CL_SORTORDER, setting_string_new "cl.sortorder" "asc");
    (SETTING_CL_FIXEDCOLS, setting_number_new "cl.fixedcols" "2");
    (SETTING_CL_COL_INDEX_POS, setting_number_new "cl.column.index.pos" "0");
    (SETTING_CL_COL_INDEX_WIDTH, setting_number_new "cl.column.index.width" "4");
    (SETTING_CL_COL_SIPFROM_POS, setting_number_new "cl.column.sipfrom.pos" "2");
    (SETTING_CL_COL_SIPFROM_WIDTH, setting_number_new "cl.column.sipfrom.width" "25");
    (SETTING_CL_COL_SIPFROMUSER_POS, setting_number_new "cl.column.sipfromuser.pos" "-1");
    (SETTING_CL_COL_SIPFROMUSER_WIDTH, setting_number_new "cl.column.sipfromuser.width" "20");
    (SETTING_CL_COL_SIPTO_POS, setting_number_new "cl.column.sipto.pos" "3");
    (SETTING_CL_COL_SIPTO_WIDTH, setting_number_new "cl.column.sipto.width" "25");
    (SETTING_CL_COL_SIPTOUSER_POS, setting_number_new "cl.column.siptouser.pos" "-1");
    (SETTING_CL_COL_SIPTOUSER_WIDTH, setting_number_new "cl.column.siptouser.width" "20");
    (SETTING_CL_COL_SRC_POS, setting_number_new "cl.column.src.pos" "5");
    (SETTING_CL_COL_SRC_WIDTH, setting_number_new "cl.column.src.width" "22");
    (SETTING_CL_COL_DST_POS, setting_number_new "cl.column.dst.pos" "6");
    (SETTING_CL_COL_DST_WIDTH, setting_number_new "cl.column.dst.width" "22");
    (SETTING_CL_COL_CALLID_POS, setting_number_new "cl.column.callid.pos" "-1");
    (SETTING_CL_COL_CALLID_WIDTH, setting_number_new "cl.column.callid.width" "50");
    (SETTING_CL_COL_XCALLID_POS, setting_number_new "cl.column.xcallid.pos" "-1");
    (SETTING_CL_COL_XCALLID_WIDTH, setting_number_new "cl.column.xcallid.width" "50");
    (SETTING_CL_COL_DATE_POS, setting_number_new "cl.column.date.pos" "-1");
    (SETTING_CL_COL_DATE_WIDTH, setting_number_new "cl.column.date.width" "10");
    (SETTING_CL_COL_TIME_POS, setting_number_new "cl.column.time.pos" "-1");
    (SETTING_CL_COL_TIME_WIDTH, setting_number_new "cl.column.time.width" "8");
    (SETTING_CL_COL_METHOD_POS, setting_number_new "cl.column.method.pos" "1");
    (SETTING_CL_COL_METHOD_WIDTH, setting_number_new "cl.column.method.width" "10");
    (SETTING_CL_COL_TRANSPORT_POS, setting_number_new "cl.column.transport.pos" "-1");
    (SETTING_CL_COL_TRANSPORT_WIDTH, setting_number_new "cl.column.transport.width" "3");
    (SETTING_CL_COL_MSGCNT_POS, setting_number_new "cl.column.msgcnt.pos" "4");
    (SETTING_CL_COL_MSGCNT_WIDTH, setting_number_new "cl.column.msgcnt.width" "5");
    (SETTING_CL_COL_CALLSTATE_POS, setting_number_new "cl.column.state.pos" "7");
    (SETTING_CL_COL_CALLSTATE_WIDTH, setting_number_new "cl.column.state.width" "12");
    (SETTING_CL_COL_CONVDUR_POS, setting_number_new "cl.column.convdur.pos" "-1");
    (SETTING_CL_COL_CONVDUR_WIDTH, setting_number_new "cl.column.convdur.width" "7");
    (SETTING_CL_COL_TOTALDUR_POS, setting_number_new "cl.column.totaldur.pos" "-1");
    (SETTING_CL_COL_TOTALDUR_WIDTH, setting_number_new "cl.column.totaldur.width" "8");
    (SETTING_CL_COL_REASON_TXT_POS, setting_number_new "cl.column.reason.pos" "-1");
    (SETTING_CL_COL_REASON_TXT_WIDTH, setting_number_new "cl.column.reason.width" "25");
    (SETTING_CL_COL_WARNING_POS, setting_number_new "cl.column.warning.pos" "-1");
    (SETTING_CL_COL_WARNING_WIDTH, setting_number_new "cl.column.warning.width" "4");
    (SETTING_CF_FORCERAW, setting_bool_new "cf.forceraw" SETTING_ON);
    (SETTING_CF_RAWMINWIDTH, setting_number_new "cf.rawminwidth" "40");
    (SETTING_CF_RAWFIXEDWIDTH, setting_number_new "cf.rawfixedwidth" EmptyString);
    (SETTING_CF_SPLITCALLID, setting_bool_new "cf.splitcallid" SETTING_OFF);
    (SETTING_CF_HIGHTLIGHT, setting_enum_new "cf.highlight" "bold" "bold,reverse,reversebold");
    (SETTING_CF_SCROLLSTEP, setting_number_new "cf.scrollstep" "4");
    (SETTING_CF_LOCALHIGHLIGHT, setting_bool_new "cf.localhighlight" SETTING_ON);
    (SETTING_CF_SDP_INFO, setting_enum_new "cf.sdpinfo" SETTING_OFF "off,first,full,compressed");
    (SETTING_CF_MEDIA, setting_bool_new "cf.media" SETTING_ON);
    (SETTING_CF_ONLYMEDIA, setting_bool_new "cf.onlymedia" SETTING_OFF);
    (SETTING_CF_DELTA, setting_bool_new "cf.deltatime" SETTING_ON);
    (SETTING_CF_HIDEDUPLICATE, setting_bool_new "cf.hideduplicate" SETTING_OFF);
    (SETTING_CR_SCROLLSTEP, setting_number_new "cr.scrollstep" "10");
    (SETTING_CR_NON_ASCII, setting_string_new "cr.nonascii" ".");
    (SETTING_FILTER_PAYLOAD, setting_string_new "filter.payload" EmptyString);
    (SETTING_FILTER_METHODS, setting_string_new "filter.methods" "REGISTER,INVITE,SUBSCRIBE,NOTIFY,OPTIONS,PUBLISH,MESSAGE,INFO,REFER,UPDATE");
    (SETTING_HEP_SEND, setting_bool_new "eep.send" SETTING_OFF);
    (SETTING_HEP_SEND_VER, setting_number_new "eep.send.version" "3");
    (SETTING_HEP_SEND_ADDR, setting_string_new "eep.send.address" "127.0.0.1");
    (SETTING_HEP_SEND_PORT, setting_number_new "eep.send.port" "9060");
    (SETTING_HEP_SEND_PASS, setting_string_new "eep.send.pass" EmptyString);
    (SETTING_HEP_SEND_ID, setting_number_new "eep.send.id" "2000");
    (SETTING_HEP_LISTEN, setting_bool_new "eep.listen" SETTING_OFF);
    (SETTING_HEP_LISTEN_VER, setting_string_new "eep.listen.version" "3");
    (SETTING_HEP_LISTEN_ADDR, setting_string_new "eep.listen.address" "0.0.0.0");
    (SETTING_HEP_LISTEN_PORT, setting_number_new "eep.listen.port" "9060");
    (SETTING_HEP_LISTEN_PASS, setting_string_new "eep.listen.pass" EmptyString);
    (SETTING_HEP_LISTEN_UUID, setting_bool_new "eep.listen.uuid" SETTING_OFF)
  ].

Definition g_ptr_array_set (vs : gmap SettingId Setting)
    (slot : SettingId * Setting) : gmap SettingId Setting :=
  <[slot.1 := slot.2]> vs.

(** Reading one file after another until one of them ends the process or
    overruns a buffer. *)
Definition then_read (env : Env) (fname : string) (o : Outcome World)
  : Outcome World :=
  match o with
  | Returns w => setting_read_file env fname w
  | Exits code w => Exits code w
  | Overruns w => Overruns w
  end.

Definition settings_init (options : SettingOpts) (env : Env) : Outcome World :=
  let st := {| values := foldl g_ptr_array_set ∅ (default_settings env);
               alias := []; externips := [] |} in
  let w0 := Returns {| settings := st; opened := [] |} in
  let w1 :=
    if use_defaults options then w0
    else
      let wa := then_read env "/etc/sngreprc" w0 in
      let wb := then_read env "/usr/local/etc/sngreprc" wa in
      match getenv env "SNGREPRC" with
      | Some rc => then_read env rc wb
      | None =>
          match homedir env with
          | Some home => then_read env (home +:+ "/.sngreprc") wb
          | None => wb
          end
      end in
  match file options with
  | Some f => then_read env f w1
  | None => w1
  end.

(** ** The remaining accessors *)

Definition setting_name (st : SettingStorage) (id : SettingId) : option string :=
  name <$> setting_by_id st id.

(** [setting_format]; [None] stands for -1. *)
Definition setting_format (st : SettingStorage) (id : SettingId)
  : option SettingFmt :=
  fmt <$> setting_by_id st id.

Definition setting_valid_values (st : SettingStorage) (id : SettingId)
  : option (list string) :=
  setting_by_id st id ≫= valuelist.

(** [sprintf(strvalue, "%d", value)]. *)
Definition sprintf_d (v : Z) : string := NilZero.string_of_int (Z.to_int v).

Definition setting_set_intvalue (st : SettingStorage) (id : SettingId) (v : Z)
  : Outcome SettingStorage :=
  setting_set_value st id (Some (sprintf_d v)).

(** The loop of [setting_get_alias] over [settings->alias]. *)
Fixpoint get_alias_loop (l : list SettingAlias) (address : string) : string :=
  match l with
  | [] => address
  | a :: rest =>
      if g_strcmp0 (Some (alias_address a)) (Some address) =? 0
      then alias_alias a
      else get_alias_loop rest address
  end.

(** [setting_get_alias]: NULL for a NULL address. *)
Definition setting_get_alias (st : SettingStorage) (address : option string)
  : option string :=
  match address with
  | None => None
  | Some a => Some (get_alias_loop (alias st) a)
  end.

(** The loop of [setting_get_externip] over [settings->externips]. *)
Fixpoint get_externip_loop (l : list SettingExtenIp) (address : string)
  : option string :=
  match l with
  | [] => None
  | e :: rest =>
      if g_strcmp0 (Some (ext_address e)) (Some address) =? 0
      then Some (ext_externip e)
      else if g_strcmp0 (Some (ext_externip e)) (Some address) =? 0
      then Some (ext_address e)
      else get_externip_loop rest address
  end.

Definition setting_get_externip (st : SettingStorage) (address : option string)
  : option string :=
  match address with
  | None => None
  | Some a => get_externip_loop (externips st) a
  end.

End Functions.
End Setting.

(* ===================================================================== *)
(** * SIP messages of a call (src/storage/message.c)                      *)
(* ===================================================================== *)

Module Storage.
Import GLib.
Local Open Scope string_scope.
Local Open Scope list_scope.
Local Open Scope Z_scope.

(** [struct _Address] of address.h. *)
Record Address : Type := { ip : string; port : Z }.

(** Modelled from the spec: [addressport_equals] is declared in address.h
    and defined in address.c, which is not among the sources.  The header
    documents it as the check that two addresses are equal including the
    port, the spec as the equality of endpoints with port. *)
Definition addressport_equals (addr1 addr2 : Address) : bool :=
  (port addr1 =? port addr2) && (strcmp (ip addr1) (ip addr2) =? 0).

(** The packet of a message as message.c reads it, through accessors whose
    definitions are not among the sources: [packet_src_address],
    [packet_dst_address], [packet_sip_method] (the method of a request, a
    number below 100, or the status code of a response),
    [packet_sip_cseq], [packet_sip_payload] and
    [packet_sip_initial_transaction]. *)
Record Packet : Type := {
  packet_src_address : Address;
  packet_dst_address : Address;
  packet_sip_method : Z;
  packet_sip_cseq : Z;
  packet_sip_payload : string;
  packet_sip_initial_transaction : bool
}.

(** [struct _Attribute]: message.c uses the name only. *)
Record Attribute : Type := { attr_name : string }.

(** [Message].  [msg_ptr] is the address of the object: two messages are
    the same object when their addresses agree.  An entry of the attribute
    table may hold NULL as its value. *)
Record Message : Type := mkMessage {
  msg_ptr : N;
  packet : Packet;
  attributes : gmap string (option string)
}.

(** [Call], of which message.c uses the array of messages. *)
Record Call : Type := { msgs : list Message }.

Definition same_message (a b : Message) : bool := (msg_ptr a =? msg_ptr b)%N.

Definition msg_src_address (msg : Message) : Address :=
  packet_src_address (packet msg).
Definition msg_dst_address (msg : Message) : Address :=
  packet_dst_address (packet msg).

Definition msg_is_request (msg : Message) : bool :=
  packet_sip_method (packet msg) <? 100.

Definition msg_get_cseq (msg : Message) : Z := packet_sip_cseq (packet msg).

Definition msg_get_payload (msg : Message) : string :=
  packet_sip_payload (packet msg).

(** The [for] loop of [msg_is_initial_transaction] from the current index
    on; [break] leads to the [return] behind the loop. *)
Fixpoint initial_transaction_loop (msg : Message) (rest : list Message) : bool :=
  match rest with
  | [] => packet_sip_initial_transaction (packet msg)
  | call_msg :: rest' =>
      if negb (msg_is_request call_msg) then initial_transaction_loop msg rest'
      else if same_message call_msg msg then
        packet_sip_initial_transaction (packet msg)
      else if negb (msg_get_cseq msg =? msg_get_cseq call_msg) then
        initial_transaction_loop msg rest'
      else if msg_is_request msg then
        if negb (addressport_equals (packet_src_address (packet msg))
                                    (packet_src_address (packet call_msg)))
        then initial_transaction_loop msg rest'
        else packet_sip_initial_transaction (packet call_msg)
      else
        if negb (addressport_equals (packet_src_address (packet msg))
                                    (packet_dst_address (packet call_msg)))
        then initial_transaction_loop msg rest'
        else packet_sip_initial_transaction (packet call_msg)
  end.

Definition msg_is_initial_transaction (call : Call) (msg : Message) : bool :=
  initial_transaction_loop msg (msgs call).

(** The [for] loop of [msg_is_retrans], which runs the index [i] from the
    last message down to the first; [n] is [i + 1]. *)
Fixpoint retrans_loop (all : list Message) (msg : Message) (n : nat)
  : option Message :=
  match n with
  | O => None
  | S i =>
      match all !! i with
      | None => None
      | Some prev =>
          if same_message prev msg then retrans_loop all msg i
          else if addressport_equals (msg_src_address prev) (msg_src_address msg)
                  && addressport_equals (msg_dst_address prev) (msg_dst_address msg)
          then
            if strcasecmp (msg_get_payload msg) (msg_get_payload prev) =? 0
            then Some prev
            else retrans_loop all msg i
          else retrans_loop all msg i
      end
  end.

Definition msg_is_retrans (call : Call) (msg : Message) : option Message :=
  retrans_loop (msgs call) msg (length (msgs call)).

(** [g_hash_table_lookup]: NULL for a missing key and for a NULL value. *)
Definition g_hash_table_lookup (table : gmap string (option string))
    (key : string) : option string :=
  match table !! key with
  | Some v => v
  | None => None
  end.

Definition msg_set_cached_attribute (msg : Message) (attr : Attribute)
    (value : option string) : Message :=
  match g_hash_table_lookup (attributes msg) (attr_name attr) with
  | Some prev_value =>
      if negb (g_strcmp0 (Some prev_value) value =? 0) then
        {| msg_ptr := msg_ptr msg; packet := packet msg;
           attributes :=
             <[attr_name attr := value]> (delete (attr_name attr) (attributes msg)) |}
      else msg
  | None => msg
  end.

Definition msg_get_cached_attribute (msg : Message) (attr : Attribute)
  : option string :=
  g_hash_table_lookup (attributes msg) (attr_name attr).

(** [msg_new]: a message for [packet] with an empty attribute table;
    [ptr] is the address that [g_malloc0] hands out. *)
Definition msg_new (ptr : N) (packet : Packet) : Message :=
  {| msg_ptr := ptr; packet := packet; attributes := ∅ |}.

(** ** Media of a message *)

(** The SDP data of a packet as message.c reads it: the media, each with
    its address and its formats, each format with its alias (structures
    of packet_sdp.h, which is not among the sources). *)
Record PacketSdpFormat : Type := { format_alias : option string }.

Record PacketSdpMedia : Type := {
  media_address : Address;
  media_formats : list PacketSdpFormat
}.

Record PacketSdpData : Type := { medias : list PacketSdpMedia }.

Section Sdp.

(** [packet_sdp_data], defined with the SDP dissector; NULL for a packet
    without SDP. *)
Variable packet_sdp_data : Packet → option PacketSdpData.

Definition msg_media_count (msg : Message) : Z :=
  match packet_sdp_data (packet msg) with
  | Some sdp => Z.of_nat (length (medias sdp))
  | None => 0
  end.

(** The loop of [msg_media_for_addr] over [sdp->medias]. *)
Fixpoint media_for_addr_loop (l : list PacketSdpMedia) (dst : Address)
  : option PacketSdpMedia :=
  match l with
  | [] => None
  | media :: rest =>
      if addressport_equals (media_address media) dst then Some media
      else media_for_addr_loop rest dst
  end.

Definition msg_media_for_addr (msg : Message) (dst : Address)
  : option PacketSdpMedia :=
  match packet_sdp_data (packet msg) with
  | Some sdp => media_for_addr_loop (medias sdp) dst
  | None => None
  end.

Definition msg_has_sdp (msg : Message) : bool := 0 <? msg_media_count msg.

(** [msg_get_preferred_codec_alias]: the alias of the first format of the
    first media. *)
Definition msg_get_preferred_codec_alias (msg : Message) : option string :=
  match packet_sdp_data (packet msg) with
  | Some sdp =>
      match medias sdp with
      | media :: _ =>
          match media_formats media with
          | format :: _ => format_alias format
          | [] => None
          end
      | [] => None
      end
  | None => None
  end.

End Sdp.

End Storage.

(* ===================================================================== *)
(** * The dissector tree (src/parser/parser.c)                            *)
(* ===================================================================== *)

Module Parser.
Import GLib Setting.
Local Open Scope list_scope.

(** [enum PacketProtoId] of packet.h: the ids that
    [packet_parser_dissector_init] knows, and [PACKET_PROTO_OTHER] for
    an id that reaches the [default] label of its [switch]. *)
Inductive PacketProtoId : Set :=
  | PACKET_LINK
  | PACKET_IP
  | PACKET_UDP
  | PACKET_TCP
  | PACKET_SIP
  | PACKET_SDP
  | PACKET_RTP
  | PACKET_RTCP
  | PACKET_HEP
  | PACKET_TLS
  | PACKET_PROTO_OTHER.

#[global] Instance PacketProtoId_eq_dec : EqDecision PacketProtoId.
Proof. solve_decision. Defined.

Definition proto_code (id : PacketProtoId) : nat :=
  match id with
  | PACKET_LINK => 0 | PACKET_IP => 1 | PACKET_UDP => 2 | PACKET_TCP => 3
  | PACKET_SIP => 4 | PACKET_SDP => 5 | PACKET_RTP => 6 | PACKET_RTCP => 7
  | PACKET_HEP => 8 | PACKET_TLS => 9 | PACKET_PROTO_OTHER => 10
  end.

Definition proto_ids : list PacketProtoId :=
  [PACKET_LINK; PACKET_IP; PACKET_UDP; PACKET_TCP; PACKET_SIP; PACKET_SDP;
   PACKET_RTP; PACKET_RTCP; PACKET_HEP; PACKET_TLS; PACKET_PROTO_OTHER].

Lemma proto_ids_code id : proto_ids !! proto_code id = Some id.
Proof. by destruct id. Qed.

#[global] Instance PacketProtoId_countable : Countable PacketProtoId :=
  inj_countable proto_code (λ n, proto_ids !! n) proto_ids_code.

(** A [PacketDissector *]: dissector objects are numbered in the order in
    which the [packet_..._new] functions allocate them. *)
Abbreviation DissectorPtr := nat.

(** [GNode]: the data pointer, NULL at the root of the tree, and the
    children, first child first. *)
#[local] Unset Elimination Schemes.
Inductive GNode : Type :=
  | Node (data : option DissectorPtr) (children : list GNode).
#[local] Set Elimination Schemes.

Definition node_data (n : GNode) : option DissectorPtr :=
  match n with Node d _ => d end.

Definition node_children (n : GNode) : list GNode :=
  match n with Node _ cs => cs end.

Definition g_node_new (data : option DissectorPtr) : GNode := Node data [].

(** [g_node_n_children] and [g_node_nth_child]; GLib answers 0 and NULL
    for a NULL node. *)
Definition g_node_n_children (n : option GNode) : nat :=
  match n with
  | Some node => length (node_children node)
  | None => 0
  end.

Definition g_node_nth_child (n : option GNode) (i : nat) : option GNode :=
  match n with
  | Some node => node_children node !! i
  | None => None
  end.

(** [g_node_append(parent, node)]: GLib refuses a NULL parent and leaves
    the node unattached. *)
Definition g_node_append (parent : option GNode) (node : GNode) : option GNode :=
  match parent with
  | Some (Node d cs) => Some (Node d (cs ++ [node]))
  | None => None
  end.

(** The data pointers of all nodes below [n]. *)
Fixpoint tree_data (n : GNode) : list (option DissectorPtr) :=
  match n with
  | Node _ cs => flat_map (λ c, node_data c :: tree_data c) cs
  end.

(** [GByteArray]: the bytes of a buffer. *)
Definition GByteArray : Type := list Z.

Section Parser.

(** The private data of the dissectors ([parser->dissectors_priv]) and the
    packet under dissection are not looked into by parser.c. *)
Variable Priv : Type.
Variable Packet : Type.

(** [PacketParser].  [dissectors] has no binding where the array holds
    NULL.  [objects] lists the protocol of every dissector object
    allocated so far, the object with pointer [p] at position [p]. *)
Record PacketParser : Type := mkParser {
  dissectors : gmap PacketProtoId DissectorPtr;
  dissectors_priv : Priv;
  dissector_tree : GNode;
  current : option GNode;
  objects : list PacketProtoId
}.

Definition set_current (parser : PacketParser) (node : option GNode)
  : PacketParser :=
  {| dissectors := dissectors parser;
     dissectors_priv := dissectors_priv parser;
     dissector_tree := dissector_tree parser;
     current := node;
     objects := objects parser |}.

(** [packet_parser_new]: no dissector yet, a root node without data, no
    current node. *)
Definition packet_parser_new (priv0 : Priv) : PacketParser :=
  {| dissectors := ∅;
     dissectors_priv := priv0;
     dissector_tree := g_node_new None;
     current := None;
     objects := [] |}.

(** ** Building the tree *)

(** The settings in force while the parser is built. *)
Variable settings : SettingStorage.

(** What the [packet_..._new] functions, whose sources are not at hand, put
    into a new dissector object: the ids of its subdissectors; and what its
    [init] function, if it has one, does to the private data. *)
Variable subdissectors : PacketProtoId → list PacketProtoId.
Variable dissector_init : PacketProtoId → Priv → Priv.

(** The [switch] of [packet_parser_dissector_init]: whether a dissector
    object is created for [id]. *)
Definition dissector_enabled (id : PacketProtoId) : bool :=
  match id with
  | PACKET_LINK => true
  | PACKET_IP => setting_enabled settings SETTING_CAPTURE_PACKET_IP
  | PACKET_UDP => setting_enabled settings SETTING_CAPTURE_PACKET_UDP
  | PACKET_TCP => setting_enabled settings SETTING_CAPTURE_PACKET_TCP
  | PACKET_SIP => setting_enabled settings SETTING_CAPTURE_PACKET_SIP
  | PACKET_SDP => setting_enabled settings SETTING_CAPTURE_PACKET_SDP
  | PACKET_RTP => setting_enabled settings SETTING_CAPTURE_PACKET_RTP
  | PACKET_RTCP => setting_enabled settings SETTING_CAPTURE_PACKET_RTCP
  | PACKET_HEP => setting_enabled settings SETTING_CAPTURE_PACKET_HEP
  | PACKET_TLS => setting_enabled settings SETTING_CAPTURE_PACKET_TLS
  | PACKET_PROTO_OTHER => false
  end.

(** The first half of [packet_parser_dissector_init]: the dissector of
    [id], taken from [parser->dissectors] or created, stored there and
    initialised; [None] where the function returns NULL. *)
Definition dissector_lookup_or_new (parser : PacketParser) (id : PacketProtoId)
  : option (PacketParser * DissectorPtr) :=
  match dissectors parser !! id with
  | Some dissector => Some (parser, dissector)
  | None =>
      if dissector_enabled id then
        let dissector := length (objects parser) in
        Some ({| dissectors := <[id := dissector]> (dissectors parser);
                 dissectors_priv := dissector_init id (dissectors_priv parser);
                 dissector_tree := dissector_tree parser;
                 current := current parser;
                 objects := objects parser ++ [id] |},
              dissector)
      else None
  end.

(** The loop over [dissector->subdissectors], for a given way [init] of
    initialising one subdissector below [node]. *)
Fixpoint init_subdissectors
    (init : PacketParser → option GNode → PacketProtoId →
            option (PacketParser * option GNode * option DissectorPtr))
    (ids : list PacketProtoId) (parser : PacketParser) (node : GNode)
  : option (PacketParser * GNode) :=
  match ids with
  | [] => Some (parser, node)
  | id :: rest =>
      match init parser (Some node) id with
      | Some (parser', node', _) =>
          init_subdissectors init rest parser' (default node node')
      | None => None
      end
  end.

(** [packet_parser_dissector_init].  The tree below [parent] is handed in
    and handed back; the new node is given its children before it is hung
    below [parent], which yields the tree that the source builds by
    appending the node first.  The recursion follows the subdissector
    lists; [fuel] bounds its depth, and [None] is returned when the bound is
    reached. *)
Fixpoint packet_parser_dissector_init (fuel : nat) (parser : PacketParser)
    (parent : option GNode) (id : PacketProtoId)
  : option (PacketParser * option GNode * option DissectorPtr) :=
  match fuel with
  | O => None
  | S fuel' =>
      match dissector_lookup_or_new parser id with
      | None => Some (parser, parent, None)
      | Some (parser1, dissector) =>
          let node := g_node_new (Some dissector) in
          match init_subdissectors (packet_parser_dissector_init fuel')
                  (subdissectors id) parser1 node with
          | Some (parser2, node') =>
              Some (parser2, g_node_append parent node', Some dissector)
          | None => None
          end
      end
  end.

(** ** Dispatch *)

(** The [dissect] function of a dissector object, NULL for some. *)
Definition DissectFn : Type :=
  PacketParser → Packet → GByteArray →
  PacketParser * Packet * option GByteArray.

Variable dissect : DissectorPtr → option DissectFn.

(** [parser->current->data->dissect] for a child node that has become the
    current one. *)
Definition node_dissect (child : GNode) : option DissectFn :=
  match node_data child with
  | Some dissector => dissect dissector
  | None => None
  end.

(** The [for] loop of [packet_parser_next_dissector] from index [i] on,
    with [todo] children left. *)
Fixpoint next_dissector_loop (current : option GNode) (i todo : nat)
    (parser : PacketParser) (packet : Packet) (data : GByteArray)
  : PacketParser * Packet * option GByteArray :=
  match todo with
  | O => (parser, packet, Some data)
  | S todo' =>
      match g_node_nth_child current i with
      | None => (parser, packet, Some data)
      | Some child =>
          let parser1 := set_current parser (Some child) in
          match node_dissect child with
          | None => next_dissector_loop current (S i) todo' parser1 packet data
          | Some fn =>
              match fn parser1 packet data with
              | (parser2, packet2, None) => (parser2, packet2, None)
              | (parser2, packet2, Some rest) =>
                  next_dissector_loop current (S i) todo' parser2 packet2 rest
              end
          end
      end
  end.

Definition packet_parser_next_dissector (parser : PacketParser)
    (packet : Packet) (data : option GByteArray)
  : PacketParser * Packet * option GByteArray :=
  match data with
  | None => (parser, packet, None)
  | Some bytes =>
      let current := current parser in
      next_dissector_loop current 0 (g_node_n_children current)
        parser packet bytes
  end.

End Parser.

Arguments mkParser {Priv}.
Arguments dissectors {Priv}.
Arguments dissectors_priv {Priv}.
Arguments dissector_tree {Priv}.
Arguments current {Priv}.
Arguments objects {Priv}.
Arguments set_current {Priv}.
Arguments packet_parser_new {Priv}.
Arguments dissector_lookup_or_new {Priv}.
Arguments init_subdissectors {Priv}.
Arguments packet_parser_dissector_init {Priv}.
Arguments node_dissect {Priv Packet}.
Arguments next_dissector_loop {Priv Packet}.
Arguments packet_parser_next_dissector {Priv Packet}.

End Parser.

(* ===================================================================== *)
(** * HEP capture input and output (src/capture/capture_hep.c)            *)
(* ===================================================================== *)

Module Hep.
Import GLib Setting.
Local Open Scope string_scope.
Local Open Scope list_scope.
Local Open Scope Z_scope.

(** [GByteArray]: the bytes of a buffer, each between 0 and 255. *)
Abbreviation GByteArray := (list Z).

Definition bytes_of_string (s : string) : GByteArray :=
  map char_code (list_ascii_of_string s).

(** [g_htons] and [g_htonl] followed by a store: the two or four bytes of
    the value in network order. *)
Definition be16 (n : Z) : GByteArray := [(n / 256) mod 256; n mod 256].
Definition be32 (n : Z) : GByteArray :=
  [(n / 16777216) mod 256; (n / 65536) mod 256; (n / 256) mod 256; n mod 256].

(** ** Construction *)

(** [CaptureHepUrl]. *)
Record CaptureHepUrl : Type := {
  url_host : option string;
  url_port : Z
}.

Inductive CaptureHepErrorCode : Set :=
  | CAPTURE_HEP_ERROR_VERSION
  | CAPTURE_HEP_ERROR_URL_PARSE
  | CAPTURE_HEP_ERROR_SOCKET.

(** The errors the constructors report, each with the arguments of its
    message: the URL and why it was refused, the version that is not
    supported, the address that could not be parsed, or the error that
    GLib reported for a socket. *)
Inductive GError : Type :=
  | UrlArguments (url : string)
  | UrlProtocol (url proto : string)
  | UnsupportedVersion (version : Z)
  | AddressParse (host : option string) (port : Z)
  | SocketError (reason : string).

Definition error_code (e : GError) : CaptureHepErrorCode :=
  match e with
  | UrlArguments _ | UrlProtocol _ _ | AddressParse _ _ =>
      CAPTURE_HEP_ERROR_URL_PARSE
  | UnsupportedVersion _ => CAPTURE_HEP_ERROR_VERSION
  | SocketError _ => CAPTURE_HEP_ERROR_SOCKET
  end.

(** What the constructors do to the network. *)
Inductive SocketEvent : Type :=
  | SocketNew
  | SocketBind (host : option string) (port : Z)
  | SocketConnect (host : option string) (port : Z).

(** How GLib answers: whether a host and port make an address, and the
    error, if any, of creating, binding and connecting a socket. *)
Record Network : Type := {
  address_valid : option string → Z → bool;
  socket_new_error : option string;
  socket_bind_error : option string;
  socket_connect_error : option string
}.

(** [CaptureInputHep] and [CaptureOutputHep] as far as the constructors
    fill them. *)
Record CaptureInputHep : Type := {
  in_version : Z;
  in_password : option string;
  in_url : CaptureHepUrl
}.

Record CaptureOutputHep : Type := {
  version : Z;
  password : option string;
  id : Z;
  url : CaptureHepUrl
}.

(** [isspace] in the C locale. *)
Definition is_space (c : ascii) : bool :=
  let n := N_of_ascii c in ((n =? 32) || ((9 <=? n) && (n <=? 13)))%N.

(** The decimal digits at the head of [s], read onto [acc]. *)
Fixpoint atoi_digits (s : string) (acc : Z) : Z :=
  match s with
  | String c r =>
      let n := char_code c in
      if (48 <=? n) && (n <=? 57) then atoi_digits r (acc * 10 + (n - 48))
      else acc
  | EmptyString => acc
  end.

(** The number that stands at the head of [s]: optional blanks, an
    optional sign, decimal digits. *)
Fixpoint decimal_value (s : string) : Z :=
  match s with
  | String c r =>
      if is_space c then decimal_value r
      else if Ascii.eqb c "-" then - atoi_digits r 0
      else if Ascii.eqb c "+" then atoi_digits r 0
      else atoi_digits s 0
  | EmptyString => 0
  end.

(** The range of [long] where it has 64 bits. *)
Definition LONG_MIN : Z := - 2 ^ 63.
Definition LONG_MAX : Z := 2 ^ 63 - 1.

(** [strtol(nptr, NULL, 10)]: a number outside the range of [long] is
    answered by the nearest bound. *)
Definition strtol (s : string) : Z :=
  Z.max LONG_MIN (Z.min LONG_MAX (decimal_value s)).

(** The conversion of a [long] to [int]: the low 32 bits, read as a
    number in two's complement. *)
Definition int_of_long (n : Z) : Z := (n + 2 ^ 31) mod 2 ^ 32 - 2 ^ 31.

(** [atoi(3)] as the C library computes it, [(int) strtol(nptr, NULL, 10)]. *)
Definition atoi (s : string) : Z := int_of_long (strtol s).

Section Url.

(** The conversion of an [int] to the type of the field [port] of
    [CaptureHepUrl].  The field is declared in capture_hep.h, which is not
    among the sources. *)
Variable url_port_of_int : Z → Z.

(** [capture_hep_parse_url]: a URL of the form udp:host:port. *)
Definition capture_hep_parse_url (url_str : string) : CaptureHepUrl + GError :=
  match g_strsplit url_str ":" 3 with
  | [proto; host; port] =>
      if g_strcmp0 (Some proto) (Some "udp") =? 0 then
        inl {| url_host := Some host; url_port := url_port_of_int (atoi port) |}
      else inr (UrlProtocol url_str proto)
  | _ => inr (UrlArguments url_str)
  end.

End Url.

Section Construction.

(** The conversion to the type of the [port] field, as above, and [g_atoi]
    of glib-extra.h, which is not among the sources. *)
Variable url_port_of_int : Z → Z.
Variable g_atoi : string → Z.
Variable settings : SettingStorage.
Variable net : Network.

Local Abbreviation setting_get_intvalue := (setting_get_intvalue g_atoi settings).
Local Abbreviation setting_get_value := (setting_get_value settings).
Local Abbreviation capture_hep_parse_url := (capture_hep_parse_url url_port_of_int).

(** [capture_input_hep]: the new object or the error, and what was done to
    the network on the way.  Setting up the parser and the event source
    of the object, which follows the binding of the socket, is left out. *)
Definition capture_input_hep (url : option string)
  : (CaptureInputHep + GError) * list SocketEvent :=
  let hep_version := setting_get_intvalue SETTING_HEP_LISTEN_VER in
  let hep_password := setting_get_value SETTING_HEP_LISTEN_PASS in
  let parsed :=
    match url with
    | Some url_str => capture_hep_parse_url url_str
    | None =>
        inl {| url_host := setting_get_value SETTING_HEP_LISTEN_ADDR;
               url_port := url_port_of_int (setting_get_intvalue SETTING_HEP_LISTEN_PORT) |}
    end in
  match parsed with
  | inr e => (inr e, [])
  | inl hep_url =>
      if negb (hep_version =? 2) && negb (hep_version =? 3) then
        (inr (UnsupportedVersion hep_version), [])
      else if negb (address_valid net (url_host hep_url) (url_port hep_url)) then
        (inr (AddressParse (url_host hep_url) (url_port hep_url)), [])
      else
        match socket_new_error net with
        | Some e => (inr (SocketError e), [SocketNew])
        | None =>
            let bind := SocketBind (url_host hep_url) (url_port hep_url) in
            match socket_bind_error net with
            | Some e => (inr (SocketError e), [SocketNew; bind])
            | None =>
                (inl {| in_version := hep_version;
                        in_password := hep_password;
                        in_url := hep_url |},
                 [SocketNew; bind])
            end
        end
  end.

(** [capture_output_hep]. *)
Definition capture_output_hep (url : option string)
  : (CaptureOutputHep + GError) * list SocketEvent :=
  let hep_version := setting_get_intvalue SETTING_HEP_SEND_VER in
  let hep_password := setting_get_value SETTING_HEP_SEND_PASS in
  let hep_id := (setting_get_intvalue SETTING_HEP_SEND_ID) mod 65536 in
  let parsed :=
    match url with
    | Some url_str => capture_hep_parse_url url_str
    | None =>
        inl {| url_host := setting_get_value SETTING_HEP_SEND_ADDR;
               url_port := url_port_of_int (setting_get_intvalue SETTING_HEP_SEND_PORT) |}
    end in
  match parsed with
  | inr e => (inr e, [])
  | inl hep_url =>
      if negb (hep_version =? 2) && negb (hep_version =? 3) then
        (inr (UnsupportedVersion hep_version), [])
      else if negb (address_valid net (url_host hep_url) (url_port hep_url)) then
        (inr (AddressParse (url_host hep_url) (url_port hep_url)), [])
      else
        match socket_new_error net with
        | Some e => (inr (SocketError e), [SocketNew])
        | None =>
            let connect := SocketConnect (url_host hep_url) (url_port hep_url) in
            match socket_connect_error net with
            | Some e => (inr (SocketError e), [SocketNew; connect])
            | None =>
                (inl {| version := hep_version;
                        password := hep_password;
                        id := hep_id;
                        url := hep_url |},
                 [SocketNew; connect])
            end
        end
  end.

End Construction.

(** ** Writing a packet *)

(** The first frame of a packet: [g_date_time_to_unix] and
    [g_date_time_get_microsecond] of its time stamp. *)
Record PacketFrame : Type := { ts_sec : Z; ts_usec : Z }.

(** [PacketIpData] of packet_ip.h. *)
Record PacketIpData : Type := {
  ip_version : Z;
  protocol : Z;
  srcip : string;
  dstip : string
}.

Record PacketUdpData : Type := { sport : Z; dport : Z }.

Record PacketSipData : Type := { payload : string }.

(** A packet: its frames, and the data that the IP, UDP and SIP dissectors
    attached to it, NULL where a dissector attached none. *)
Record Packet : Type := {
  frames : list PacketFrame;
  ip : option PacketIpData;
  udp : option PacketUdpData;
  sip : option PacketSipData
}.

(** The address families of <sys/socket.h> on Linux. *)
Definition AF_INET : Z := 2.
Definition AF_INET6 : Z := 10.

(** Modelled from the spec: the structures of capture_hep.h, which is not
    among the sources.  The spec gives the layout on the wire: a header of
    six bytes, the four characters HEP3 and the total length as 16 bits in
    network order, followed by chunks, each made of vendor id, type id and
    length, 16 bits each, and the data.  A chunk header thus has 6 bytes;
    the data of the chunks for the IP family, the IP protocol and the
    protocol type has one byte, that of the ports two, that of the time
    stamps four, an IPv4 address four and an IPv6 address sixteen. *)
Definition sizeof_chunk : Z := 6.

(** Modelled from the spec: [sizeof(CaptureHepChunkUint8)], a chunk header
    and one byte of data. *)
Definition sizeof_chunk_uint8 : Z := 7.

(** Modelled from the spec: [sizeof(CaptureHepChunkUint16)]. *)
Definition sizeof_chunk_uint16 : Z := 8.

(** Modelled from the spec: [sizeof(CaptureHepChunkUint32)]. *)
Definition sizeof_chunk_uint32 : Z := 10.

(** Modelled from the spec: [sizeof(CaptureHepChunkIp4)], a chunk header
    and the four bytes of an IPv4 address. *)
Definition sizeof_chunk_ip4 : Z := 10.

(** Modelled from the spec: [sizeof(CaptureHepChunkIp6)], a chunk header
    and the sixteen bytes of an IPv6 address. *)
Definition sizeof_chunk_ip6 : Z := 22.

(** Modelled from the spec: [sizeof(CaptureHepCtrl)], the banner and the
    total length. *)
Definition sizeof_ctrl : Z := 6.

(** Modelled from the spec: the bytes of a [CaptureHepChunk] of
    capture_hep.h with vendor id 0, its three fields stored through
    [g_htons]. *)
Definition hep_chunk (type_id chunk_len : Z) : GByteArray :=
  be16 0 ++ be16 type_id ++ be16 chunk_len.

Definition len (bytes : GByteArray) : Z := Z.of_nat (length bytes).

Section Write.

(** Whether the sources are built with [USE_IPV6]. *)
Variable USE_IPV6 : bool.

(** [inet_pton(3)]: the bytes it stores for an address in text form. *)
Variable inet_pton : Z → string → GByteArray.

(** The bytes in the data field of the capture id chunk after
    [hg->capt_id.data = g_htons(hep->id)].  Their number is fixed by the
    declaration of the field in capture_hep.h, their order by that
    declaration and the byte order of the host. *)
Variable capt_id_data : Z → GByteArray.

Definition sizeof_capt_id (hep_id : Z) : Z := sizeof_chunk + len (capt_id_data hep_id).

Definition sizeof_generic (hep_id : Z) : Z :=
  sizeof_ctrl + sizeof_chunk_uint8 + sizeof_chunk_uint8
  + sizeof_chunk_uint16 + sizeof_chunk_uint16
  + sizeof_chunk_uint32 + sizeof_chunk_uint32
  + sizeof_chunk_uint8 + sizeof_capt_id hep_id.

(** [capture_output_hep_write]: the buffer handed to [g_socket_send], or
    nothing when the packet lacks IP, UDP or SIP data (or a frame, which
    the source reads without a check).  The chunks of the generic header
    stand in the order in which the source fills them. *)
Definition capture_output_hep_write (hep : CaptureOutputHep) (packet : Packet)
  : option GByteArray :=
  match frames packet, ip packet, udp packet, sip packet with
  | frame :: _, Some ip, Some udp, Some sip =>
      let is4 := ip_version ip =? 4 in
      let is6 := negb is4 && USE_IPV6 && (ip_version ip =? 6) in
      (* chunks of the generic header *)
      let ip_family :=
        hep_chunk 0x0001 sizeof_chunk_uint8
          ++ [(if is4 then AF_INET else AF_INET6) mod 256] in
      let ip_proto :=
        hep_chunk 0x0002 sizeof_chunk_uint8 ++ [protocol ip mod 256] in
      let src_ip4 :=
        hep_chunk 0x0003 sizeof_chunk_ip4 ++ inet_pton AF_INET (srcip ip) in
      let dst_ip4 :=
        hep_chunk 0x0004 sizeof_chunk_ip4 ++ inet_pton AF_INET (dstip ip) in
      let src_ip6 :=
        hep_chunk 0x0005 sizeof_chunk_ip6 ++ inet_pton AF_INET6 (srcip ip) in
      let dst_ip6 :=
        hep_chunk 0x0006 sizeof_chunk_ip6 ++ inet_pton AF_INET6 (dstip ip) in
      let ip_len :=
        if is4 then sizeof_chunk_ip4 + sizeof_chunk_ip4
        else if is6 then sizeof_chunk_ip6 + sizeof_chunk_ip6
        else 0 in
      let src_port := hep_chunk 0x0007 sizeof_chunk_uint16 ++ be16 (sport udp) in
      let dst_port := hep_chunk 0x0008 sizeof_chunk_uint16 ++ be16 (dport udp) in
      let time_sec := hep_chunk 0x0009 sizeof_chunk_uint32 ++ be32 (ts_sec frame) in
      let time_usec := hep_chunk 0x000a sizeof_chunk_uint32 ++ be32 (ts_usec frame) in
      let proto_t := hep_chunk 0x000b sizeof_chunk_uint8 ++ [1] in
      let capt_id :=
        hep_chunk 0x000c (sizeof_capt_id (id hep)) ++ capt_id_data (id hep) in
      let payload_chunk :=
        hep_chunk 0x000f (sizeof_chunk + strlen (payload sip)) in
      let total_len :=
        sizeof_generic (id hep) + strlen (payload sip) + ip_len + sizeof_chunk in
      (* authorization key *)
      let total_len :=
        match password hep with
        | Some pw => total_len + sizeof_chunk + strlen pw
        | None => total_len
        end in
      let authkey :=
        match password hep with
        | Some pw =>
            hep_chunk 0x000e (sizeof_chunk + strlen pw) ++ bytes_of_string pw
        | None => []
        end in
      (* the buffer *)
      let header := bytes_of_string "HEP3" ++ be16 total_len in
      Some (header ++ ip_family ++ ip_proto ++ src_port ++ dst_port
              ++ time_sec ++ time_usec ++ proto_t ++ capt_id
              ++ (if is4 then src_ip4 ++ dst_ip4
                  else if is6 then src_ip6 ++ dst_ip6 else [])
              ++ authkey
              ++ payload_chunk ++ bytes_of_string (payload sip))
  | _, _, _, _ => None
  end.

End Write.

(** ** Reading a packet *)

(** Modelled from the spec: what the decoder (parser/packet_hep.c, not
    among the sources) has found in the chunks of a buffer, none of them
    seen at first. *)
Record HepChunks : Type := mkChunks {
  c_family : option Z;
  c_protocol : option Z;
  c_src : option (Z * GByteArray);
  c_dst : option (Z * GByteArray);
  c_sport : option Z;
  c_dport : option Z;
  c_sec : option Z;
  c_usec : option Z;
  c_proto_type : option Z;
  c_capt_id : option GByteArray;
  c_authkey : option GByteArray;
  c_payload : option GByteArray
}.

Definition no_chunks : HepChunks :=
  mkChunks None None None None None None None None None None None None.

(** Modelled from the spec: the packet that the decoder hands to the SIP
    dissector, which section 4.7 lists as IP version, protocol, source
    and destination address and port, time stamp and payload; and the
    authorization key found in the buffer. *)
Record HepPacket : Type := {
  hp_ip_version : Z;
  hp_protocol : Z;
  hp_src_addr : string;
  hp_dst_addr : string;
  hp_src_port : Z;
  hp_dst_port : Z;
  hp_ts_sec : Z;
  hp_ts_usec : Z;
  hp_payload : string;
  hp_authkey : option string
}.

(** The number that bytes in network order stand for, and the text that
    bytes stand for. *)
Definition be_decode (bytes : GByteArray) : Z :=
  fold_left (λ acc b, acc * 256 + b) bytes 0.

Definition string_of_bytes (bytes : GByteArray) : string :=
  string_of_list_ascii (map (λ b, ascii_of_N (Z.to_N b)) bytes).

(** Modelled from the spec: the HEP decoder (parser/packet_hep.c), which
    is not among the sources.  Section 4.7 of the spec: the buffer starts
    with the banner HEP3 and the total length, which must be the number of
    bytes received; then come the chunks, found by their type id:
    1 IP family, 2 IP protocol, 3 and 4 (IPv4) or 5 and 6 (IPv6) source and
    destination address, 7 and 8 the ports, 9 and 10 seconds and
    microseconds of the time stamp, 11 the protocol type, 12 the capture
    id, 14 the authorization key, 15 the payload.  A buffer that fails a
    check or lacks a required chunk is rejected. *)
Definition hep_store_chunk (vendor type_id : Z) (data : GByteArray)
    (acc : HepChunks) : HepChunks :=
  if negb (vendor =? 0) then acc
  else if type_id =? 1 then
    mkChunks (Some (be_decode data)) (c_protocol acc) (c_src acc) (c_dst acc)
      (c_sport acc) (c_dport acc) (c_sec acc) (c_usec acc) (c_proto_type acc)
      (c_capt_id acc) (c_authkey acc) (c_payload acc)
  else if type_id =? 2 then
    mkChunks (c_family acc) (Some (be_decode data)) (c_src acc) (c_dst acc)
      (c_sport acc) (c_dport acc) (c_sec acc) (c_usec acc) (c_proto_type acc)
      (c_capt_id acc) (c_authkey acc) (c_payload acc)
  else if (type_id =? 3) || (type_id =? 5) then
    mkChunks (c_family acc) (c_protocol acc)
      (Some (if type_id =? 3 then AF_INET else AF_INET6, data)) (c_dst acc)
      (c_sport acc) (c_dport acc) (c_sec acc) (c_usec acc) (c_proto_type acc)
      (c_capt_id acc) (c_authkey acc) (c_payload acc)
  else if (type_id =? 4) || (type_id =? 6) then
    mkChunks (c_family acc) (c_protocol acc) (c_src acc)
      (Some (if type_id =? 4 then AF_INET else AF_INET6, data))
      (c_sport acc) (c_dport acc) (c_sec acc) (c_usec acc) (c_proto_type acc)
      (c_capt_id acc) (c_authkey acc) (c_payload acc)
  else if type_id =? 7 then
    mkChunks (c_family acc) (c_protocol acc) (c_src acc) (c_dst acc)
      (Some (be_decode data)) (c_dport acc) (c_sec acc) (c_usec acc)
      (c_proto_type acc) (c_capt_id acc) (c_authkey acc) (c_payload acc)
  else if type_id =? 8 then
    mkChunks (c_family acc) (c_protocol acc) (c_src acc) (c_dst acc)
      (c_sport acc) (Some (be_decode data)) (c_sec acc) (c_usec acc)
      (c_proto_type acc) (c_capt_id acc) (c_authkey acc) (c_payload acc)
  else if type_id =? 9 then
    mkChunks (c_family acc) (c_protocol acc) (c_src acc) (c_dst acc)
      (c_sport acc) (c_dport acc) (Some (be_decode data)) (c_usec acc)
      (c_proto_type acc) (c_capt_id acc) (c_authkey acc) (c_payload acc)
  else if type_id =? 10 then
    mkChunks (c_family acc) (c_protocol acc) (c_src acc) (c_dst acc)
      (c_sport acc) (c_dport acc) (c_sec acc) (Some (be_decode data))
      (c_proto_type acc) (c_capt_id acc) (c_authkey acc) (c_payload acc)
  else if type_id =? 11 then
    mkChunks (c_family acc) (c_protocol acc) (c_src acc) (c_dst acc)
      (c_sport acc) (c_dport acc) (c_sec acc) (c_usec acc)
      (Some (be_decode data)) (c_capt_id acc) (c_authkey acc) (c_payload acc)
  else if type_id =? 12 then
    mkChunks (c_family acc) (c_protocol acc) (c_src acc) (c_dst acc)
      (c_sport acc) (c_dport acc) (c_sec acc) (c_usec acc)
      (c_proto_type acc) (Some data) (c_authkey acc) (c_payload acc)
  else if type_id =? 14 then
    mkChunks (c_family acc) (c_protocol acc) (c_src acc) (c_dst acc)
      (c_sport acc) (c_dport acc) (c_sec acc) (c_usec acc)
      (c_proto_type acc) (c_capt_id acc) (Some data) (c_payload acc)
  else if type_id =? 15 then
    mkChunks (c_family acc) (c_protocol acc) (c_src acc) (c_dst acc)
      (c_sport acc) (c_dport acc) (c_sec acc) (c_usec acc)
      (c_proto_type acc) (c_capt_id acc) (c_authkey acc) (Some data)
  else acc.

(** Modelled from the spec: the walk of the decoder over the chunks that
    follow the header, each as long as its length field says, header
    included.  Every
    chunk takes at least six bytes, so a walk of as many steps as the
    buffer has bytes reaches its end. *)
Fixpoint hep_parse_chunks (fuel : nat) (buf : GByteArray) (acc : HepChunks)
  : option HepChunks :=
  match buf with
  | [] => Some acc
  | v1 :: v0 :: t1 :: t0 :: l1 :: l0 :: rest =>
      match fuel with
      | O => None
      | S fuel' =>
          let chunk_len := be_decode [l1; l0] in
          if chunk_len <? sizeof_chunk then None
          else if len rest <? chunk_len - sizeof_chunk then None
          else
            let n := Z.to_nat (chunk_len - sizeof_chunk) in
            hep_parse_chunks fuel' (drop n rest)
              (hep_store_chunk (be_decode [v1; v0]) (be_decode [t1; t0])
                 (take n rest) acc)
      end
  | _ => None
  end.

Section Read.

(** [inet_ntop(3)]: the text form of the bytes of an address. *)
Variable inet_ntop : Z → GByteArray → string.

(** Modelled from the spec: the packet made of the chunks, all required
    chunks being there and source and destination address being of the
    family that the family chunk names. *)
Definition hep_packet_of_chunks (c : HepChunks) : option HepPacket :=
  match c_family c, c_protocol c, c_src c, c_dst c, c_sport c, c_dport c,
        c_sec c, c_usec c, c_proto_type c, c_capt_id c, c_payload c with
  | Some family, Some proto, Some (af_src, src), Some (af_dst, dst),
    Some sport, Some dport, Some sec, Some usec, Some _, Some _, Some payload =>
      if (family =? af_src) && (family =? af_dst)
         && ((family =? AF_INET) || (family =? AF_INET6)) then
        Some {| hp_ip_version := if family =? AF_INET then 4 else 6;
                hp_protocol := proto;
                hp_src_addr := inet_ntop family src;
                hp_dst_addr := inet_ntop family dst;
                hp_src_port := sport;
                hp_dst_port := dport;
                hp_ts_sec := sec;
                hp_ts_usec := usec;
                hp_payload := string_of_bytes payload;
                hp_authkey := string_of_bytes <$> c_authkey c |}
      else None
  | _, _, _, _, _, _, _, _, _, _, _ => None
  end.

(** Modelled from the spec: the decoder on a received buffer. *)
Definition packet_hep_decode (buf : GByteArray) : option HepPacket :=
  match buf with
  | b0 :: b1 :: b2 :: b3 :: l1 :: l0 :: chunks =>
      if bool_decide ([b0; b1; b2; b3] = bytes_of_string "HEP3")
         && (be_decode [l1; l0] =? len buf)
      then hep_parse_chunks (length chunks) chunks no_chunks
             ≫= hep_packet_of_chunks
      else None
  | _ => None
  end.

End Read.

(** ** Receiving a packet *)

Section Receive.

Variable Priv : Type.
Variable Packet : Type.
Variable settings : SettingStorage.
Variable subdissectors : Parser.PacketProtoId → list Parser.PacketProtoId.
Variable dissector_init : Parser.PacketProtoId → Priv → Priv.
Variable dissect : nat → option (Parser.DissectFn Priv Packet).

(** [packet_new] followed by the frame that holds the received bytes. *)
Variable packet_new : GByteArray → Packet.

(** The step of [capture_input_hep] that creates the packet parser tree:
    [packet_parser_dissector_init(parser, NULL, PACKET_HEP)] on the parser
    of the new input. *)
Definition capture_input_hep_tree (fuel : nat) (parser : Parser.PacketParser Priv)
  : option (Parser.PacketParser Priv) :=
  match Parser.packet_parser_dissector_init settings subdissectors
          dissector_init fuel parser None Parser.PACKET_HEP with
  | Some (parser', _, _) => Some parser'
  | None => None
  end.

(** [capture_input_hep_receive]: [received] is what the socket delivered,
    nothing when [g_socket_receive_from] answers -1.  The result is what
    the function returns, the parser as it leaves it and the packet as the
    dissectors leave it, if one was made. *)
Definition capture_input_hep_receive (received : option GByteArray)
    (parser : Parser.PacketParser Priv)
  : bool * Parser.PacketParser Priv * option Packet :=
  match received with
  | None => (false, parser, None)
  | Some data =>
      let packet := packet_new data in
      let parser1 := Parser.set_current parser (Some (Parser.dissector_tree parser)) in
      let '(parser2, packet2, _) :=
        Parser.packet_parser_next_dissector dissect parser1 packet (Some data) in
      (true, parser2, Some packet2)
  end.

End Receive.

End Hep.

(* ===================================================================== *)
(** * Properties of the string functions                                  *)
(* ===================================================================== *)

Module GLibProps.
Import GLib.
Local Open Scope string_scope.
Local Open Scope list_scope.
Local Open Scope Z_scope.

Example strcasecmp_ignores_case : strcasecmp "Call-ID: A1b2" "CALL-id: a1B2" = 0.
Proof. reflexivity. Qed.

Example strcmp_sees_case : strcmp "on" "On" = 32.
Proof. reflexivity. Qed.

Example g_strsplit_url :
  g_strsplit "udp:10.0.0.1:9060" ":" 3 = ["udp"; "10.0.0.1"; "9060"].
Proof. reflexivity. Qed.

Example g_strsplit_keeps_rest :
  g_strsplit "udp:::1:9060" ":" 3 = ["udp"; EmptyString; ":1:9060"].
Proof. reflexivity. Qed.

Example g_strsplit_empty : g_strsplit EmptyString "," (-1) = [].
Proof. reflexivity. Qed.

Lemma strcmp_with_refl f s : strcmp_with f s s = 0.
Proof.
  induction s as [|c s IH]; simpl; [done|].
  by rewrite Ascii.eqb_refl.
Qed.

Lemma char_code_inj c1 c2 : char_code c1 = char_code c2 → c1 = c2.
Proof.
  unfold char_code. intros H. apply N2Z.inj in H.
  rewrite <- (ascii_N_embedding c1), <- (ascii_N_embedding c2).
  by rewrite H.
Qed.

(** The result is zero exactly when the two strings agree character by
    character under [f]. *)
Lemma strcmp_with_zero f s1 s2 :
  strcmp_with f s1 s2 = 0 ↔
  map f (list_ascii_of_string s1) = map f (list_ascii_of_string s2).
Proof.
  revert s2. induction s1 as [|c1 r1 IH]; intros [|c2 r2]; simpl; try done.
  destruct (Ascii.eqb (f c1) (f c2)) eqn:E.
  - apply Ascii.eqb_eq in E. rewrite E, IH. split; [congruence|].
    intros H. by injection H.
  - apply Ascii.eqb_neq in E. split.
    + intros H. exfalso. apply E, char_code_inj. lia.
    + intros H. injection H. congruence.
Qed.

Lemma strcmp_zero s1 s2 : strcmp s1 s2 = 0 ↔ s1 = s2.
Proof.
  unfold strcmp. revert s2.
  induction s1 as [|c1 r1 IH]; intros [|c2 r2]; simpl; try done.
  destruct (Ascii.eqb c1 c2) eqn:E.
  - apply Ascii.eqb_eq in E. subst. rewrite IH. split; congruence.
  - apply Ascii.eqb_neq in E. split; [|congruence].
    intros H. exfalso. apply E, char_code_inj. lia.
Qed.

Lemma strcasecmp_sym s1 s2 : strcasecmp s1 s2 = 0 → strcasecmp s2 s1 = 0.
Proof. unfold strcasecmp. rewrite !strcmp_with_zero. done. Qed.

Lemma strcasecmp_trans s1 s2 s3 :
  strcasecmp s1 s2 = 0 → strcasecmp s2 s3 = 0 → strcasecmp s1 s3 = 0.
Proof. unfold strcasecmp. rewrite !strcmp_with_zero. congruence. Qed.

End GLibProps.

(* ===================================================================== *)
(** * Properties of the settings                                          *)
(* ===================================================================== *)

Module SettingProps.
Import GLib Setting.
Local Open Scope string_scope.
Local Open Scope list_scope.
Local Open Scope Z_scope.

Definition state_of {A : Type} (o : Outcome A) : A :=
  match o with Returns a => a | Exits _ a => a | Overruns a => a end.

Definition returned {A : Type} (o : Outcome A) : bool :=
  match o with Returns _ => true | Exits _ _ => false | Overruns _ => false end.

Definition option_to_list {A : Type} (o : option A) : list A :=
  match o with Some a => [a] | None => [] end.

Lemma strncpy_fits n s : (String.length s ≤ n)%nat → strncpy n s = s.
Proof.
  revert n. induction s as [|c s IH]; intros [|n] H; simpl in *;
    try done; try lia.
  f_equal. apply IH. lia.
Qed.

Lemma lookup_foldl_g_ptr_array_set_notin k (l : list (SettingId * Setting))
    (m : gmap SettingId Setting) :
  k ∉ l.*1 → foldl g_ptr_array_set m l !! k = m !! k.
Proof.
  revert m. induction l as [|[k' v] l IH]; intros m Hk; simpl; [done|].
  rewrite fmap_cons, not_elem_of_cons in Hk. destruct Hk as [Hne Hk].
  rewrite IH by done. unfold g_ptr_array_set. simpl.
  by rewrite lookup_insert_ne.
Qed.

Lemma lookup_foldl_g_ptr_array_set k v (l1 l2 : list (SettingId * Setting))
    (m : gmap SettingId Setting) :
  k ∉ l2.*1 →
  foldl g_ptr_array_set m (l1 ++ (k, v) :: l2)%list !! k = Some v.
Proof.
  intros Hk. rewrite foldl_app. simpl.
  rewrite lookup_foldl_g_ptr_array_set_notin by done.
  unfold g_ptr_array_set. simpl. by rewrite lookup_insert_eq.
Qed.

Section Props.

Variable SETTING_MAX_LEN : nat.
Variable g_atoi : string → Z.
Variable attr_name_callindex : string.
Variable sscanf_line : string → list string.

Local Abbreviation settings_init :=
  (settings_init SETTING_MAX_LEN attr_name_callindex sscanf_line).
Local Abbreviation setting_read_file :=
  (setting_read_file SETTING_MAX_LEN sscanf_line).
Local Abbreviation then_read := (then_read SETTING_MAX_LEN sscanf_line).
Local Abbreviation setting_toggle := (setting_toggle SETTING_MAX_LEN).
Local Abbreviation setting_set_value := (setting_set_value SETTING_MAX_LEN).
Local Abbreviation default_settings :=
  (default_settings SETTING_MAX_LEN attr_name_callindex).

(** The slot of [filter.methods] after the defaults have been stored. *)
Lemma default_filter_methods env :
  foldl g_ptr_array_set ∅ (default_settings env) !! SETTING_FILTER_METHODS =
  Some (setting_string_new SETTING_MAX_LEN "filter.methods"
          "REGISTER,INVITE,SUBSCRIBE,NOTIFY,OPTIONS,PUBLISH,MESSAGE,INFO,REFER,UPDATE").
Proof.
  unfold Setting.default_settings.
  match goal with
  | |- foldl _ _ ?l !! _ = _ =>
      change l with ((take 89%nat l ++ (SETTING_FILTER_METHODS,
        setting_string_new SETTING_MAX_LEN "filter.methods"
          "REGISTER,INVITE,SUBSCRIBE,NOTIFY,OPTIONS,PUBLISH,MESSAGE,INFO,REFER,UPDATE")
        :: drop 90%nat l)%list)
  end.
  apply lookup_foldl_g_ptr_array_set.
  cbn [drop fmap list_fmap fst].
  rewrite !not_elem_of_cons. repeat split; try discriminate.
  apply not_elem_of_nil.
Qed.

Lemma setting_read_file_opened env fname w :
  opened (state_of (setting_read_file env fname w)) = (opened w ++ [fname])%list.
Proof.
  unfold Setting.setting_read_file.
  destruct (fopen env fname) as [lines|]; [|done].
  by destruct (setting_read_lines _ _ _ _).
Qed.

Lemma then_read_opened env fname o :
  opened (state_of (then_read env fname o)) =
  if returned o then (opened (state_of o) ++ [fname])%list
  else opened (state_of o).
Proof.
  destruct o as [w|code w|w]; simpl; [|done|done].
  apply setting_read_file_opened.
Qed.

Lemma then_read_exited env fname o :
  returned o = false → returned (then_read env fname o) = false.
Proof. by destruct o. Qed.

(** The user's configuration file: the one [SNGREPRC] names, else the one
    in the home directory, if that is known. *)
Definition user_conf (env : Env) : list string :=
  match getenv env "SNGREPRC" with
  | Some rc => [rc]
  | None =>
      match homedir env with
      | Some home => [home +:+ "/.sngreprc"]
      | None => []
      end
  end.

Definition conf_files (env : Env) (override : option string) : list string :=
  (["/etc/sngreprc"; "/usr/local/etc/sngreprc"] ++ user_conf env
     ++ option_to_list override)%list.

Lemma settings_init_opened env override :
  let o := settings_init {| use_defaults := false; file := override |} env in
  if returned o then opened (state_of o) = conf_files env override
  else opened (state_of o) `prefix_of` conf_files env override.
Proof.
  unfold Setting.settings_init, conf_files, user_conf. cbn [use_defaults file].
  set (w0 := Returns _).
  set (wa := then_read env "/etc/sngreprc" w0).
  set (wb := then_read env "/usr/local/etc/sngreprc" wa).
  assert (Ha : opened (state_of wa) = ["/etc/sngreprc"]).
  { unfold wa. by rewrite then_read_opened. }
  assert (Hb : if returned wa
               then opened (state_of wb) = ["/etc/sngreprc"; "/usr/local/etc/sngreprc"]
               else returned wb = false ∧ opened (state_of wb) = ["/etc/sngreprc"]).
  { unfold wb. rewrite then_read_opened.
    destruct (returned wa) eqn:E; [by rewrite Ha|].
    split; [by apply then_read_exited|done]. }
  clearbody wa wb. clear w0 Ha.
  set (wc := match getenv env "SNGREPRC" with
             | Some rc => then_read env rc wb
             | None => match homedir env with
                       | Some home => then_read env (home +:+ "/.sngreprc") wb
                       | None => wb
                       end
             end).
  set (uc := match getenv env "SNGREPRC" with
             | Some rc => [rc]
             | None => match homedir env with
                       | Some home => [home +:+ "/.sngreprc"]
                       | None => []
                       end
             end).
  assert (Hc : if returned wb
               then opened (state_of wc) = (opened (state_of wb) ++ uc)%list
               else returned wc = false ∧ opened (state_of wc) = opened (state_of wb)).
  { unfold wc, uc. destruct (getenv env "SNGREPRC") as [rc|].
    - rewrite then_read_opened. destruct (returned wb) eqn:E; [done|].
      split; [by apply then_read_exited|done].
    - destruct (homedir env) as [home|].
      + rewrite then_read_opened. destruct (returned wb) eqn:E; [done|].
        split; [by apply then_read_exited|done].
      + destruct (returned wb) eqn:E; [by rewrite app_nil_r|done]. }
  clearbody wc uc.
  assert (Hd : ∀ o : Outcome World,
    (if returned wc then opened (state_of o) = (opened (state_of wc) ++ option_to_list override)%list
     else returned o = false ∧ opened (state_of o) = opened (state_of wc)) →
    if returned o
    then opened (state_of o) =
         ["/etc/sngreprc"; "/usr/local/etc/sngreprc"] ++ uc ++ option_to_list override
    else opened (state_of o) `prefix_of`
         ["/etc/sngreprc"; "/usr/local/etc/sngreprc"] ++ uc ++ option_to_list override).
  { intros o Ho.
    destruct (returned wa) eqn:Ea, (returned wb) eqn:Eb, (returned wc) eqn:Ec,
      (returned o) eqn:Eo;
      repeat match goal with
             | H : _ ∧ _ |- _ => destruct H
             end; try congruence;
      repeat match goal with
             | H : opened _ = _ |- _ => rewrite H in *; clear H
             end; simpl; try done.
    all: try (by eexists; rewrite <- ?app_assoc; simpl; reflexivity).
    all: try (by exists (uc ++ option_to_list override)%list).
    all: try (by exists (("/usr/local/etc/sngreprc" :: uc) ++ option_to_list override)%list). }
  apply Hd. destruct override as [f|]; simpl.
  - rewrite then_read_opened. destruct (returned wc) eqn:E; [done|].
    split; [by apply then_read_exited|done].
  - destruct (returned wc); [by rewrite app_nil_r|done].
Qed.

Definition dialog_methods : list string :=
  ["INVITE"; "REGISTER"; "SUBSCRIBE"; "NOTIFY"; "OPTIONS"; "PUBLISH";
   "MESSAGE"; "INFO"; "REFER"; "UPDATE"].

(** C7.  After [settings_init] with defaults (no configuration file is
    read), the value of [filter.methods], split on commas, consists of
    exactly the ten methods INVITE, REGISTER, SUBSCRIBE, NOTIFY, OPTIONS,
    PUBLISH, MESSAGE, INFO, REFER, UPDATE: the tokens are a rearrangement
    of that list, so the two are equal as sets.  The default has 74
    characters and must fit the value array of a setting. *)
Theorem settings_init_filter_methods env :
  (74 < SETTING_MAX_LEN)%nat →
  ∃ w v,
    settings_init {| use_defaults := true; file := None |} env = Returns w ∧
    opened w = [] ∧
    setting_get_value (settings w) SETTING_FILTER_METHODS = Some v ∧
    g_strsplit v "," (-1) ≡ₚ dialog_methods ∧
    list_to_set (g_strsplit v "," (-1)) =@{gset string} list_to_set dialog_methods.
Proof.
  intros Hlen. unfold Setting.settings_init. cbn [use_defaults file].
  eexists _, _. split; [reflexivity|]. split; [reflexivity|].
  unfold setting_get_value, setting_by_id. cbn [settings values].
  rewrite default_filter_methods. unfold setting_string_new. cbn [value].
  rewrite strncpy_fits by (simpl; lia).
  split; [reflexivity|].
  assert (Hp : g_strsplit
            "REGISTER,INVITE,SUBSCRIBE,NOTIFY,OPTIONS,PUBLISH,MESSAGE,INFO,REFER,UPDATE"
            "," (-1) ≡ₚ dialog_methods).
  { vm_compute. apply perm_swap. }
  split; [exact Hp|]. by rewrite Hp.
Qed.

(** C8.  With [use_defaults] off, [settings_init] opens
    /etc/sngreprc and /usr/local/etc/sngreprc first, then one user file:
    the file that [SNGREPRC] names when the variable is set, and only when
    it is unset the file .sngreprc of the home directory; the file given
    in the options, if any, comes last.  Nothing else is opened.  A value
    in one of the files that does not fit a setting ends the process, a
    field that does not fit its array overruns it, and in both cases the
    files opened until then are the first ones of that sequence. *)
Theorem settings_init_config_files env override :
  let o := settings_init {| use_defaults := false; file := override |} env in
  let user := match getenv env "SNGREPRC" with
              | Some rc => [rc]
              | None => match homedir env with
                        | Some home => [home +:+ "/.sngreprc"]
                        | None => []
                        end
              end in
  let files := ["/etc/sngreprc"; "/usr/local/etc/sngreprc"] ++ user
                 ++ option_to_list override in
  match o with
  | Returns w => opened w = files
  | Exits _ w => opened w `prefix_of` files ∧ opened w ≠ []
  | Overruns w => opened w `prefix_of` files ∧ opened w ≠ []
  end.
Proof.
  intros o user files.
  pose proof (settings_init_opened env override) as H. cbv zeta in H.
  fold o in H. unfold conf_files, user_conf in H. fold user in H. fold files in H.
  (* the first file has been opened before any value is stored *)
  assert (Hfirst : opened (state_of o) ≠ []);
    [|destruct o as [w|code w|w]; simpl in H; done].
  clear H. intros Hnil. remember o as o0 eqn:E in Hnil. revert E. subst o.
  unfold Setting.settings_init. cbn [use_defaults file].
  set (w0 := Returns _).
  set (wa := then_read env "/etc/sngreprc" w0).
  assert (Ha : ∀ o', opened (state_of o') = [] → opened (state_of wa) `prefix_of` opened (state_of o') → False).
  { intros o' Ho' [k Hk]. unfold wa in Hk. rewrite then_read_opened in Hk.
    simpl in Hk. rewrite Ho' in Hk. discriminate. }
  assert (Hmono : ∀ f o', opened (state_of o') `prefix_of` opened (state_of (then_read env f o'))).
  { intros f o'. rewrite then_read_opened. destruct (returned o'); [|done].
    by apply prefix_app_r. }
  clearbody wa. intros E.
  apply (Ha o0 Hnil). rewrite E.
  etrans; [apply (Hmono "/usr/local/etc/sngreprc")|].
  set (wb := then_read env "/usr/local/etc/sngreprc" wa).
  etrans; [|destruct override as [f|]; [apply Hmono|reflexivity]].
  destruct (getenv env "SNGREPRC") as [rc|]; [apply Hmono|].
  destruct (homedir env) as [home|]; [apply Hmono|reflexivity].
Qed.

Lemma with_values_same st : with_values st (values st) = st.
Proof. by destruct st. Qed.

Lemma with_value_same sett : with_value sett (value sett) = sett.
Proof. by destruct sett. Qed.

(** One application of [setting_toggle] to a boolean setting, when the
    two values on and off fit the value array. *)
Lemma setting_toggle_boolean st id sett :
  (3 < SETTING_MAX_LEN)%nat →
  setting_by_id st id = Some sett →
  fmt sett = SETTING_FMT_BOOLEAN →
  setting_toggle st id =
  Returns (with_values st
    (<[id := with_value sett (if setting_enabled st id then "off" else "on")]>
       (values st))).
Proof.
  intros Hlen Hid Hfmt. unfold Setting.setting_toggle. rewrite Hid, Hfmt.
  unfold Setting.setting_set_value. rewrite Hid.
  destruct (setting_enabled st id); cbn [SETTING_ON SETTING_OFF String.length].
  - destruct (Nat.ltb_spec 3 SETTING_MAX_LEN); [done|lia].
  - destruct (Nat.ltb_spec 2 SETTING_MAX_LEN); [done|lia].
Qed.

Lemma setting_enabled_value st id sett :
  setting_by_id st id = Some sett →
  setting_enabled st id =
  (strcmp (value sett) "on" =? 0) || (strcmp (value sett) "yes" =? 0).
Proof. intros H. unfold setting_enabled, setting_has_value. by rewrite H. Qed.

(** C10.  For a boolean setting whose stored value is exactly on or
    exactly off, one [setting_toggle] stores the other of the two values
    and a second one restores the storage as it was.  For another stored
    value this is not so: from yes the first application leads to off and
    the second to on, which is not the value the setting had. *)
Theorem setting_toggle_twice st id sett :
  (3 < SETTING_MAX_LEN)%nat →
  setting_by_id st id = Some sett →
  fmt sett = SETTING_FMT_BOOLEAN →
  ∃ st1 st2,
    setting_toggle st id = Returns st1 ∧
    setting_toggle st1 id = Returns st2 ∧
    (value sett = "on" →
       value <$> setting_by_id st1 id = Some "off" ∧ st2 = st) ∧
    (value sett = "off" →
       value <$> setting_by_id st1 id = Some "on" ∧ st2 = st) ∧
    (value sett = "yes" →
       value <$> setting_by_id st1 id = Some "off" ∧
       value <$> setting_by_id st2 id = Some "on" ∧ st2 ≠ st).
Proof.
  intros Hlen Hid Hfmt.
  pose proof (setting_toggle_boolean st id sett Hlen Hid Hfmt) as H1.
  set (v1 := if setting_enabled st id then "off" else "on") in H1.
  set (st1 := with_values st (<[id := with_value sett v1]> (values st))) in H1.
  assert (Hid1 : setting_by_id st1 id = Some (with_value sett v1)).
  { unfold setting_by_id, st1. simpl. by rewrite lookup_insert_eq. }
  pose proof (setting_toggle_boolean st1 id _ Hlen Hid1 Hfmt) as H2.
  set (v2 := if setting_enabled st1 id then "off" else "on") in H2.
  assert (Hst2 : with_values st1 (<[id := with_value (with_value sett v1) v2]> (values st1))
                 = with_values st (<[id := with_value sett v2]> (values st))).
  { unfold st1, with_values. simpl. by rewrite insert_insert_eq. }
  rewrite Hst2 in H2.
  eexists _, _. split; [exact H1|]. split; [exact H2|].
  rewrite Hid1. cbn [fmap option_fmap option_map with_value value].
  pose proof (setting_enabled_value st id sett Hid) as He.
  pose proof (setting_enabled_value st1 id _ Hid1) as He1.
  cbn [with_value value] in He1.
  assert (Hrestore : v2 = value sett →
    with_values st (<[id := with_value sett v2]> (values st)) = st).
  { intros ->. rewrite with_value_same.
    rewrite insert_id by exact Hid. apply with_values_same. }
  split; [|split]; intros Hv.
  - split.
    + subst v1. rewrite He, Hv. reflexivity.
    + apply Hrestore. subst v2 v1. rewrite He1, He, Hv. reflexivity.
  - split.
    + subst v1. rewrite He, Hv. reflexivity.
    + apply Hrestore. subst v2 v1. rewrite He1, He, Hv. reflexivity.
  - split; [|split].
    + subst v1. rewrite He, Hv. reflexivity.
    + unfold setting_by_id. simpl. rewrite lookup_insert_eq. simpl.
      subst v2 v1. rewrite He1, He, Hv. reflexivity.
    + intros Heq.
      assert (Hl : setting_by_id
                     (with_values st (<[id := with_value sett v2]> (values st))) id
                   = Some sett) by (rewrite Heq; exact Hid).
      unfold setting_by_id in Hl. simpl in Hl. rewrite lookup_insert_eq in Hl.
      injection Hl as Hl. apply (f_equal value) in Hl. simpl in Hl.
      subst v2 v1. rewrite He1, He, Hv in Hl. discriminate.
Qed.

End Props.

(** A parser environment without configuration files, and one setting
    storage holding the boolean setting [syntax]. *)
Definition env_plain : Env :=
  {| homedir := Some "/root"; curdir := "/tmp";
     getenv := λ _, None; fopen := λ _, None |}.

Definition storage_syntax (v : string) : SettingStorage :=
  {| values := {[ SETTING_SYNTAX := setting_bool_new 1024 "syntax" v ]};
     alias := []; externips := [] |}.

Lemma settings_init_filter_methods_witness :
  ∃ w v,
    Setting.settings_init 1024 "index" (λ _, [])
      {| use_defaults := true; file := None |} env_plain = Returns w ∧
    opened w = [] ∧
    setting_get_value (settings w) SETTING_FILTER_METHODS = Some v ∧
    g_strsplit v "," (-1) ≡ₚ dialog_methods ∧
    list_to_set (g_strsplit v "," (-1)) =@{gset string} list_to_set dialog_methods.
Proof.
  apply (settings_init_filter_methods 1024 "index" (λ _, []) env_plain).
  lia.
Defined.

Lemma setting_toggle_twice_witness :
  ∃ st1 st2,
    Setting.setting_toggle 1024 (storage_syntax "on") SETTING_SYNTAX = Returns st1 ∧
    Setting.setting_toggle 1024 st1 SETTING_SYNTAX = Returns st2 ∧
    value <$> setting_by_id st1 SETTING_SYNTAX = Some "off" ∧
    st2 = storage_syntax "on".
Proof.
  destruct (setting_toggle_twice 1024 (storage_syntax "on") SETTING_SYNTAX
              (setting_bool_new 1024 "syntax" "on"))
    as (st1 & st2 & H1 & H2 & Hon & _); [lia|reflexivity|reflexivity|].
  exists st1, st2. destruct (Hon eq_refl) as [Hv Hst]. auto.
Defined.

End SettingProps.

(* ===================================================================== *)
(** * Properties of the messages of a call                                *)
(* ===================================================================== *)

Module StorageProps.
Import GLib GLibProps Storage.
Local Open Scope string_scope.
Local Open Scope list_scope.
Local Open Scope Z_scope.

(** ** The attribute cache *)

(** C9.  When the cache of a message holds nothing for an attribute,
    [msg_set_cached_attribute] leaves the message as it is, so the
    attribute is still not cached and no other entry changes.  An entry
    that exists stays as it is when the new value equals the stored one and
    is replaced by the new value, all other entries being kept, when the
    two differ. *)
Theorem msg_set_cached_attribute_frame (msg : Message) (attr : Attribute)
    (value : option string) :
  (msg_get_cached_attribute msg attr = None →
     msg_set_cached_attribute msg attr value = msg ∧
     msg_get_cached_attribute (msg_set_cached_attribute msg attr value) attr = None) ∧
  (∀ prev, msg_get_cached_attribute msg attr = Some prev →
     value = Some prev →
     msg_set_cached_attribute msg attr value = msg) ∧
  (∀ prev, msg_get_cached_attribute msg attr = Some prev →
     value ≠ Some prev →
     msg_get_cached_attribute (msg_set_cached_attribute msg attr value) attr = value ∧
     ∀ other, attr_name other ≠ attr_name attr →
       attributes (msg_set_cached_attribute msg attr value) !! attr_name other =
       attributes msg !! attr_name other).
Proof.
  unfold msg_get_cached_attribute, msg_set_cached_attribute.
  split; [|split].
  - intros H. rewrite H. done.
  - intros prev H ->. rewrite H. simpl.
    unfold strcmp. by rewrite strcmp_with_refl.
  - intros prev H Hne. rewrite H.
    assert (Hcmp : (g_strcmp0 (Some prev) value =? 0) = false).
    { destruct value as [v|]; simpl; [|done].
      apply Z.eqb_neq. rewrite strcmp_zero. congruence. }
    rewrite Hcmp. simpl. split.
    + unfold g_hash_table_lookup. simpl. by rewrite lookup_insert_eq.
    + intros other Ho.
      rewrite lookup_insert_ne by done. by rewrite lookup_delete_ne.
Qed.

(** ** Retransmissions *)

(** [x] is another message than [msg], with the source and the destination
    address of [msg], ports included, and with the payload of [msg] up to
    the case of letters. *)
Definition resent (msg x : Message) : bool :=
  negb (same_message x msg)
  && addressport_equals (msg_src_address x) (msg_src_address msg)
  && addressport_equals (msg_dst_address x) (msg_dst_address msg)
  && (strcasecmp (msg_get_payload msg) (msg_get_payload x) =? 0).

Definition find_last {A : Type} (P : A → bool) (l : list A) : option A :=
  foldl (λ acc x, if P x then Some x else acc) None l.

Lemma find_last_snoc {A : Type} (P : A → bool) l x :
  find_last P (l ++ [x]) = if P x then Some x else find_last P l.
Proof. unfold find_last. by rewrite foldl_app. Qed.

Lemma find_last_Some {A : Type} (P : A → bool) l r :
  find_last P l = Some r ↔
  ∃ l1 l2, l = l1 ++ r :: l2 ∧ P r = true ∧ Forall (λ x, P x = false) l2.
Proof.
  induction l as [|x l IH] using rev_ind.
  - split; [done|]. intros (l1 & l2 & H & _). by destruct l1.
  - rewrite find_last_snoc. destruct (P x) eqn:Px.
    + split.
      * intros [= <-]. exists l, []. by rewrite Forall_nil.
      * intros (l1 & l2 & H & Pr & Hl2).
        destruct l2 as [|y l2 _] using rev_ind.
        -- apply app_inj_tail in H as [_ ->]. done.
        -- rewrite app_comm_cons, app_assoc in H.
           apply app_inj_tail in H as [_ ->].
           rewrite Forall_app, Forall_singleton in Hl2. destruct Hl2. congruence.
    + rewrite IH. split.
      * intros (l1 & l2 & -> & Pr & Hl2). exists l1, (l2 ++ [x]).
        rewrite <- app_assoc. split; [done|]. split; [done|].
        rewrite Forall_app, Forall_singleton. done.
      * intros (l1 & l2 & H & Pr & Hl2).
        destruct l2 as [|y l2 _] using rev_ind.
        -- apply app_inj_tail in H as [_ ->]. congruence.
        -- rewrite app_comm_cons, app_assoc in H.
           apply app_inj_tail in H as [-> ->].
           rewrite Forall_app in Hl2. destruct Hl2. eauto.
Qed.

Lemma find_last_None {A : Type} (P : A → bool) l :
  find_last P l = None ↔ Forall (λ x, P x = false) l.
Proof.
  induction l as [|x l IH] using rev_ind.
  - split; [by rewrite Forall_nil|done].
  - rewrite find_last_snoc, Forall_app, Forall_singleton.
    destruct (P x); [|rewrite IH].
    + split; [done|]. by intros [_ ?].
    + split; [done|]. by intros [? _].
Qed.

Lemma retrans_loop_step all msg i prev :
  all !! i = Some prev →
  retrans_loop all msg (S i) =
  if resent msg prev then Some prev else retrans_loop all msg i.
Proof.
  intros H. simpl. rewrite H. unfold resent.
  destruct (same_message prev msg); simpl; [done|].
  by repeat case_match.
Qed.

Lemma retrans_loop_find_last all msg n :
  (n ≤ length all)%nat →
  retrans_loop all msg n = find_last (resent msg) (take n all).
Proof.
  induction n as [|i IH]; intros Hn; [done|].
  destruct (lookup_lt_is_Some_2 all i) as [prev Hprev]; [lia|].
  rewrite (retrans_loop_step _ _ _ _ Hprev), (take_S_r _ _ _ Hprev).
  rewrite find_last_snoc, IH by lia. done.
Qed.

Lemma msg_is_retrans_find_last call msg :
  msg_is_retrans call msg = find_last (resent msg) (msgs call).
Proof.
  unfold msg_is_retrans. rewrite retrans_loop_find_last by done.
  by rewrite firstn_all.
Qed.

(** [r] has its place in the array of the call before the place of [m]. *)
Definition stored_before (call : Call) (r m : Message) : Prop :=
  ∃ i j, msgs call !! i = Some r ∧ msgs call !! j = Some m ∧ (i < j)%nat.

(** C4, as amended.  [msg_is_retrans] returns a message exactly when the
    call holds another message with the source and destination address of
    [m], ports included, and a payload equal to that of [m] up to the case
    of letters; what it returns is the last such message in the order of
    the call, whether that message stands before or behind [m].  It stands
    before [m] whenever [m] is the last message of the call.  The payloads
    of [m] and of the returned message agree up to case, and with them all
    that is read from the payload regardless of case, such as the CSeq
    number: a message with another CSeq is never returned. *)
Theorem msg_is_retrans_last_resent (call : Call) (m : Message) :
  (∀ r, msg_is_retrans call m = Some r ↔
     ∃ l1 l2, msgs call = l1 ++ r :: l2 ∧ resent m r = true ∧
              Forall (λ x, resent m x = false) l2) ∧
  (msg_is_retrans call m = None ↔
     Forall (λ x, resent m x = false) (msgs call)) ∧
  (∀ r, msg_is_retrans call m = Some r →
     same_message r m = false ∧
     strcasecmp (msg_get_payload m) (msg_get_payload r) = 0 ∧
     ∀ header : string → Z,
       (∀ p q, strcasecmp p q = 0 → header p = header q) →
       header (msg_get_payload r) = header (msg_get_payload m)) ∧
  (∀ before r, msgs call = before ++ [m] →
     msg_is_retrans call m = Some r → r ∈ before).
Proof.
  rewrite msg_is_retrans_find_last.
  assert (Hres : ∀ r, find_last (resent m) (msgs call) = Some r → resent m r = true).
  { intros r Hr. apply find_last_Some in Hr as (? & ? & _ & ? & _). done. }
  split; [|split; [|split]].
  - intros r. apply find_last_Some.
  - apply find_last_None.
  - intros r Hr. apply Hres in Hr. unfold resent in Hr.
    rewrite !andb_true_iff, negb_true_iff, Z.eqb_eq in Hr.
    destruct Hr as [[[Hne _] _] Hp]. split; [done|]. split; [done|].
    intros header Hh. symmetry. by apply Hh.
  - intros before r Hm Hr. pose proof (Hres r Hr) as Hrr.
    apply find_last_Some in Hr as (l1 & l2 & Hl & _ & _).
    rewrite Hm in Hl.
    destruct l2 as [|y l2 _] using rev_ind.
    + apply app_inj_tail in Hl as [_ ->].
      unfold resent, same_message in Hrr. rewrite N.eqb_refl in Hrr. done.
    + rewrite app_comm_cons, app_assoc in Hl.
      apply app_inj_tail in Hl as [-> _].
      rewrite elem_of_app, elem_of_cons. auto.
Qed.

Definition addr_a : Address := {| ip := "10.0.0.1"; port := 5060 |}.
Definition addr_b : Address := {| ip := "10.0.0.2"; port := 5060 |}.

Definition invite_packet (initial : bool) : Packet :=
  {| packet_src_address := addr_a; packet_dst_address := addr_b;
     packet_sip_method := 1; packet_sip_cseq := 1;
     packet_sip_payload := "INVITE sip:bob@10.0.0.2 SIP/2.0";
     packet_sip_initial_transaction := initial |}.

Definition invite_at (ptr : N) (initial : bool) : Message :=
  {| msg_ptr := ptr; packet := invite_packet initial; attributes := ∅ |}.

(** An INVITE and its retransmission, stored in this order. *)
Definition call_resent : Call :=
  {| msgs := [invite_at 1 true; invite_at 2 true] |}.

(** C4 as stated does not hold: asked about the first of two equal
    messages, [msg_is_retrans] returns the second, which was stored
    later, so it does not return an earlier message although another
    message with the same addresses and payload exists. *)
Lemma msg_is_retrans_returns_later :
  ¬ (∀ (call : Call) (m : Message), m ∈ msgs call →
       (∃ r, msg_is_retrans call m = Some r ∧ stored_before call r m) ↔
       (∃ x, x ∈ msgs call ∧ resent m x = true)).
Proof.
  intros H.
  destruct (H call_resent (invite_at 1 true)) as [_ Hback].
  { simpl. apply elem_of_cons. by left. }
  destruct Hback as (r & Hr & i & j & Hi & Hj & Hij).
  { exists (invite_at 2 true). split; [|reflexivity].
    simpl. apply elem_of_cons. right. apply elem_of_cons. by left. }
  vm_compute in Hr. injection Hr as <-.
  destruct j as [|[|j]]; simpl in Hj; [lia| |done].
  injection Hj as Hj. discriminate.
Qed.

Lemma msg_is_retrans_last_resent_witness :
  msg_is_retrans call_resent (invite_at 2 true) = Some (invite_at 1 true) ∧
  invite_at 1 true ∈ [invite_at 1 true].
Proof.
  destruct (msg_is_retrans_last_resent call_resent (invite_at 2 true))
    as (_ & _ & _ & Hlast).
  split; [reflexivity|].
  apply (Hlast [invite_at 1 true] (invite_at 1 true)); reflexivity.
Defined.

(** ** Initial transactions *)

(** [r] is a request with the CSeq number of [m] that was sent from the
    source address of [m], when [m] is a request, or sent to the source
    address of [m], when [m] is a response. *)
Definition transaction_request (m r : Message) : bool :=
  msg_is_request r
  && (msg_get_cseq m =? msg_get_cseq r)
  && addressport_equals (packet_src_address (packet m))
       (if msg_is_request m then packet_src_address (packet r)
        else packet_dst_address (packet r)).

Lemma initial_transaction_loop_cons m x rest :
  (msg_is_request x = true → same_message x m = false) →
  initial_transaction_loop m (x :: rest) =
  if transaction_request m x then packet_sip_initial_transaction (packet x)
  else initial_transaction_loop m rest.
Proof.
  intros Hx. simpl. unfold transaction_request.
  destruct (msg_is_request x); simpl; [|done].
  rewrite Hx by done.
  destruct (msg_get_cseq m =? msg_get_cseq x); simpl; [|done].
  destruct (msg_is_request m);
    match goal with
    | |- context [addressport_equals ?a ?b] =>
        by destruct (addressport_equals a b)
    end.
Qed.

Lemma initial_transaction_loop_none m rest :
  Forall (λ x, transaction_request m x = false) rest →
  initial_transaction_loop m rest = packet_sip_initial_transaction (packet m).
Proof.
  induction 1 as [|x rest Hx _ IH]; [done|].
  simpl. unfold transaction_request in Hx.
  destruct (msg_is_request x); simpl in *; [|done].
  destruct (same_message x m); [done|].
  destruct (msg_get_cseq m =? msg_get_cseq x); simpl in *; [|done].
  destruct (msg_is_request m); rewrite Hx; done.
Qed.

(** C5, as amended.  Let [m] stand in its call behind the messages
    [before].  [msg_is_initial_transaction] looks among them for the first
    request that has the CSeq number of [m] and the source address of [m]
    as its own source (for [m] a request) or as its destination (for [m] a
    response).  If there is one, the result is the initial-transaction
    flag of the packet of that request; if there is none, the result is
    the flag of the packet of [m] itself.  For a response this is stated
    for calls that hold no such request behind [m]. *)
Theorem msg_is_initial_transaction_first_request
    (before after : list Message) (m : Message) :
  Forall (λ x, msg_is_request x = true → same_message x m = false) before →
  msg_is_request m = true ∨ Forall (λ x, transaction_request m x = false) after →
  msg_is_initial_transaction {| msgs := before ++ m :: after |} m =
  match find (transaction_request m) before with
  | Some r => packet_sip_initial_transaction (packet r)
  | None => packet_sip_initial_transaction (packet m)
  end.
Proof.
  intros Hbefore Hafter. unfold msg_is_initial_transaction. cbn [msgs].
  induction Hbefore as [|x before Hx _ IH].
  - simpl. destruct (msg_is_request m) eqn:Hm; simpl.
    + unfold same_message. by rewrite N.eqb_refl.
    + destruct Hafter as [|Hafter]; [done|].
      by apply initial_transaction_loop_none.
  - rewrite <- app_comm_cons, initial_transaction_loop_cons by done.
    simpl. by destruct (transaction_request m x).
Qed.

(** For a response the loop is not stopped at the message itself: the
    first such request of the whole call decides. *)
Lemma msg_is_initial_transaction_response (call : Call) (m : Message) :
  msg_is_request m = false →
  Forall (λ x, msg_is_request x = true → same_message x m = false) (msgs call) →
  msg_is_initial_transaction call m =
  match find (transaction_request m) (msgs call) with
  | Some r => packet_sip_initial_transaction (packet r)
  | None => packet_sip_initial_transaction (packet m)
  end.
Proof.
  intros Hm Hall. unfold msg_is_initial_transaction.
  induction Hall as [|x rest Hx _ IH]; [done|].
  rewrite initial_transaction_loop_cons by done. simpl.
  by destruct (transaction_request m x).
Qed.

(** The reading of C5 as it is stated: a request with the CSeq number of
    [m], sent from the source address of [m] when [m] is a request and from
    the destination address of [m] when [m] is a response. *)
Definition stated_earlier_request (m r : Message) : bool :=
  msg_is_request r
  && (msg_get_cseq m =? msg_get_cseq r)
  && addressport_equals (packet_src_address (packet r))
       (if msg_is_request m then packet_src_address (packet m)
        else packet_dst_address (packet m)).

(** C5 as stated does not hold: for a call whose only message is a
    request that the SIP dissector did not flag as initial, no request
    precedes the message, and still the result is false. *)
Lemma msg_is_initial_transaction_own_flag :
  ¬ (∀ (call : Call) (m : Message), m ∈ msgs call →
       msg_is_initial_transaction call m = true ↔
       ¬ ∃ r, stored_before call r m ∧ stated_earlier_request m r = true).
Proof.
  intros H.
  destruct (H {| msgs := [invite_at 1 false] |} (invite_at 1 false)) as [_ Hback].
  { simpl. apply elem_of_cons. by left. }
  discriminate Hback.
  intros (r & (i & j & Hi & Hj & Hij) & _).
  destruct j as [|j]; [lia|]. done.
Qed.

Lemma msg_is_initial_transaction_first_request_witness :
  msg_is_initial_transaction
    {| msgs := [invite_at 1 true; invite_at 2 false] |} (invite_at 2 false) = true.
Proof.
  apply (msg_is_initial_transaction_first_request
           [invite_at 1 true] [] (invite_at 2 false)).
  - constructor; [intros _; reflexivity|constructor].
  - left. reflexivity.
Defined.

End StorageProps.

(* ===================================================================== *)
(** * Properties of the dissector tree                                    *)
(* ===================================================================== *)

Module ParserProps.
Import GLib Setting Parser.
Local Open Scope list_scope.
Local Open Scope nat_scope.

(** ** Dispatch to the children of the current node *)

Section Dispatch.

Variable Priv : Type.
Variable Packet : Type.
Variable dissect : DissectorPtr → option (DissectFn Priv Packet).

Local Abbreviation Result :=
  (PacketParser Priv * Packet * option GByteArray)%type.

(** One round over the children still to be tried, as the specification
    words it: the children are taken in the order of their registration;
    each is made the current node; a child whose dissector has no
    [dissect] function leaves the buffer as it is; a child that returns no
    buffer ends the round; otherwise the returned buffer goes to the next
    child; the buffer left after the last child is the result.  The fifth
    argument lists the children visited. *)
Inductive dispatch :
  list GNode → PacketParser Priv → Packet → GByteArray →
  list GNode → Result → Prop :=
  | dispatch_exhausted parser packet data :
      dispatch [] parser packet data [] (parser, packet, Some data)
  | dispatch_passed child rest parser packet data visited res :
      node_dissect dissect child = None →
      dispatch rest (set_current parser (Some child)) packet data visited res →
      dispatch (child :: rest) parser packet data (child :: visited) res
  | dispatch_consumed child rest fn parser packet data parser' packet' :
      node_dissect dissect child = Some fn →
      fn (set_current parser (Some child)) packet data = (parser', packet', None) →
      dispatch (child :: rest) parser packet data [child] (parser', packet', None)
  | dispatch_remainder child rest fn parser packet data parser' packet' data'
      visited res :
      node_dissect dissect child = Some fn →
      fn (set_current parser (Some child)) packet data = (parser', packet', Some data') →
      dispatch rest parser' packet' data' visited res →
      dispatch (child :: rest) parser packet data (child :: visited) res.

(** The children of the current node, none when there is no current
    node. *)
Definition current_children (current : option GNode) : list GNode :=
  match current with
  | Some node => node_children node
  | None => []
  end.

Lemma next_dissector_loop_dispatch current tried rest parser packet data :
  current_children current = tried ++ rest →
  ∃ visited,
    dispatch rest parser packet data visited
      (next_dissector_loop dissect current (length tried) (length rest)
         parser packet data) ∧
    visited `prefix_of` rest ∧
    (is_Some (next_dissector_loop dissect current (length tried) (length rest)
                parser packet data).2 → visited = rest).
Proof.
  revert tried parser packet data.
  induction rest as [|child rest IH]; intros tried parser packet data Hcs.
  - exists []. simpl. split; [constructor|]. split; done.
  - assert (Hnth : g_node_nth_child current (length tried) = Some child).
    { destruct current as [node|]; simpl in *; [|by destruct tried].
      rewrite Hcs. apply list_lookup_middle. done. }
    assert (Hcs' : current_children current = (tried ++ [child]) ++ rest).
    { by rewrite <- app_assoc. }
    assert (Hlen : length (tried ++ [child]) = S (length tried)).
    { rewrite length_app. simpl. lia. }
    cbn [next_dissector_loop length]. rewrite Hnth.
    destruct (node_dissect dissect child) as [fn|] eqn:Hfn.
    + destruct (fn (set_current parser (Some child)) packet data)
        as [[parser' packet'] [data'|]] eqn:Hres.
      * destruct (IH _ parser' packet' data' Hcs') as (visited & Hd & Hp & Hall).
        rewrite Hlen in Hd, Hall.
        exists (child :: visited). split; [by eapply dispatch_remainder|].
        split; [by apply prefix_cons|].
        intros Hs. by rewrite Hall.
      * exists [child]. split; [by eapply dispatch_consumed|].
        split; [by apply prefix_cons, prefix_nil|].
        simpl. by intros [? ?].
    + destruct (IH _ (set_current parser (Some child)) packet data Hcs')
        as (visited & Hd & Hp & Hall).
      rewrite Hlen in Hd, Hall.
      exists (child :: visited). split; [by apply dispatch_passed|].
      split; [by apply prefix_cons|].
      intros Hs. by rewrite Hall.
Qed.

(** A round has one outcome only. *)
Lemma dispatch_functional cs parser packet data visited res visited' res' :
  dispatch cs parser packet data visited res →
  dispatch cs parser packet data visited' res' →
  visited = visited' ∧ res = res'.
Proof.
  intros H. revert visited' res'.
  induction H; intros visited' res' H'; inversion H'; subst; try congruence;
    repeat match goal with
    | H1 : ?x = Some ?a, H2 : ?x = Some ?b |- _ =>
        assert (a = b) by congruence; subst b; clear H2
    end;
    try (split; congruence).
  - edestruct IHdispatch as [-> ->]; [eassumption|done].
  - assert (parser'0 = parser' ∧ packet'0 = packet' ∧ data'0 = data')
      as (-> & -> & ->) by (split; [|split]; congruence).
    edestruct IHdispatch as [-> ->]; [eassumption|done].
Qed.

(** C2.  For a buffer that is there, [packet_parser_next_dissector] goes
    through the children of the current node in the order of their
    registration, hands each the buffer that the child before it returned,
    and stops at the first child whose [dissect] returns no buffer or when
    no child is left.  It returns the buffer that was left over, or none
    when a child consumed everything; in the first case every child was
    visited. *)
Theorem packet_parser_next_dissector_dispatch
    (parser : PacketParser Priv) (packet : Packet) (data : GByteArray) :
  ∃ visited,
    dispatch (current_children (current parser)) parser packet data visited
      (packet_parser_next_dissector dissect parser packet (Some data)) ∧
    visited `prefix_of` current_children (current parser) ∧
    (is_Some (packet_parser_next_dissector dissect parser packet (Some data)).2 →
       visited = current_children (current parser)).
Proof.
  unfold packet_parser_next_dissector.
  replace (g_node_n_children (current parser))
    with (length (current_children (current parser)))
    by (by destruct (current parser)).
  apply (next_dissector_loop_dispatch (current parser) []). done.
Qed.

End Dispatch.

(** Two children below the current node: the first dissector strips two
    bytes and hands the rest on, the second consumes what it is given, a
    third child is never asked. *)
Definition strip_two : DissectFn unit unit :=
  λ parser packet data, (parser, packet, Some (drop 2 data)).
Definition consume_all : DissectFn unit unit :=
  λ parser packet data, (parser, packet, None).

Definition example_dissect (d : DissectorPtr) : option (DissectFn unit unit) :=
  match d with
  | 0 => Some strip_two
  | 1 => Some consume_all
  | _ => None
  end.

Definition example_node : GNode :=
  Node None [Node (Some 0) []; Node (Some 1) []; Node (Some 0) []].

Example next_dissector_stops_when_consumed :
  let parser := set_current (packet_parser_new tt) (Some example_node) in
  packet_parser_next_dissector example_dissect parser tt (Some [1; 2; 3]%Z)
  = (set_current parser (Some (Node (Some 1) [])), tt, None).
Proof. reflexivity. Qed.

Example next_dissector_returns_rest :
  let parser := set_current (packet_parser_new tt)
                  (Some (Node None [Node (Some 0) []; Node (Some 2) []])) in
  packet_parser_next_dissector example_dissect parser tt (Some [1; 2; 3]%Z)
  = (set_current parser (Some (Node (Some 2) [])), tt, Some [3%Z]).
Proof. reflexivity. Qed.

(** ** Building the tree *)

Section Building.

Variable Priv : Type.
Variable settings : SettingStorage.
Variable subdissectors : PacketProtoId → list PacketProtoId.
Variable dissector_init : PacketProtoId → Priv → Priv.

Local Abbreviation dissector_enabled := (dissector_enabled settings).
Local Abbreviation dissector_lookup_or_new :=
  (dissector_lookup_or_new settings dissector_init).
Local Abbreviation packet_parser_dissector_init :=
  (packet_parser_dissector_init settings subdissectors dissector_init).

(** The setting that switches the dissector of a protocol on; the link
    layer has none. *)
Definition enable_setting (id : PacketProtoId) : option SettingId :=
  match id with
  | PACKET_IP => Some SETTING_CAPTURE_PACKET_IP
  | PACKET_UDP => Some SETTING_CAPTURE_PACKET_UDP
  | PACKET_TCP => Some SETTING_CAPTURE_PACKET_TCP
  | PACKET_SIP => Some SETTING_CAPTURE_PACKET_SIP
  | PACKET_SDP => Some SETTING_CAPTURE_PACKET_SDP
  | PACKET_RTP => Some SETTING_CAPTURE_PACKET_RTP
  | PACKET_RTCP => Some SETTING_CAPTURE_PACKET_RTCP
  | PACKET_HEP => Some SETTING_CAPTURE_PACKET_HEP
  | PACKET_TLS => Some SETTING_CAPTURE_PACKET_TLS
  | PACKET_LINK | PACKET_PROTO_OTHER => None
  end.

Lemma dissector_enabled_setting id sett :
  enable_setting id = Some sett →
  dissector_enabled id = setting_enabled settings sett.
Proof. destruct id; simpl; congruence. Qed.

(** The dissector objects and the array [parser->dissectors] agree: the
    array holds for a protocol the one object made for it, and objects
    exist for switched-on protocols only. *)
Definition parser_ok (parser : PacketParser Priv) : Prop :=
  (∀ id ptr, dissectors parser !! id = Some ptr →
     objects parser !! ptr = Some id ∧ dissector_enabled id = true) ∧
  (∀ ptr id, objects parser !! ptr = Some id →
     dissectors parser !! id = Some ptr).

Definition extends (p p' : PacketParser Priv) : Prop :=
  objects p `prefix_of` objects p'.

(** Every node below the root carries a dissector object that exists. *)
Definition tree_ok (parser : PacketParser Priv) (tree : GNode) : Prop :=
  Forall (λ d, ∃ ptr : DissectorPtr, d = Some ptr ∧ ptr < length (objects parser))
         (tree_data tree).

Lemma extends_refl p : extends p p.
Proof. unfold extends. done. Qed.

Lemma extends_trans p1 p2 p3 : extends p1 p2 → extends p2 p3 → extends p1 p3.
Proof. unfold extends. by etrans. Qed.

Lemma tree_ok_extends p p' tree : extends p p' → tree_ok p tree → tree_ok p' tree.
Proof.
  unfold extends, tree_ok. intros Hp Ht. eapply Forall_impl; [exact Ht|].
  intros d (ptr & -> & Hlt). exists ptr. split; [done|].
  apply prefix_length in Hp. lia.
Qed.

Lemma tree_data_append d cs node :
  tree_data (Node d (cs ++ [node])) =
  tree_data (Node d cs) ++ node_data node :: tree_data node.
Proof. simpl. rewrite flat_map_app. simpl. by rewrite app_nil_r. Qed.

Lemma parser_ok_new priv0 : parser_ok (packet_parser_new priv0).
Proof. split; intros ? ? H; simpl in H; by rewrite ?lookup_empty in H. Qed.

Lemma dissector_lookup_or_new_ok parser id parser1 ptr :
  parser_ok parser →
  dissector_lookup_or_new parser id = Some (parser1, ptr) →
  parser_ok parser1 ∧ extends parser parser1 ∧
  ptr < length (objects parser1).
Proof.
  intros [Hd Ho]. unfold Parser.dissector_lookup_or_new.
  destruct (dissectors parser !! id) as [d|] eqn:Hid.
  - intros [= <- <-]. split; [done|]. split; [apply extends_refl|].
    apply Hd in Hid as [Hid _]. by apply lookup_lt_Some in Hid.
  - destruct (dissector_enabled id) eqn:Hen; [|done].
    intros [= <- <-]. split; [split|split]; simpl.
    + intros id' ptr'. rewrite lookup_insert.
      destruct (decide (id = id')) as [<-|Hne]; simpl.
      * intros [= <-]. split; [|done]. by rewrite list_lookup_middle.
      * intros H. apply Hd in H as [H ?]. split; [|done].
        by apply lookup_app_l_Some.
    + intros ptr' id'. rewrite lookup_app_Some. intros [H|[Hge H]].
      * pose proof (Ho _ _ H) as Hdi. rewrite lookup_insert_ne; [done|].
        intros <-. congruence.
      * apply list_lookup_singleton_Some in H as [Hz <-].
        assert (ptr' = length (objects parser)) as -> by lia.
        by rewrite lookup_insert_eq.
    + by apply prefix_app_r.
    + rewrite length_app. simpl. lia.
Qed.

Lemma dissector_lookup_or_new_disabled parser id :
  dissectors parser !! id = None →
  dissector_enabled id = false →
  dissector_lookup_or_new parser id = None.
Proof. intros H1 H2. unfold Parser.dissector_lookup_or_new. by rewrite H1, H2. Qed.

(** What one call of [packet_parser_dissector_init] keeps. *)
Definition init_keeps
    (init : PacketParser Priv → option GNode → PacketProtoId →
            option (PacketParser Priv * option GNode * option DissectorPtr))
  : Prop :=
  ∀ parser parent id parser' parent' r,
    parser_ok parser →
    init parser parent id = Some (parser', parent', r) →
    parser_ok parser' ∧ extends parser parser' ∧
    (parent = None → parent' = None) ∧
    (∀ tree, parent = Some tree → tree_ok parser tree →
       ∃ tree', parent' = Some tree' ∧ node_data tree' = node_data tree ∧
                tree_ok parser' tree').

Lemma init_subdissectors_keeps init ids parser node parser' node' :
  init_keeps init →
  parser_ok parser → tree_ok parser node →
  init_subdissectors init ids parser node = Some (parser', node') →
  parser_ok parser' ∧ extends parser parser' ∧
  node_data node' = node_data node ∧ tree_ok parser' node'.
Proof.
  intros Hinit. revert parser node.
  induction ids as [|id ids IH]; intros parser node Hok Htree; simpl.
  - intros [= <- <-]. split; [done|]. split; [apply extends_refl|done].
  - destruct (init parser (Some node) id) as [[[p1 n1] r]|] eqn:E; [|done].
    destruct (Hinit _ _ _ _ _ _ Hok E) as (Hok1 & Hext1 & _ & Htree1).
    destruct (Htree1 node eq_refl Htree) as (t1 & -> & Hd1 & Ht1). simpl.
    intros H. destruct (IH _ _ Hok1 Ht1 H) as (Hok' & Hext' & Hd' & Ht').
    split; [done|]. split; [by eapply extends_trans|].
    split; [congruence|done].
Qed.

Lemma packet_parser_dissector_init_keeps fuel :
  init_keeps (packet_parser_dissector_init fuel).
Proof.
  induction fuel as [|fuel IH]; intros parser parent id parser' parent' r Hok;
    simpl; [done|].
  destruct (dissector_lookup_or_new parser id) as [[parser1 ptr]|] eqn:E.
  - destruct (dissector_lookup_or_new_ok _ _ _ _ Hok E) as (Hok1 & Hext1 & Hptr).
    destruct (init_subdissectors _ _ _ _) as [[parser2 node']|] eqn:E2; [|done].
    intros [= <- <- <-].
    assert (Hnode : tree_ok parser1 (g_node_new (Some ptr))) by apply Forall_nil_2.
    destruct (init_subdissectors_keeps _ _ _ _ _ _ IH Hok1 Hnode E2)
      as (Hok2 & Hext2 & Hdata2 & Hnode2).
    split; [done|]. split; [by eapply extends_trans|].
    split; [by intros ->|].
    intros [d cs] -> Htree. eexists. split; [reflexivity|]. split; [done|].
    unfold tree_ok. rewrite tree_data_append.
    apply Forall_app. split.
    + eapply tree_ok_extends; [|exact Htree]. by eapply extends_trans.
    + apply Forall_cons. split; [|exact Hnode2].
      exists ptr. split; [done|].
      apply prefix_length in Hext2. lia.
  - intros [= <- <- <-]. split; [done|]. split; [apply extends_refl|].
    split; [done|]. intros tree -> Htree. eauto.
Qed.

Lemma init_subdissectors_total
    (init : PacketParser Priv → option GNode → PacketProtoId →
            option (PacketParser Priv * option GNode * option DissectorPtr))
    ids parser node :
  (∀ p parent id, id ∈ ids → is_Some (init p parent id)) →
  is_Some (init_subdissectors init ids parser node).
Proof.
  revert parser node. induction ids as [|id ids IH]; intros parser node Hin;
    simpl; [done|].
  destruct (Hin parser (Some node) id) as [[[p1 n1] r] ->];
    [apply elem_of_cons; by left|].
  apply IH. intros p parent id' Hid'. apply Hin, elem_of_cons. by right.
Qed.

Lemma parser_ok_NoDup parser : parser_ok parser → NoDup (objects parser).
Proof.
  intros [_ Ho]. apply NoDup_alt. intros i j id Hi Hj.
  apply Ho in Hi, Hj. congruence.
Qed.

(** A dissector that [parser->dissectors] holds stays there. *)
Lemma dissectors_extends (p p' : PacketParser Priv) id ptr :
  parser_ok p → parser_ok p' → extends p p' →
  dissectors p !! id = Some ptr → dissectors p' !! id = Some ptr.
Proof.
  intros [Hd _] [_ Ho'] Hext Hid. apply Ho'.
  apply Hd in Hid as [Hid _]. by eapply prefix_lookup_Some.
Qed.

Lemma parser_ok_disabled (p : PacketParser Priv) id :
  parser_ok p → dissector_enabled id = false → dissectors p !! id = None.
Proof.
  intros [Hd _] Hen. destruct (dissectors p !! id) as [ptr|] eqn:E; [|done].
  apply Hd in E as [_ E]. congruence.
Qed.

(** The private data after the [init] functions of the dissectors [new]
    have run, first first. *)
Definition run_inits (new : list PacketProtoId) (priv0 : Priv) : Priv :=
  foldl (λ priv id, dissector_init id priv) priv0 new.

Lemma run_inits_app l1 l2 priv0 :
  run_inits (l1 ++ l2) priv0 = run_inits l2 (run_inits l1 priv0).
Proof. apply foldl_app. Qed.

(** What [packet_parser_dissector_init] never touches, and how the
    objects and the private data grow together. *)
Definition grows (p p' : PacketParser Priv) : Prop :=
  dissector_tree p' = dissector_tree p ∧
  current p' = current p ∧
  ∃ new, objects p' = objects p ++ new ∧
         dissectors_priv p' = run_inits new (dissectors_priv p).

Lemma grows_refl p : grows p p.
Proof.
  split; [done|]. split; [done|]. exists []. by rewrite app_nil_r.
Qed.

Lemma grows_trans p1 p2 p3 : grows p1 p2 → grows p2 p3 → grows p1 p3.
Proof.
  intros (Ht1 & Hc1 & n1 & Ho1 & Hp1) (Ht2 & Hc2 & n2 & Ho2 & Hp2).
  split; [congruence|]. split; [congruence|].
  exists (n1 ++ n2). rewrite Ho2, Ho1, Hp2, Hp1, run_inits_app.
  by rewrite <- app_assoc.
Qed.

Lemma dissector_lookup_or_new_grows parser id parser1 ptr :
  dissector_lookup_or_new parser id = Some (parser1, ptr) →
  grows parser parser1 ∧ dissectors parser1 !! id = Some ptr.
Proof.
  unfold Parser.dissector_lookup_or_new.
  destruct (dissectors parser !! id) as [d|] eqn:Hid.
  - intros [= <- <-]. split; [apply grows_refl|done].
  - destruct (dissector_enabled id); [|done].
    intros [= <- <-]. cbn. split; [|by rewrite lookup_insert_eq].
    split; [done|]. split; [done|]. by exists [id].
Qed.

Lemma dissector_lookup_or_new_None parser id :
  parser_ok parser →
  dissector_lookup_or_new parser id = None → dissector_enabled id = false.
Proof.
  intros _. unfold Parser.dissector_lookup_or_new.
  destruct (dissectors parser !! id); [done|].
  by destruct (dissector_enabled id).
Qed.

Lemma dissector_lookup_or_new_Some parser id parser1 ptr :
  parser_ok parser →
  dissector_lookup_or_new parser id = Some (parser1, ptr) →
  dissector_enabled id = true.
Proof.
  intros [Hd _]. unfold Parser.dissector_lookup_or_new.
  destruct (dissectors parser !! id) as [d|] eqn:Hid.
  - intros _. by apply Hd in Hid as [_ ?].
  - by destruct (dissector_enabled id).
Qed.

(** The children that the loop over the subdissectors adds to a node:
    one for each subdissector that has a dissector, in the order of the
    subdissector list. *)
Definition subdissector_data (p : PacketParser Priv) (ids : list PacketProtoId)
  : list (option DissectorPtr) :=
  omap (λ sub, Some <$> dissectors p !! sub) ids.

Lemma subdissector_data_cons p sub ids :
  subdissector_data p (sub :: ids) =
  match dissectors p !! sub with
  | Some ptr => Some ptr :: subdissector_data p ids
  | None => subdissector_data p ids
  end.
Proof. unfold subdissector_data. cbn. by destruct (dissectors p !! sub). Qed.

(** What one call of [packet_parser_dissector_init] does. *)
Definition init_does
    (init : PacketParser Priv → option GNode → PacketProtoId →
            option (PacketParser Priv * option GNode * option DissectorPtr))
  : Prop :=
  ∀ parser parent id parser' parent' r,
    parser_ok parser →
    init parser parent id = Some (parser', parent', r) →
    grows parser parser' ∧
    match r with
    | None =>
        dissector_enabled id = false ∧ parser' = parser ∧ parent' = parent
    | Some ptr =>
        dissector_enabled id = true ∧
        dissectors parser' !! id = Some ptr ∧
        Forall (λ sub, dissector_enabled sub = true →
                       is_Some (dissectors parser' !! sub)) (subdissectors id) ∧
        ∃ node,
          parent' = g_node_append parent node ∧
          node_data node = Some ptr ∧
          node_data <$> node_children node
            = subdissector_data parser' (subdissectors id)
    end.

Lemma init_subdissectors_does init ids parser node parser' node' :
  init_keeps init → init_does init →
  parser_ok parser → tree_ok parser node →
  init_subdissectors init ids parser node = Some (parser', node') →
  grows parser parser' ∧
  Forall (λ sub, dissector_enabled sub = true →
                 is_Some (dissectors parser' !! sub)) ids ∧
  ∃ new,
    node_children node' = node_children node ++ new ∧
    node_data <$> new = subdissector_data parser' ids.
Proof.
  intros Hkeeps Hdoes. revert parser node.
  induction ids as [|sub ids IH]; intros parser node Hok Htree;
    cbn [init_subdissectors].
  - intros [= <- <-]. split; [apply grows_refl|]. split; [done|].
    exists []. by rewrite app_nil_r.
  - destruct (init parser (Some node) sub) as [[[p1 n1] r]|] eqn:E; [|done].
    destruct (Hkeeps _ _ _ _ _ _ Hok E) as (Hok1 & Hext1 & _ & Htree1).
    destruct (Htree1 node eq_refl Htree) as (t1 & -> & Hd1 & Ht1).
    destruct (Hdoes _ _ _ _ _ _ Hok E) as [Hg1 Hr].
    cbn [default from_option]. intros H.
    destruct (init_subdissectors_keeps _ _ _ _ _ _ Hkeeps Hok1 Ht1 H)
      as (Hok' & Hext' & _ & _).
    destruct (IH _ _ Hok1 Ht1 H) as (Hg' & Hall & new & Hnew & Hdata).
    split; [by eapply grows_trans|].
    rewrite subdissector_data_cons.
    destruct r as [ptr|].
    + destruct Hr as (_ & Hptr & _ & child & Happ & Hchild & _).
      pose proof (dissectors_extends _ _ _ _ Hok1 Hok' Hext' Hptr) as Hptr'.
      split; [apply Forall_cons; split; [by rewrite Hptr'|done]|].
      rewrite Hptr'.
      destruct node as [d cs]. cbn in Happ. injection Happ as ->.
      cbn in Hnew. exists (child :: new). split.
      * cbn. by rewrite Hnew, <- app_assoc.
      * cbn. by rewrite Hchild, Hdata.
    + destruct Hr as (Hen & -> & [= ->]).
      split; [apply Forall_cons; split; [congruence|done]|].
      rewrite (parser_ok_disabled _ _ Hok' Hen). by exists new.
Qed.

Lemma packet_parser_dissector_init_does fuel :
  init_does (packet_parser_dissector_init fuel).
Proof.
  induction fuel as [|fuel IH]; intros parser parent id parser' parent' r Hok;
    cbn [Parser.packet_parser_dissector_init]; [done|].
  destruct (dissector_lookup_or_new parser id) as [[parser1 ptr]|] eqn:E.
  - destruct (dissector_lookup_or_new_ok _ _ _ _ Hok E) as (Hok1 & Hext1 & Hptr).
    destruct (dissector_lookup_or_new_grows _ _ _ _ E) as [Hg1 Hid1].
    destruct (init_subdissectors _ _ _ _) as [[parser2 node']|] eqn:E2; [|done].
    intros [= <- <- <-].
    assert (Hnode : tree_ok parser1 (g_node_new (Some ptr))) by apply Forall_nil_2.
    destruct (init_subdissectors_keeps _ _ _ _ _ _
                (packet_parser_dissector_init_keeps fuel) Hok1 Hnode E2)
      as (Hok2 & Hext2 & Hdata2 & _).
    destruct (init_subdissectors_does _ _ _ _ _ _
                (packet_parser_dissector_init_keeps fuel) IH Hok1 Hnode E2)
      as (Hg2 & Hall2 & new & Hnew & Hnewdata).
    split; [by eapply grows_trans|].
    split; [exact (dissector_lookup_or_new_Some _ _ _ _ Hok E)|].
    split; [exact (dissectors_extends _ _ _ _ Hok1 Hok2 Hext2 Hid1)|].
    split; [exact Hall2|].
    exists node'. split; [done|]. split; [done|].
    by rewrite Hnew.
  - intros [= <- <- <-]. split; [apply grows_refl|].
    split; [|done]. exact (dissector_lookup_or_new_None _ _ Hok E).
Qed.


(** ** What is built *)

(** [x] is reached from [id]: it is [id] or stands below it in the
    subdissector lists, and the protocols on the way from [id] to [x], both
    included, are switched on. *)
Inductive reached : PacketProtoId → PacketProtoId → Prop :=
  | reached_here id :
      dissector_enabled id = true → reached id id
  | reached_below id sub x :
      dissector_enabled id = true → sub ∈ subdissectors id →
      reached sub x → reached id x.

Lemma reached_enabled id x : reached id x → dissector_enabled id = true.
Proof. by destruct 1. Qed.

(** A call hands back a tree that holds what the tree it was given held. *)
Lemma init_does_tree init parser tree id parser' parent' r :
  init_keeps init → init_does init →
  parser_ok parser → tree_ok parser tree →
  init parser (Some tree) id = Some (parser', parent', r) →
  ∃ tree',
    parent' = Some tree' ∧
    (∀ d, d ∈ tree_data tree → d ∈ tree_data tree') ∧
    parser_ok parser' ∧ extends parser parser' ∧ tree_ok parser' tree'.
Proof.
  intros Hkeeps Hdoes Hok Htree E.
  destruct (Hkeeps _ _ _ _ _ _ Hok E) as (Hok' & Hext & _ & Ht).
  destruct (Ht tree eq_refl Htree) as (tree' & -> & _ & Htree').
  exists tree'. split; [done|]. split; [|done].
  destruct (Hdoes _ _ _ _ _ _ Hok E) as [_ Hr]. destruct r as [ptr|].
  - destruct Hr as (_ & _ & _ & node & Happ & _). destruct tree as [d cs].
    cbn in Happ. injection Happ as ->. intros x Hx.
    rewrite tree_data_append. apply elem_of_app. by left.
  - by destruct Hr as (_ & _ & [= ->]).
Qed.

(** Every protocol reached from the protocol of a call has, after the
    call, a dissector and a node that carries it. *)
Definition init_reaches
    (init : PacketParser Priv → option GNode → PacketProtoId →
            option (PacketParser Priv * option GNode * option DissectorPtr))
  : Prop :=
  ∀ parser tree id parser' parent' r x,
    parser_ok parser → tree_ok parser tree →
    init parser (Some tree) id = Some (parser', parent', r) →
    reached id x →
    ∃ ptr tree',
      parent' = Some tree' ∧ dissectors parser' !! x = Some ptr ∧
      Some ptr ∈ tree_data tree'.

Lemma init_subdissectors_reaches init ids parser node parser' node' :
  init_keeps init → init_does init → init_reaches init →
  parser_ok parser → tree_ok parser node →
  init_subdissectors init ids parser node = Some (parser', node') →
  (∀ d, d ∈ tree_data node → d ∈ tree_data node') ∧
  (∀ sub x, sub ∈ ids → reached sub x →
     ∃ ptr, dissectors parser' !! x = Some ptr ∧ Some ptr ∈ tree_data node').
Proof.
  intros Hkeeps Hdoes Hreaches. revert parser node.
  induction ids as [|sub ids IH]; intros parser node Hok Htree;
    cbn [init_subdissectors].
  - intros [= <- <-]. split; [done|]. by intros sub x ?%elem_of_nil.
  - destruct (init parser (Some node) sub) as [[[p1 n1] r]|] eqn:E; [|done].
    destruct (init_does_tree _ _ _ _ _ _ _ Hkeeps Hdoes Hok Htree E)
      as (t1 & -> & Hsub1 & Hok1 & Hext1 & Ht1).
    cbn [default from_option]. intros H.
    destruct (init_subdissectors_keeps _ _ _ _ _ _ Hkeeps Hok1 Ht1 H)
      as (Hok' & Hext' & _ & _).
    destruct (IH _ _ Hok1 Ht1 H) as (Hsub' & Hrest).
    split; [by auto|].
    intros sub' x [->|Hin]%elem_of_cons Hx; [|by eapply Hrest].
    destruct (Hreaches _ _ _ _ _ _ x Hok Htree E Hx) as (ptr & t & [= <-] & Hptr & Hin).
    exists ptr. split; [|by auto].
    exact (dissectors_extends _ _ _ _ Hok1 Hok' Hext' Hptr).
Qed.

Lemma packet_parser_dissector_init_reaches fuel :
  init_reaches (packet_parser_dissector_init fuel).
Proof.
  induction fuel as [|fuel IH];
    intros parser tree id parser' parent' r x Hok Htree;
    cbn [Parser.packet_parser_dissector_init]; [done|].
  destruct (dissector_lookup_or_new parser id) as [[parser1 ptr]|] eqn:E.
  - destruct (dissector_lookup_or_new_ok _ _ _ _ Hok E) as (Hok1 & Hext1 & Hptr).
    destruct (dissector_lookup_or_new_grows _ _ _ _ E) as [_ Hid1].
    destruct (init_subdissectors _ _ _ _) as [[parser2 node']|] eqn:E2; [|done].
    intros [= <- <- <-] Hx.
    assert (Hnode : tree_ok parser1 (g_node_new (Some ptr))) by apply Forall_nil_2.
    destruct (init_subdissectors_keeps _ _ _ _ _ _
                (packet_parser_dissector_init_keeps fuel) Hok1 Hnode E2)
      as (Hok2 & Hext2 & Hdata2 & _).
    destruct (init_subdissectors_reaches _ _ _ _ _ _
                (packet_parser_dissector_init_keeps fuel)
                (packet_parser_dissector_init_does fuel) IH Hok1 Hnode E2)
      as (_ & Hsubs).
    destruct tree as [d cs].
    assert (Hin : ∀ p, p = node_data node' ∨ p ∈ tree_data node' →
              p ∈ tree_data (Node d (cs ++ [node']))).
    { intros p Hp. rewrite tree_data_append. apply elem_of_app. right.
      apply elem_of_cons. destruct Hp; auto. }
    inversion Hx as [? Hen|? sub ? Hen Hsub Hbelow]; subst.
    + exists ptr, (Node d (cs ++ [node'])). split; [done|]. split.
      * exact (dissectors_extends _ _ _ _ Hok1 Hok2 Hext2 Hid1).
      * apply Hin. left. by rewrite Hdata2.
    + destruct (Hsubs sub x Hsub Hbelow) as (px & Hpx & Hnodes).
      exists px, (Node d (cs ++ [node'])). split; [done|]. split; [done|].
      apply Hin. by right.
  - intros _ Hx. apply reached_enabled in Hx.
    pose proof (dissector_lookup_or_new_None _ _ Hok E). congruence.
Qed.

(** A dissector object is made for a reached protocol only. *)
Definition init_only_reached
    (init : PacketParser Priv → option GNode → PacketProtoId →
            option (PacketParser Priv * option GNode * option DissectorPtr))
  : Prop :=
  ∀ parser tree id parser' parent' r x,
    parser_ok parser → tree_ok parser tree →
    init parser (Some tree) id = Some (parser', parent', r) →
    x ∈ objects parser' → x ∈ objects parser ∨ reached id x.

Lemma init_subdissectors_only_reached init ids parser node parser' node' x :
  init_keeps init → init_only_reached init →
  parser_ok parser → tree_ok parser node →
  init_subdissectors init ids parser node = Some (parser', node') →
  x ∈ objects parser' →
  x ∈ objects parser ∨ ∃ sub, sub ∈ ids ∧ reached sub x.
Proof.
  intros Hkeeps Honly. revert parser node.
  induction ids as [|sub ids IH]; intros parser node Hok Htree;
    cbn [init_subdissectors].
  - intros [= <- <-]. by left.
  - destruct (init parser (Some node) sub) as [[[p1 n1] r]|] eqn:E; [|done].
    destruct (Hkeeps _ _ _ _ _ _ Hok E) as (Hok1 & Hext1 & _ & Htree1).
    destruct (Htree1 node eq_refl Htree) as (t1 & -> & _ & Ht1).
    cbn [default from_option]. intros H Hx.
    destruct (IH _ _ Hok1 Ht1 H Hx) as [Hx1|(sub' & Hin & Hr)].
    + destruct (Honly _ _ _ _ _ _ x Hok Htree E Hx1) as [?|Hr]; [by left|].
      right. exists sub. split; [apply elem_of_cons; by left|done].
    + right. exists sub'. split; [apply elem_of_cons; by right|done].
Qed.

Lemma packet_parser_dissector_init_only_reached fuel :
  init_only_reached (packet_parser_dissector_init fuel).
Proof.
  induction fuel as [|fuel IH];
    intros parser tree id parser' parent' r x Hok Htree;
    cbn [Parser.packet_parser_dissector_init]; [done|].
  destruct (dissector_lookup_or_new parser id) as [[parser1 ptr]|] eqn:E.
  - destruct (dissector_lookup_or_new_ok _ _ _ _ Hok E) as (Hok1 & Hext1 & Hptr).
    pose proof (dissector_lookup_or_new_Some _ _ _ _ Hok E) as Hen.
    assert (H1 : ∀ y, y ∈ objects parser1 → y ∈ objects parser ∨ y = id).
    { revert E. unfold Parser.dissector_lookup_or_new.
      destruct (dissectors parser !! id); [intros [= <- <-]; by left|].
      destruct (dissector_enabled id); [|done].
      intros [= <- <-] y. cbn. rewrite elem_of_app, list_elem_of_singleton. tauto. }
    destruct (init_subdissectors _ _ _ _) as [[parser2 node']|] eqn:E2; [|done].
    intros [= <- <- <-] Hx.
    assert (Hnode : tree_ok parser1 (g_node_new (Some ptr))) by apply Forall_nil_2.
    destruct (init_subdissectors_only_reached _ _ _ _ _ _ x
                (packet_parser_dissector_init_keeps fuel) IH Hok1 Hnode E2 Hx)
      as [Hx1|(sub & Hsub & Hr)].
    + destruct (H1 x Hx1) as [?| ->]; [by left|]. right. by apply reached_here.
    + right. by eapply reached_below.
  - intros [= <- <- <-] Hx. by left.
Qed.

(** The subdissector lists are free of cycles: every protocol ranks above
    the protocols it hands its payload to. *)
Variable rank : PacketProtoId → nat.
Hypothesis rank_decreases : ∀ id sub, sub ∈ subdissectors id → rank sub < rank id.

Lemma packet_parser_dissector_init_total fuel parser parent id :
  rank id < fuel →
  is_Some (packet_parser_dissector_init fuel parser parent id).
Proof.
  revert parser parent id.
  induction fuel as [|fuel IH]; intros parser parent id Hlt; [lia|].
  simpl. destruct (dissector_lookup_or_new parser id) as [[parser1 ptr]|]; [|done].
  destruct (init_subdissectors_total (packet_parser_dissector_init fuel)
              (subdissectors id) parser1 (g_node_new (Some ptr)))
    as [[parser2 node'] ->]; [|done].
  intros p parent' sub Hsub. apply IH.
  apply rank_decreases in Hsub. lia.
Qed.


End Building.

(** The dissectors of sngrep as the specification lays them out: link,
    IP, then UDP and TCP, then SIP, RTP and RTCP, with SDP below SIP, TLS
    between TCP and SIP, and SIP below HEP. *)
Definition sngrep_subdissectors (id : PacketProtoId) : list PacketProtoId :=
  match id with
  | PACKET_LINK => [PACKET_IP]
  | PACKET_IP => [PACKET_UDP; PACKET_TCP]
  | PACKET_UDP => [PACKET_SIP; PACKET_RTP; PACKET_RTCP]
  | PACKET_TCP => [PACKET_SIP; PACKET_TLS]
  | PACKET_TLS => [PACKET_SIP]
  | PACKET_HEP => [PACKET_SIP]
  | PACKET_SIP => [PACKET_SDP]
  | _ => []
  end.

Definition sngrep_rank (id : PacketProtoId) : nat :=
  match id with
  | PACKET_LINK => 5
  | PACKET_IP => 4
  | PACKET_TCP => 3
  | PACKET_UDP | PACKET_TLS | PACKET_HEP => 2
  | PACKET_SIP => 1
  | _ => 0
  end.

Lemma sngrep_rank_decreases id sub :
  sub ∈ sngrep_subdissectors id → sngrep_rank sub < sngrep_rank id.
Proof.
  intros H. destruct id; simpl in H;
    repeat (apply elem_of_cons in H as [->|H]; [simpl; lia|]);
    by apply elem_of_nil in H.
Defined.

(** The settings as [settings_init] leaves them without configuration
    files: TLS and HEP are switched off. *)
Definition default_storage : SettingStorage :=
  settings (SettingProps.state_of
    (settings_init 1024 "index" (λ _, [])
       {| use_defaults := true; file := None |} SettingProps.env_plain)).


(** The tree that this builds: TLS has no node, and the one SIP object
    (number 3) hangs below both UDP and TCP, with the one SDP object
    (number 4) below it. *)
Example sngrep_default_tree :
  (λ '(parser, tree, r), (objects parser, tree, r)) <$>
    packet_parser_dissector_init default_storage sngrep_subdissectors
      (λ _ priv, priv) 6 (packet_parser_new tt) (Some (g_node_new None))
      PACKET_LINK
  = Some ([PACKET_LINK; PACKET_IP; PACKET_UDP; PACKET_SIP; PACKET_SDP;
           PACKET_RTP; PACKET_RTCP; PACKET_TCP],
          Some (Node None
            [Node (Some 0)
               [Node (Some 1)
                  [Node (Some 2)
                     [Node (Some 3) [Node (Some 4) []];
                      Node (Some 5) []; Node (Some 6) []];
                   Node (Some 7)
                     [Node (Some 3) [Node (Some 4) []]]]]]),
          Some 0).
Proof. vm_compute. reflexivity. Qed.

End ParserProps.

(* ===================================================================== *)
(** * Properties of the HEP input and output                              *)
(* ===================================================================== *)

Module HepProps.
Import GLib Setting Hep.
Import DecimalString.
Local Open Scope string_scope.
Local Open Scope list_scope.
Local Open Scope Z_scope.

(** ** Unsupported versions *)

(** The error of parsing the URL given to a constructor, if one is given
    and does not parse. *)
Definition url_error (url_port_of_int : Z → Z) (url : option string)
  : option GError :=
  match url with
  | Some url_str =>
      match capture_hep_parse_url url_port_of_int url_str with
      | inr e => Some e
      | inl _ => None
      end
  | None => None
  end.

Lemma url_error_code url_port_of_int url e :
  url_error url_port_of_int url = Some e →
  error_code e = CAPTURE_HEP_ERROR_URL_PARSE.
Proof.
  destruct url as [u|]; simpl; [|done]. unfold capture_hep_parse_url.
  repeat case_match; intros ?; simplify_eq; done.
Qed.

(** C6, as amended.  A HEP capture input or output whose configured
    version is neither 2 nor 3 is not created: the constructor returns
    NULL with an error and no socket has been created, bound or connected.
    The error is the version error, holding the version, when no URL is
    given or the URL given parses; a URL that does not parse is reported
    first, with its own error. *)
Theorem capture_hep_unsupported_version
    (url_port_of_int : Z → Z)
    (g_atoi : string → Z) (settings : SettingStorage) (net : Network)
    (url : option string) :
  (let v := setting_get_intvalue g_atoi settings SETTING_HEP_LISTEN_VER in
   v ≠ 2 → v ≠ 3 →
   ∃ e, capture_input_hep url_port_of_int g_atoi settings net url = (inr e, []) ∧
        match url_error url_port_of_int url with
        | Some e' => e = e' ∧ error_code e = CAPTURE_HEP_ERROR_URL_PARSE
        | None => e = UnsupportedVersion v
        end) ∧
  (let v := setting_get_intvalue g_atoi settings SETTING_HEP_SEND_VER in
   v ≠ 2 → v ≠ 3 →
   ∃ e, capture_output_hep url_port_of_int g_atoi settings net url = (inr e, []) ∧
        match url_error url_port_of_int url with
        | Some e' => e = e' ∧ error_code e = CAPTURE_HEP_ERROR_URL_PARSE
        | None => e = UnsupportedVersion v
        end).
Proof.
  split; intros v H2 H3;
    unfold capture_input_hep, capture_output_hep; fold v;
    pose proof (url_error_code url_port_of_int url) as Hcode;
    (assert (Hv : negb (v =? 2) && negb (v =? 3) = true)
       by (apply andb_true_iff; split; apply negb_true_iff, Z.eqb_neq; done));
    destruct url as [u|]; simpl in *.
  1, 3: destruct (capture_hep_parse_url url_port_of_int u) as [hep_url|e];
    [rewrite Hv; eauto | eauto].
  all: rewrite Hv; eauto.
Qed.

(** A storage in which both HEP versions are set to [v]. *)
Definition storage_hep_version (v : string) : SettingStorage :=
  {| values := {[ SETTING_HEP_LISTEN_VER := setting_string_new 1024 "eep.listen.version" v;
                  SETTING_HEP_SEND_VER := setting_number_new 1024 "eep.send.version" v ]};
     alias := []; externips := [] |}.

Definition network_up : Network :=
  {| address_valid := λ _ _, true;
     socket_new_error := None;
     socket_bind_error := None;
     socket_connect_error := None |}.

(** C6 as stated does not hold: with version 5 configured and a URL that
    names another transport than UDP, the constructor fails with the
    error of the URL, not with the version error. *)
Lemma capture_input_hep_url_error_first :
  ¬ (∀ (url_port_of_int : Z → Z) (g_atoi : string → Z)
       (settings : SettingStorage) (net : Network) (url : option string),
       let v := setting_get_intvalue g_atoi settings SETTING_HEP_LISTEN_VER in
       v ≠ 2 → v ≠ 3 →
       capture_input_hep url_port_of_int g_atoi settings net url
       = (inr (UnsupportedVersion v), [])).
Proof.
  intros H.
  specialize (H (λ n, n) atoi (storage_hep_version "5") network_up
                (Some "tcp:10.0.0.1:9060")).
  vm_compute in H. specialize (H ltac:(discriminate) ltac:(discriminate)).
  discriminate H.
Qed.

Lemma capture_hep_unsupported_version_witness :
  capture_input_hep (λ n, n) atoi (storage_hep_version "5") network_up None
    = (inr (UnsupportedVersion 5), []) ∧
  capture_output_hep (λ n, n) atoi (storage_hep_version "5") network_up
    (Some "udp:10.0.0.1:9060") = (inr (UnsupportedVersion 5), []).
Proof.
  destruct (capture_hep_unsupported_version (λ n, n) atoi
              (storage_hep_version "5") network_up None) as [Hin _].
  destruct (capture_hep_unsupported_version (λ n, n) atoi
              (storage_hep_version "5") network_up (Some "udp:10.0.0.1:9060"))
    as [_ Hout].
  destruct Hin as (e & He & ->); [discriminate|discriminate|].
  destruct Hout as (e' & He' & ->); [discriminate|discriminate|].
  split; [exact He|exact He'].
Defined.

(** ** Writing and reading back *)

Lemma be_decode_byte b : be_decode [b] = b.
Proof. unfold be_decode. simpl. lia. Qed.

Lemma be_decode_be16 n : 0 ≤ n < 65536 → be_decode (be16 n) = n.
Proof.
  intros Hn. unfold be_decode, be16. simpl.
  Z.div_mod_to_equations. lia.
Qed.

Lemma be_decode_be32 n : 0 ≤ n < 4294967296 → be_decode (be32 n) = n.
Proof.
  intros Hn. unfold be_decode, be32. simpl.
  Z.div_mod_to_equations. lia.
Qed.

Lemma string_of_bytes_of_string s : string_of_bytes (bytes_of_string s) = s.
Proof.
  unfold string_of_bytes, bytes_of_string, char_code.
  induction s as [|c s IH]; simpl; [done|].
  rewrite N2Z.id, ascii_N_embedding. by f_equal.
Qed.

Lemma len_bytes_of_string s : len (bytes_of_string s) = strlen s.
Proof.
  unfold len, strlen, bytes_of_string. rewrite length_map. f_equal.
  induction s as [|c s IH]; simpl; congruence.
Qed.

Lemma len_app (a b : GByteArray) : len (a ++ b) = len a + len b.
Proof. unfold len. rewrite length_app. lia. Qed.

Lemma len_nonneg (a : GByteArray) : 0 ≤ len a.
Proof. unfold len. lia. Qed.

(** One chunk is read as it was written. *)
Lemma hep_parse_chunk fuel type_id chunk_len data rest acc :
  0 ≤ type_id < 65536 →
  chunk_len = sizeof_chunk + len data →
  chunk_len < 65536 →
  hep_parse_chunks (S fuel) (hep_chunk type_id chunk_len ++ data ++ rest) acc =
  hep_parse_chunks fuel rest (hep_store_chunk 0 type_id data acc).
Proof.
  intros Hty -> Hlen. pose proof (len_nonneg data) as Hd.
  unfold sizeof_chunk in *.
  unfold hep_chunk. cbn [be16 app hep_parse_chunks].
  fold (be16 (6 + len data)). fold (be16 type_id). fold (be16 0).
  rewrite !be_decode_be16 by lia.
  unfold sizeof_chunk.
  destruct (Z.ltb_spec (6 + len data) 6); [lia|].
  replace (6 + len data - 6) with (len data) by lia.
  rewrite len_app.
  destruct (Z.ltb_spec (len data + len rest) (len data));
    [pose proof (len_nonneg rest); lia|].
  unfold len. rewrite Nat2Z.id.
  by rewrite take_app_length, drop_app_length.
Qed.

Lemma hep_parse_chunks_fuel n m buf acc r :
  hep_parse_chunks n buf acc = Some r → (n ≤ m)%nat →
  hep_parse_chunks m buf acc = Some r.
Proof.
  revert m buf acc. induction n as [|n IH]; intros m buf acc H Hle.
  - destruct buf as [|? [|? [|? [|? [|? [|? ?]]]]]]; simpl in H; try done.
    by destruct m.
  - destruct m as [|m]; [lia|].
    destruct buf as [|? [|? [|? [|? [|? [|? ?]]]]]]; simpl in H |- *; try done.
    repeat case_match; try done. apply IH; [done|lia].
Qed.

(** The chunks of a buffer, each with type id, length field and data. *)
Definition encode_chunks (chunks : list (Z * Z * GByteArray)) : GByteArray :=
  flat_map (λ '(type_id, chunk_len, data), hep_chunk type_id chunk_len ++ data)
    chunks.

Definition store_chunks (chunks : list (Z * Z * GByteArray)) (acc : HepChunks)
  : HepChunks :=
  fold_left (λ acc '(type_id, _, data), hep_store_chunk 0 type_id data acc)
    chunks acc.

Definition chunk_wf (chunk : Z * Z * GByteArray) : Prop :=
  let '(type_id, chunk_len, data) := chunk in
  0 ≤ type_id < 65536 ∧ chunk_len = sizeof_chunk + len data ∧ chunk_len < 65536.

Lemma hep_parse_encode_chunks chunks acc :
  Forall chunk_wf chunks →
  hep_parse_chunks (length chunks) (encode_chunks chunks) acc =
  Some (store_chunks chunks acc).
Proof.
  intros H. revert acc. induction H as [|[[ty l] d] chunks Hwf _ IH]; intros acc.
  - done.
  - destruct Hwf as (Hty & Hl & Hlt).
    cbn [encode_chunks flat_map length store_chunks fold_left].
    rewrite <- app_assoc, hep_parse_chunk by done. apply IH.
Qed.

Lemma len_hep_chunk type_id chunk_len : len (hep_chunk type_id chunk_len) = 6.
Proof. done. Qed.

Lemma len_encode_chunks chunks :
  Forall chunk_wf chunks →
  len (encode_chunks chunks) = foldr (λ '(_, l, _) n, l + n) 0 chunks.
Proof.
  induction 1 as [|[[ty l] d] chunks (_ & Hl & _) _ IH]; [done|].
  cbn [encode_chunks flat_map foldr]. rewrite !len_app, len_hep_chunk.
  fold (encode_chunks chunks). rewrite IH. unfold sizeof_chunk in Hl. lia.
Qed.

Lemma length_encode_chunks chunks :
  Forall chunk_wf chunks → (length chunks ≤ length (encode_chunks chunks))%nat.
Proof.
  induction 1 as [|[[ty l] d] chunks _ _ IH]; [done|].
  cbn [encode_chunks flat_map length]. rewrite !length_app.
  fold (encode_chunks chunks). simpl. lia.
Qed.

Section RoundTrip.

Variable USE_IPV6 : bool.
Variable inet_pton : Z → string → GByteArray.
Variable inet_ntop : Z → GByteArray → string.
Variable capt_id_data : Z → GByteArray.

Local Abbreviation capture_output_hep_write :=
  (capture_output_hep_write USE_IPV6 inet_pton capt_id_data).
Local Abbreviation sizeof_generic := (sizeof_generic capt_id_data).

(** The writer does not look at the version of the output. *)
Lemma capture_output_hep_write_ignores_version hep v packet :
  capture_output_hep_write
    {| version := v; password := password hep; id := id hep; url := url hep |}
    packet
  = capture_output_hep_write hep packet.
Proof. reflexivity. Qed.

(** The packet that reading back is to yield. *)
Definition hep_packet_of (hep : CaptureOutputHep) (frame : PacketFrame)
    (ipd : PacketIpData) (udpd : PacketUdpData) (sipd : PacketSipData)
  : HepPacket :=
  {| hp_ip_version := ip_version ipd;
     hp_protocol := protocol ipd;
     hp_src_addr := srcip ipd;
     hp_dst_addr := dstip ipd;
     hp_src_port := sport udpd;
     hp_dst_port := dport udpd;
     hp_ts_sec := ts_sec frame;
     hp_ts_usec := ts_usec frame;
     hp_payload := payload sipd;
     hp_authkey := password hep |}.

(** The chunks that the writer puts behind the header. *)
Definition written_chunks (hep : CaptureOutputHep) (frame : PacketFrame)
    (ipd : PacketIpData) (udpd : PacketUdpData) (sipd : PacketSipData)
  : list (Z * Z * GByteArray) :=
  let is4 := ip_version ipd =? 4 in
  [ (1, 7, [(if is4 then AF_INET else AF_INET6) mod 256]);
    (2, 7, [protocol ipd mod 256]);
    (7, 8, be16 (sport udpd));
    (8, 8, be16 (dport udpd));
    (9, 10, be32 (ts_sec frame));
    (10, 10, be32 (ts_usec frame));
    (11, 7, [1]);
    (12, sizeof_chunk + len (capt_id_data (id hep)), capt_id_data (id hep)) ]
  ++ (if is4 then
        [ (3, 10, inet_pton AF_INET (srcip ipd));
          (4, 10, inet_pton AF_INET (dstip ipd)) ]
      else
        [ (5, 22, inet_pton AF_INET6 (srcip ipd));
          (6, 22, inet_pton AF_INET6 (dstip ipd)) ])
  ++ match password hep with
     | Some pw => [ (14, sizeof_chunk + strlen pw, bytes_of_string pw) ]
     | None => []
     end
  ++ [ (15, sizeof_chunk + strlen (payload sipd), bytes_of_string (payload sipd)) ].

Definition addr_len (ipv : Z) : Z := if ipv =? 4 then 4 else 16.
Definition family_of (ipv : Z) : Z := if ipv =? 4 then AF_INET else AF_INET6.

Definition total_length (hep : CaptureOutputHep) (ipd : PacketIpData)
    (sipd : PacketSipData) : Z :=
  sizeof_generic (id hep) + strlen (payload sipd)
  + 2 * (sizeof_chunk + addr_len (ip_version ipd)) + sizeof_chunk
  + match password hep with
    | Some pw => sizeof_chunk + strlen pw
    | None => 0
    end.

Lemma capture_output_hep_write_chunks hep frame more ipd udpd sipd :
  ip_version ipd = 4 ∨ (ip_version ipd = 6 ∧ USE_IPV6 = true) →
  capture_output_hep_write hep
    {| frames := frame :: more; ip := Some ipd; udp := Some udpd; sip := Some sipd |}
  = Some (bytes_of_string "HEP3" ++ be16 (total_length hep ipd sipd)
            ++ encode_chunks (written_chunks hep frame ipd udpd sipd)).
Proof.
  intros Hv. unfold Hep.capture_output_hep_write, total_length, written_chunks,
    addr_len. cbn [frames ip udp sip]. f_equal.
  assert (Htot : ∀ a b c d, a + b + c + d = a + b + c + d + 0) by (intros; lia).
  destruct Hv as [Hv|[Hv H6]]; rewrite Hv, ?H6; cbn [Z.eqb Pos.eqb negb andb];
    destruct (password hep) as [pw|];
    unfold encode_chunks; cbn [flat_map app];
    unfold sizeof_chunk_uint8, sizeof_chunk_uint16, sizeof_chunk_uint32,
      sizeof_chunk_ip4, sizeof_chunk_ip6, sizeof_capt_id, sizeof_chunk;
    rewrite <- ?app_assoc, ?app_nil_r; cbn [app];
    repeat (f_equal; try lia).
Qed.

Lemma written_chunks_wf hep frame ipd udpd sipd :
  ip_version ipd = 4 ∨ ip_version ipd = 6 →
  len (inet_pton (family_of (ip_version ipd)) (srcip ipd)) = addr_len (ip_version ipd) →
  len (inet_pton (family_of (ip_version ipd)) (dstip ipd)) = addr_len (ip_version ipd) →
  total_length hep ipd sipd < 65536 →
  Forall chunk_wf (written_chunks hep frame ipd udpd sipd).
Proof.
  intros Hv Hsrc Hdst Htot.
  unfold total_length, Hep.sizeof_generic, sizeof_capt_id, sizeof_ctrl,
    sizeof_chunk_uint8, sizeof_chunk_uint16, sizeof_chunk_uint32, sizeof_chunk in Htot.
  pose proof (len_nonneg (capt_id_data (id hep))) as Hc.
  pose proof (len_nonneg (bytes_of_string (payload sipd))) as Hp.
  rewrite len_bytes_of_string in Hp.
  assert (Hpw : ∀ pw, 0 ≤ strlen pw) by (intros; unfold strlen; lia).
  unfold written_chunks, chunk_wf, family_of, addr_len, sizeof_chunk in *.
  destruct Hv as [Hv|Hv]; rewrite Hv in *; cbn [Z.eqb Pos.eqb] in *;
    destruct (password hep) as [pw|]; try specialize (Hpw pw);
    repeat (apply Forall_app; split); repeat apply Forall_cons_2;
    try apply Forall_nil_2; rewrite ?len_bytes_of_string;
    (split; [lia|split; [first [reflexivity|lia]|lia]]).
Qed.

Lemma len_written_chunks hep frame ipd udpd sipd :
  ip_version ipd = 4 ∨ ip_version ipd = 6 →
  6 + foldr (λ '(_, l, _) n, l + n) 0 (written_chunks hep frame ipd udpd sipd)
  = total_length hep ipd sipd.
Proof.
  intros Hv. unfold written_chunks, total_length, Hep.sizeof_generic,
    sizeof_capt_id, sizeof_ctrl, sizeof_chunk_uint8, sizeof_chunk_uint16,
    sizeof_chunk_uint32, sizeof_chunk, addr_len.
  destruct Hv as [Hv|Hv]; rewrite Hv; cbn [Z.eqb Pos.eqb];
    destruct (password hep) as [pw|]; cbn [app foldr]; lia.
Qed.

Lemma hep_packet_of_written_chunks hep frame ipd udpd sipd :
  ip_version ipd = 4 ∨ ip_version ipd = 6 →
  0 ≤ protocol ipd < 256 →
  0 ≤ sport udpd < 65536 →
  0 ≤ dport udpd < 65536 →
  0 ≤ ts_sec frame < 4294967296 →
  0 ≤ ts_usec frame < 4294967296 →
  inet_ntop (family_of (ip_version ipd))
    (inet_pton (family_of (ip_version ipd)) (srcip ipd)) = srcip ipd →
  inet_ntop (family_of (ip_version ipd))
    (inet_pton (family_of (ip_version ipd)) (dstip ipd)) = dstip ipd →
  hep_packet_of_chunks inet_ntop
    (store_chunks (written_chunks hep frame ipd udpd sipd) no_chunks)
  = Some (hep_packet_of hep frame ipd udpd sipd).
Proof.
  intros Hv Hproto Hsport Hdport Hsec Husec Hsrc Hdst.
  unfold written_chunks, store_chunks, hep_packet_of, family_of in *.
  destruct ipd as [v proto src dst]. cbn [ip_version protocol srcip dstip] in *.
  destruct Hv as [-> | ->]; cbn [Z.eqb Pos.eqb] in *;
    destruct (password hep) as [pw|];
    cbn -[be_decode be16 be32 bytes_of_string string_of_bytes Z.modulo];
    rewrite ?be_decode_byte, ?be_decode_be16, ?be_decode_be32,
      ?string_of_bytes_of_string by done;
    rewrite ?Z.mod_small by done;
    change (AF_INET =? AF_INET) with true;
    change (AF_INET6 =? AF_INET6) with true;
    change (AF_INET6 =? AF_INET) with false;
    cbn [andb orb]; rewrite Hsrc, Hdst; reflexivity.
Qed.


End RoundTrip.

(** ** Scenario S3 of the specification *)

(** [inet_pton] and [inet_ntop] for dotted quads; the capture id as a
    field of 32 bits filled on a little-endian host. *)
Definition dotted_quad_bytes (af : Z) (addr : string) : GByteArray :=
  if af =? AF_INET then map atoi (g_strsplit addr "." (-1)) else [].

Definition dotted_quad_text (af : Z) (bytes : GByteArray) : string :=
  String.concat "."
    (map (λ b, NilZero.string_of_uint (N.to_uint (Z.to_N b))) bytes).

Definition capt_id_le32 (hep_id : Z) : GByteArray :=
  [(hep_id / 256) mod 256; hep_id mod 256; 0; 0].

Definition s3_output (v : Z) (pw : option string) : CaptureOutputHep :=
  {| version := v; password := pw; id := 2000;
     url := {| url_host := Some "127.0.0.1"; url_port := 9060 |} |}.

Definition s3_frame : PacketFrame :=
  {| ts_sec := 1700000000; ts_usec := 123456 |}.

Definition s3_ip : PacketIpData :=
  {| ip_version := 4; protocol := 17; srcip := "10.0.0.1"; dstip := "10.0.0.2" |}.

Definition s3_udp : PacketUdpData := {| sport := 5060; dport := 5060 |}.

Definition s3_packet (sipd : PacketSipData) : Packet :=
  {| frames := [s3_frame]; ip := Some s3_ip; udp := Some s3_udp;
     sip := Some sipd |}.

Definition s3_sip : PacketSipData :=
  {| payload := "INVITE sip:bob@10.0.0.2 SIP/2.0" |}.


(** An output configured for version 2 sends the very buffer that an
    output configured for version 3 sends, HEP3 banner and chunks. *)
Example s3_version_2_sends_hep3 :
  capture_output_hep_write true dotted_quad_bytes capt_id_le32
    (s3_output 2 None) (s3_packet s3_sip)
  = capture_output_hep_write true dotted_quad_bytes capt_id_le32
      (s3_output 3 None) (s3_packet s3_sip) ∧
  take 6 <$> capture_output_hep_write true dotted_quad_bytes capt_id_le32
               (s3_output 2 None) (s3_packet s3_sip)
  = Some [72; 69; 80; 51; 0; 130].
Proof. split; vm_compute; reflexivity. Qed.

(** A payload of 65437 characters, with which the buffer has 65536 bytes. *)
Definition long_sip : PacketSipData :=
  {| payload := string_of_list_ascii (repeat "a"%char (Z.to_nat 65437)) |}.


End HepProps.

(* ===================================================================== *)
(** * Further properties of the settings                                  *)
(* ===================================================================== *)

Module SettingMore.
Import GLib GLibProps Setting SettingProps.
Local Open Scope string_scope.
Local Open Scope list_scope.
Local Open Scope Z_scope.

(** What a configuration file cannot change of a setting. *)
Definition shape (sett : Setting) : string * SettingFmt * option (list string) :=
  (name sett, fmt sett, valuelist sett).

Definition same_shape (a b : gmap SettingId Setting) : Prop :=
  ∀ id, shape <$> a !! id = shape <$> b !! id.

Lemma same_shape_refl a : same_shape a a.
Proof. done. Qed.

Lemma same_shape_trans a b c : same_shape a b → same_shape b c → same_shape a c.
Proof. intros H1 H2 id. by rewrite H1. Qed.

Lemma same_shape_with_value (vs : gmap SettingId Setting) id sett v :
  vs !! id = Some sett → same_shape vs (<[id := with_value sett v]> vs).
Proof.
  intros H id'. destruct (decide (id = id')) as [<-|Hne].
  - by rewrite lookup_insert_eq, H.
  - by rewrite lookup_insert_ne.
Qed.

Lemma NoDup_setting_ids : NoDup setting_ids.
Proof. apply (bool_decide_unpack _). vm_compute. reflexivity. Qed.

Lemma elem_of_setting_ids id : id ∈ setting_ids.
Proof. apply list_elem_of_lookup. exists (setting_code id). apply setting_ids_code. Qed.

Section More.

Variable SETTING_MAX_LEN : nat.
Variable g_atoi : string → Z.
Variable attr_name_callindex : string.
Variable sscanf_line : string → list string.

Local Abbreviation settings_init :=
  (settings_init SETTING_MAX_LEN attr_name_callindex sscanf_line).
Local Abbreviation setting_read_file :=
  (setting_read_file SETTING_MAX_LEN sscanf_line).
Local Abbreviation setting_read_lines :=
  (setting_read_lines SETTING_MAX_LEN sscanf_line).
Local Abbreviation setting_read_line :=
  (setting_read_line SETTING_MAX_LEN sscanf_line).
Local Abbreviation then_read := (then_read SETTING_MAX_LEN sscanf_line).
Local Abbreviation setting_toggle := (setting_toggle SETTING_MAX_LEN).
Local Abbreviation setting_set_value := (setting_set_value SETTING_MAX_LEN).
Local Abbreviation setting_set_intvalue := (setting_set_intvalue SETTING_MAX_LEN).
Local Abbreviation default_settings :=
  (default_settings SETTING_MAX_LEN attr_name_callindex).

(** ** Storing and reading a value *)

(** X1.  A value that fits is stored and read back: [setting_get_value]
    returns it, or NULL when it is the empty string; name, format and
    value list of the setting stay, and so does every other setting. *)
Theorem setting_set_value_get_value st id sett v :
  setting_by_id st id = Some sett →
  (String.length v < SETTING_MAX_LEN)%nat →
  ∃ st',
    setting_set_value st id (Some v) = Returns st' ∧
    setting_get_value st' id = (if decide (v = EmptyString) then None else Some v) ∧
    setting_by_id st' id = Some (with_value sett v) ∧
    (∀ id', id' ≠ id → setting_by_id st' id' = setting_by_id st id') ∧
    alias st' = alias st ∧ externips st' = externips st.
Proof.
  intros Hid Hlen. unfold Setting.setting_set_value. rewrite Hid.
  destruct (Nat.ltb_spec (String.length v) SETTING_MAX_LEN); [|lia].
  eexists. split; [reflexivity|].
  unfold setting_get_value, setting_by_id. cbn [values with_values].
  rewrite lookup_insert_eq. cbn [value with_value].
  split; [|split; [done|split; [|done]]].
  - destruct v; simpl; [done|]. unfold strlen. simpl.
    destruct (Z.ltb_spec 0 (Z.pos (Pos.of_succ_nat (String.length v)))); [done|lia].
  - intros id' Hne. by rewrite lookup_insert_ne.
Qed.

(** X2.  A value of [SETTING_MAX_LEN] characters or more is not stored:
    the process ends with status 1, the old value having been cleared. *)
Theorem setting_set_value_too_long st id sett v :
  setting_by_id st id = Some sett →
  (SETTING_MAX_LEN ≤ String.length v)%nat →
  ∃ st',
    setting_set_value st id (Some v) = Exits 1 st' ∧
    setting_get_value st' id = None ∧
    ∀ id', id' ≠ id → setting_by_id st' id' = setting_by_id st id'.
Proof.
  intros Hid Hlen. unfold Setting.setting_set_value. rewrite Hid.
  destruct (Nat.ltb_spec (String.length v) SETTING_MAX_LEN); [lia|].
  eexists. split; [reflexivity|].
  unfold setting_get_value, setting_by_id. cbn [values with_values].
  rewrite lookup_insert_eq. split; [done|].
  intros id' Hne. by rewrite lookup_insert_ne.
Qed.

(** ** What no operation changes *)

Lemma setting_set_value_shape st id v :
  same_shape (values st) (values (state_of (setting_set_value st id v))).
Proof.
  unfold Setting.setting_set_value, setting_by_id.
  destruct (values st !! id) as [sett|] eqn:E; [|done].
  destruct v as [s|]; [destruct (_ <? _)%nat|]; simpl;
    by apply same_shape_with_value.
Qed.

Lemma setting_toggle_shape st id :
  same_shape (values st) (values (state_of (setting_toggle st id))).
Proof.
  unfold Setting.setting_toggle.
  destruct (setting_by_id st id) as [sett|]; [|done].
  destruct (fmt sett); try done; try destruct (setting_enabled st id);
    apply setting_set_value_shape.
Qed.

Lemma setting_read_line_shape line st :
  same_shape (values st) (values (state_of (setting_read_line line st))).
Proof.
  unfold Setting.setting_read_line. destruct line as [|c line]; [done|].
  destruct (Ascii.eqb c "#"); [done|]. cbv zeta.
  destruct (negb (fields_fit (sscanf_line _))); [done|].
  destruct (sscanf_line _) as [|type [|option [|v [|? ?]]]]; try done.
  destruct (strcasecmp type "set" =? 0).
  { destruct (setting_id st option); [apply setting_set_value_shape|done]. }
  destruct (strcasecmp type "alias" =? 0); [done|].
  destruct (strcasecmp type "externip" =? 0); done.
Qed.

Lemma setting_read_lines_shape lines st :
  same_shape (values st) (values (state_of (setting_read_lines lines st))).
Proof.
  revert st. induction lines as [|line lines IH]; intros st; simpl; [done|].
  pose proof (setting_read_line_shape line st) as H.
  destruct (setting_read_line line st) as [st'|code st'|st']; simpl in *;
    [|done|done].
  eapply same_shape_trans; [exact H|apply IH].
Qed.

Lemma setting_read_file_shape env fname w :
  same_shape (values (settings w))
    (values (settings (state_of (setting_read_file env fname w)))).
Proof.
  unfold Setting.setting_read_file.
  destruct (fopen env fname) as [lines|]; [|done].
  pose proof (setting_read_lines_shape lines (settings w)) as H.
  by destruct (setting_read_lines lines (settings w)).
Qed.

Lemma then_read_shape env fname o :
  same_shape (values (settings (state_of o)))
    (values (settings (state_of (then_read env fname o)))).
Proof. destruct o; simpl; [apply setting_read_file_shape|done|done]. Qed.

Definition default_values (env : Env) : gmap SettingId Setting :=
  foldl g_ptr_array_set ∅ (default_settings env).

Lemma settings_init_shape options env :
  same_shape (default_values env)
    (values (settings (state_of (settings_init options env)))).
Proof.
  unfold Setting.settings_init. fold (default_values env).
  set (w0 := Returns _).
  assert (H0 : same_shape (default_values env) (values (settings (state_of w0)))) by done.
  clearbody w0.
  assert (Hstep : ∀ o f, same_shape (default_values env) (values (settings (state_of o))) →
            same_shape (default_values env)
              (values (settings (state_of (then_read env f o))))).
  { intros o f H. eapply same_shape_trans; [exact H|apply then_read_shape]. }
  assert (H1 : same_shape (default_values env) (values (settings (state_of
            (if use_defaults options then w0
             else
               match getenv env "SNGREPRC" with
               | Some rc => then_read env rc
                   (then_read env "/usr/local/etc/sngreprc" (then_read env "/etc/sngreprc" w0))
               | None =>
                   match homedir env with
                   | Some home => then_read env (home +:+ "/.sngreprc")
                       (then_read env "/usr/local/etc/sngreprc" (then_read env "/etc/sngreprc" w0))
                   | None => then_read env "/usr/local/etc/sngreprc" (then_read env "/etc/sngreprc" w0)
                   end
               end))))).
  { destruct (use_defaults options); [done|].
    destruct (getenv env "SNGREPRC"); [by repeat apply Hstep|].
    destruct (homedir env); by repeat apply Hstep. }
  destruct (file options); [by apply Hstep|done].
Qed.

Lemma default_settings_keys env : (default_settings env).*1 = setting_ids.
Proof. reflexivity. Qed.

Lemma default_values_lookup env id d :
  (id, d) ∈ default_settings env → default_values env !! id = Some d.
Proof.
  intros Hin. apply list_elem_of_split in Hin as (l1 & l2 & Hl).
  unfold default_values. rewrite Hl.
  apply lookup_foldl_g_ptr_array_set.
  pose proof NoDup_setting_ids as Hnd.
  rewrite <- (default_settings_keys env), Hl, fmap_app, fmap_cons in Hnd.
  apply NoDup_app in Hnd as (_ & _ & Hnd). by apply NoDup_cons in Hnd as [? _].
Qed.

Lemma default_values_total env id :
  ∃ d, (id, d) ∈ default_settings env ∧ default_values env !! id = Some d.
Proof.
  pose proof (elem_of_setting_ids id) as Hin.
  rewrite <- (default_settings_keys env) in Hin.
  apply list_elem_of_fmap in Hin as ([id' d] & -> & Hin).
  exists d. split; [done|]. by apply default_values_lookup.
Qed.

(** X3.  Whatever the options, the environment and the configuration
    files: when [settings_init] is left, by return or by [exit], every
    setting is there, with the name, format and list of values that the
    defaults give it.  Configuration files change values only. *)
Theorem settings_init_keeps_settings options env id :
  ∃ sett d,
    setting_by_id (settings (state_of (settings_init options env))) id = Some sett ∧
    (id, d) ∈ default_settings env ∧
    name sett = name d ∧ fmt sett = fmt d ∧ valuelist sett = valuelist d.
Proof.
  destruct (default_values_total env id) as (d & Hin & Hd).
  pose proof (settings_init_shape options env id) as H.
  rewrite Hd in H. unfold setting_by_id.
  destruct (values _ !! id) as [sett|]; [|done].
  simpl in H. injection H as Hn Hf Hv.
  exists sett, d. done.
Qed.

(** ** Names and ids *)

Definition default_name (env : Env) (id : SettingId) : string :=
  from_option name EmptyString (default_values env !! id).

Lemma NoDup_default_names env : NoDup (default_name env <$> setting_ids).
Proof. apply (bool_decide_unpack _). vm_compute. reflexivity. Qed.

Lemma setting_by_name_from_finds st (dname : SettingId → string) ids id :
  NoDup (dname <$> ids) →
  (∀ id', id' ∈ ids → ∃ s, values st !! id' = Some s ∧ name s = dname id') →
  id ∈ ids →
  fst <$> setting_by_name_from st ids (dname id) = Some id.
Proof.
  induction ids as [|x ids IH]; intros Hnd Hall Hin; [by apply elem_of_nil in Hin|].
  rewrite fmap_cons in Hnd. apply NoDup_cons in Hnd as [Hx Hnd].
  destruct (Hall x) as (s & Hs & Hname); [apply elem_of_cons; by left|].
  simpl. rewrite Hs. simpl. rewrite Hname.
  apply elem_of_cons in Hin as [->|Hin].
  - unfold strcmp. by rewrite strcmp_with_refl.
  - destruct (Z.eqb_spec (strcmp (dname x) (dname id)) 0) as [E|_].
    + apply strcmp_zero in E. exfalso. apply Hx. rewrite E.
      by apply list_elem_of_fmap_2.
    + apply IH; [done| |done]. intros id' Hid'. apply Hall, elem_of_cons. by right.
Qed.

(** X4.  After [settings_init], whatever the configuration files held,
    every setting is found under its name: [setting_id] of the name that
    [setting_name] gives for an id is that id. *)
Theorem setting_id_of_setting_name options env id :
  let st := settings (state_of (settings_init options env)) in
  ∃ nm, setting_name st id = Some nm ∧ setting_id st nm = Some id.
Proof.
  intros st.
  assert (Hall : ∀ id', id' ∈ setting_ids →
            ∃ s, values st !! id' = Some s ∧ name s = default_name env id').
  { intros id' _. unfold default_name.
    pose proof (settings_init_shape options env id') as H. fold st in H.
    destruct (default_values_total env id') as (d & _ & Hd).
    rewrite Hd in H.
    destruct (values st !! id') as [sett|]; [|done].
    simpl in H. injection H as Hn _ _.
    exists sett. split; [done|]. by rewrite Hd. }
  destruct (Hall id (elem_of_setting_ids id)) as (s & Hs & Hn).
  exists (name s). split.
  - unfold setting_name, setting_by_id. by rewrite Hs.
  - unfold setting_id. rewrite Hn.
    apply setting_by_name_from_finds;
      [apply NoDup_default_names|exact Hall|apply elem_of_setting_ids].
Qed.

(** ** Enumerations *)

Lemma strcmp_eqb a b : (strcmp a b =? 0) = bool_decide (a = b).
Proof.
  destruct (Z.eqb_spec (strcmp a b) 0) as [E|E]; rewrite strcmp_zero in E.
  - by rewrite bool_decide_eq_true_2.
  - by rewrite bool_decide_eq_false_2.
Qed.

Lemma enum_next_from_notin first vl v :
  v ∉ vl → enum_next_from first vl v = None.
Proof.
  induction vl as [|x vl IH]; intros Hv; simpl; [done|].
  apply not_elem_of_cons in Hv as [Hne Hv].
  rewrite strcmp_eqb, bool_decide_eq_false_2 by done. by apply IH.
Qed.

Lemma enum_next_from_lookup first vl i v :
  NoDup vl → vl !! i = Some v →
  enum_next_from first vl v =
  match vl !! S i with Some next => Some next | None => first end.
Proof.
  revert i. induction vl as [|x vl IH]; intros i Hnd Hi; [done|].
  apply NoDup_cons in Hnd as [Hx Hnd]. simpl. rewrite strcmp_eqb.
  destruct i as [|i]; simpl in Hi.
  - injection Hi as ->. rewrite bool_decide_eq_true_2 by done.
    by destruct vl.
  - rewrite bool_decide_eq_false_2.
    + by apply IH.
    + intros ->. apply Hx. by eapply list_elem_of_lookup_2.
Qed.

Lemma lookup_succ_mod {A} (vl : list A) i :
  (i < length vl)%nat →
  match vl !! S i with Some next => Some next | None => head vl end
  = vl !! (S i mod length vl)%nat.
Proof.
  intros Hi. destruct (decide (S i = length vl)) as [E|E].
  - rewrite E, Nat.Div0.mod_same. rewrite lookup_ge_None_2 by lia.
    by destruct vl.
  - rewrite Nat.mod_small by lia.
    destruct (lookup_lt_is_Some_2 vl (S i)) as [x ->]; [lia|done].
Qed.

(** The storage in which setting [id], known to be [sett], has value [v]. *)
Definition with_setting_value (st : SettingStorage) (id : SettingId)
    (sett : Setting) (v : string) : SettingStorage :=
  with_values st (<[id := with_value sett v]> (values st)).

(** What [setting_enum_next] answers for the value at position [i]. *)
Lemma setting_enum_next_lookup st id sett vl i v :
  setting_by_id st id = Some sett →
  fmt sett = SETTING_FMT_ENUM →
  valuelist sett = Some vl →
  NoDup vl →
  vl !! i = Some v →
  setting_enum_next st id (Some v) = vl !! (S i mod length vl)%nat.
Proof.
  intros Hid Hfmt Hvl Hnd Hi.
  pose proof (lookup_lt_Some _ _ _ Hi) as Hlt.
  unfold setting_enum_next. rewrite Hid, Hfmt, Hvl.
  by rewrite (enum_next_from_lookup _ _ _ _ Hnd Hi), lookup_succ_mod.
Qed.

Lemma setting_set_value_fits st id sett v :
  setting_by_id st id = Some sett →
  (String.length v < SETTING_MAX_LEN)%nat →
  setting_set_value st id (Some v) = Returns (with_setting_value st id sett v).
Proof.
  intros Hid Hlen. unfold Setting.setting_set_value. rewrite Hid.
  by destruct (Nat.ltb_spec (String.length v) SETTING_MAX_LEN); [|lia].
Qed.

(** X5.  [setting_toggle] moves an enumeration setting on to the value
    that follows its value in the list of valid values, and from the last
    value to the first; nothing else in the storage changes. *)
Theorem setting_toggle_enum_next st id sett vl i :
  setting_by_id st id = Some sett →
  fmt sett = SETTING_FMT_ENUM →
  valuelist sett = Some vl →
  NoDup vl →
  vl !! i = Some (value sett) →
  Forall (λ v, (String.length v < SETTING_MAX_LEN)%nat) vl →
  ∃ next,
    vl !! (S i mod length vl)%nat = Some next ∧
    setting_toggle st id = Returns (with_setting_value st id sett next).
Proof.
  intros Hid Hfmt Hvl Hnd Hi Hfit.
  pose proof (lookup_lt_Some _ _ _ Hi) as Hlt.
  destruct (lookup_lt_is_Some_2 vl (S i mod length vl)%nat) as [next Hnext].
  { apply Nat.mod_upper_bound. lia. }
  exists next. split; [done|].
  unfold Setting.setting_toggle. rewrite Hid, Hfmt.
  rewrite (setting_enum_next_lookup _ _ _ _ _ _ Hid Hfmt Hvl Hnd Hi), Hnext.
  apply setting_set_value_fits; [done|].
  rewrite Forall_lookup in Hfit. by eapply Hfit.
Qed.

Fixpoint setting_toggle_times (n : nat) (st : SettingStorage) (id : SettingId)
  : Outcome SettingStorage :=
  match n with
  | O => Returns st
  | S k =>
      match setting_toggle st id with
      | Returns st' => setting_toggle_times k st' id
      | Exits code st' => Exits code st'
      | Overruns st' => Overruns st'
      end
  end.

Lemma with_setting_value_same st id sett :
  setting_by_id st id = Some sett →
  with_setting_value st id sett (value sett) = st.
Proof.
  intros Hid. unfold with_setting_value.
  rewrite with_value_same, insert_id by done. apply with_values_same.
Qed.

Lemma with_setting_value_twice st id sett v1 v2 :
  with_setting_value (with_setting_value st id sett v1) id (with_value sett v1) v2
  = with_setting_value st id sett v2.
Proof.
  unfold with_setting_value. simpl. by rewrite insert_insert_eq.
Qed.

Lemma setting_toggle_times_enum k st id sett vl i :
  setting_by_id st id = Some sett →
  fmt sett = SETTING_FMT_ENUM →
  valuelist sett = Some vl →
  NoDup vl →
  vl !! i = Some (value sett) →
  Forall (λ v, (String.length v < SETTING_MAX_LEN)%nat) vl →
  ∃ v,
    vl !! ((i + k) mod length vl)%nat = Some v ∧
    setting_toggle_times k st id = Returns (with_setting_value st id sett v).
Proof.
  revert st sett i. induction k as [|k IH]; intros st sett i Hid Hfmt Hvl Hnd Hi Hfit.
  - pose proof (lookup_lt_Some _ _ _ Hi) as Hlt.
    exists (value sett). rewrite Nat.add_0_r, Nat.mod_small by done.
    split; [done|]. simpl. by rewrite with_setting_value_same.
  - pose proof (lookup_lt_Some _ _ _ Hi) as Hlt.
    destruct (lookup_lt_is_Some_2 vl (S i mod length vl)%nat) as [next Hnext].
    { apply Nat.mod_upper_bound. lia. }
    assert (Ht : setting_toggle st id = Returns (with_setting_value st id sett next)).
    { unfold Setting.setting_toggle. rewrite Hid, Hfmt.
      rewrite (setting_enum_next_lookup _ _ _ _ _ _ Hid Hfmt Hvl Hnd Hi), Hnext.
      apply setting_set_value_fits; [done|].
      rewrite Forall_lookup in Hfit. by eapply Hfit. }
    simpl. rewrite Ht.
    destruct (IH (with_setting_value st id sett next) (with_value sett next)
                (S i mod length vl)%nat) as (v & Hv & Hk); try done.
    { unfold setting_by_id, with_setting_value. simpl. by rewrite lookup_insert_eq. }
    exists v. split.
    + rewrite <- Hv. f_equal.
      rewrite Nat.Div0.add_mod_idemp_l. f_equal. lia.
    + by rewrite Hk, with_setting_value_twice.
Qed.

(** X6.  Toggling an enumeration setting as many times as it has valid
    values leads back to the storage from which the toggling began. *)
Theorem setting_toggle_enum_cycle st id sett vl :
  setting_by_id st id = Some sett →
  fmt sett = SETTING_FMT_ENUM →
  valuelist sett = Some vl →
  NoDup vl →
  value sett ∈ vl →
  Forall (λ v, (String.length v < SETTING_MAX_LEN)%nat) vl →
  setting_toggle_times (length vl) st id = Returns st.
Proof.
  intros Hid Hfmt Hvl Hnd Hin Hfit.
  apply list_elem_of_lookup in Hin as [i Hi].
  pose proof (lookup_lt_Some _ _ _ Hi) as Hlt.
  destruct (setting_toggle_times_enum (length vl) st id sett vl i)
    as (v & Hv & Hk); try done.
  replace ((i + length vl) mod length vl)%nat with i in Hv.
  - rewrite Hi in Hv. injection Hv as <-.
    by rewrite Hk, with_setting_value_same.
  - rewrite <- Nat.Div0.add_mod_idemp_r, Nat.Div0.mod_same, Nat.add_0_r.
    by rewrite Nat.mod_small.
Qed.

(** X7.  An enumeration setting whose value is none of its valid values
    is emptied by [setting_toggle], and it stays empty under further
    toggling unless the empty string is a valid value. *)
Theorem setting_toggle_enum_unknown_value st id sett vl :
  setting_by_id st id = Some sett →
  fmt sett = SETTING_FMT_ENUM →
  valuelist sett = Some vl →
  value sett ∉ vl →
  let st' := with_setting_value st id sett EmptyString in
  setting_toggle st id = Returns st' ∧
  setting_get_value st' id = None ∧
  (EmptyString ∉ vl → setting_toggle st' id = Returns st').
Proof.
  intros Hid Hfmt Hvl Hnot st'.
  assert (Hstep : ∀ s x, setting_by_id s id = Some x → fmt x = SETTING_FMT_ENUM →
            valuelist x = Some vl → value x ∉ vl →
            setting_toggle s id = Returns (with_setting_value s id x EmptyString)).
  { intros s x Hs Hf Hv Hn.
    unfold Setting.setting_toggle, setting_enum_next. rewrite Hs, Hf, Hv.
    rewrite enum_next_from_notin by done.
    unfold Setting.setting_set_value. by rewrite Hs. }
  assert (Hid' : setting_by_id st' id = Some (with_value sett EmptyString)).
  { unfold setting_by_id, st', with_setting_value. simpl. by rewrite lookup_insert_eq. }
  split; [by apply Hstep|]. split.
  - unfold setting_get_value. by rewrite Hid'.
  - intros Hempty. rewrite (Hstep st' _ Hid') by done.
    unfold st'. by rewrite with_setting_value_twice.
Qed.

(** ** Lines of a configuration file *)

(** The check at the head of the loop of [setting_read_file]: an empty
    line or a line that starts with a hash sign. *)
Definition comment_or_empty (line : string) : bool :=
  match line with
  | EmptyString => true
  | String c _ => Ascii.eqb c "#"
  end.

(** A line that [setting_read_file] passes over: a comment or an empty
    line, which is not scanned; or a line whose fields fit the arrays they
    are scanned into and that has fewer than three fields, is a [set] line
    for a name that no setting bears, or is of a type other than [set],
    [alias] and [externip]. *)
Definition passed_over (st : SettingStorage) (line : string) : Prop :=
  comment_or_empty line = true ∨
  (fields_fit (sscanf_line line) = true ∧
   match sscanf_line line with
   | [type; option; _] =>
       if strcasecmp type "set" =? 0 then setting_id st option = None
       else strcasecmp type "alias" ≠ 0 ∧ strcasecmp type "externip" ≠ 0
   | _ => True
   end).

Lemma setting_read_line_scanned line st :
  comment_or_empty line = false →
  setting_read_line line st =
  if negb (fields_fit (sscanf_line line)) then Overruns st
  else
    match sscanf_line line with
    | [type; option; v] =>
        if strcasecmp type "set" =? 0 then
          match setting_id st option with
          | None => Returns st
          | Some id => setting_set_value st id (Some v)
          end
        else if strcasecmp type "alias" =? 0 then
          Returns {| values := values st;
                     alias := alias st ++ [setting_alias_new option v];
                     externips := externips st |}
        else if strcasecmp type "externip" =? 0 then
          Returns {| values := values st;
                     alias := alias st;
                     externips := externips st ++ [setting_externip_new option v] |}
        else Returns st
    | _ => Returns st
    end.
Proof.
  unfold Setting.setting_read_line, comment_or_empty.
  destruct line as [|c line]; [done|]. by intros ->.
Qed.

Lemma setting_read_line_passed_over st line :
  passed_over st line → setting_read_line line st = Returns st.
Proof.
  intros [Hc|[Hfit H]].
  - unfold Setting.setting_read_line. unfold comment_or_empty in Hc.
    destruct line as [|c line]; [done|]. by rewrite Hc.
  - destruct (comment_or_empty line) eqn:Hc.
    + unfold Setting.setting_read_line. unfold comment_or_empty in Hc.
      destruct line as [|c line]; [done|]. by rewrite Hc.
    + rewrite setting_read_line_scanned, Hfit by done. cbn [negb].
      destruct (sscanf_line line) as [|type [|option [|v [|? ?]]]]; try done.
      destruct (strcasecmp type "set" =? 0); [by rewrite H|].
      destruct H as [Ha He].
      apply Z.eqb_neq in Ha, He. by rewrite Ha, He.
Qed.

Lemma setting_read_lines_app l1 l2 st :
  setting_read_lines (l1 ++ l2) st =
  match setting_read_lines l1 st with
  | Returns st1 => setting_read_lines l2 st1
  | Exits code st1 => Exits code st1
  | Overruns st1 => Overruns st1
  end.
Proof.
  revert st. induction l1 as [|line l1 IH]; intros st; simpl; [done|].
  destruct (setting_read_line line st); [apply IH|done|done].
Qed.

(** X8.  Comment lines and empty lines are not scanned and change
    nothing.  Of the lines that are scanned, those whose fields fit the
    arrays [type[20]], [option[50]] and [value[50]] change nothing either
    when they have fewer than three fields, are [set] lines for unknown
    settings or are of an unknown type: a file made of such lines leaves
    the storage as it was.  A scanned line with a field that does not fit
    its array overruns the array: the storage is as it was when this
    happens, and what follows is undefined. *)
Theorem setting_read_lines_passed_over st lines :
  Forall (passed_over st) lines →
  setting_read_lines lines st = Returns st ∧
  ∀ line rest,
    comment_or_empty line = false →
    fields_fit (sscanf_line line) = false →
    setting_read_lines (lines ++ line :: rest) st = Overruns st.
Proof.
  intros Hall.
  assert (Hret : setting_read_lines lines st = Returns st).
  { induction Hall as [|line lines Hline _ IH]; simpl; [done|].
    by rewrite setting_read_line_passed_over. }
  split; [exact Hret|].
  intros line rest Hc Hfit.
  rewrite setting_read_lines_app, Hret. cbn [Setting.setting_read_lines].
  by rewrite setting_read_line_scanned, Hfit.
Qed.

Lemma setting_by_name_from_shape a b ids nm :
  same_shape (values a) (values b) →
  fst <$> setting_by_name_from a ids nm = fst <$> setting_by_name_from b ids nm.
Proof.
  intros Hs. induction ids as [|id ids IH]; simpl; [done|].
  specialize (Hs id).
  destruct (values a !! id) as [x|], (values b !! id) as [y|]; simpl in Hs;
    try done.
  injection Hs as Hn _ _. rewrite Hn.
  by destruct (_ =? 0).
Qed.

Lemma setting_by_name_from_Some st ids nm id sett :
  setting_by_name_from st ids nm = Some (id, sett) →
  setting_by_id st id = Some sett.
Proof.
  induction ids as [|x ids IH]; simpl; [done|].
  destruct (values st !! x) as [y|] eqn:E; [|done].
  destruct (_ =? 0); [|done].
  by intros [= <- <-].
Qed.

Lemma setting_id_Some st nm id :
  setting_id st nm = Some id → is_Some (setting_by_id st id).
Proof.
  unfold setting_id.
  destruct (setting_by_name_from st setting_ids nm) as [[id' sett]|] eqn:E;
    [|done].
  intros [= <-]. exists sett. by eapply setting_by_name_from_Some.
Qed.

Lemma setting_read_lines_single line st :
  setting_read_lines [line] st =
  match setting_read_line line st with
  | Returns st' => Returns st'
  | Exits code st' => Exits code st'
  | Overruns st' => Overruns st'
  end.
Proof. reflexivity. Qed.

Lemma setting_read_line_set line st type nm v id sett :
  comment_or_empty line = false →
  sscanf_line line = [type; nm; v] →
  fields_fit [type; nm; v] = true →
  strcasecmp type "set" = 0 →
  setting_id st nm = Some id →
  setting_by_id st id = Some sett →
  (String.length v < SETTING_MAX_LEN)%nat →
  setting_read_line line st = Returns (with_setting_value st id sett v).
Proof.
  intros Hc Hscan Hfit Hset Hid Hsett Hlen.
  rewrite setting_read_line_scanned, Hscan, Hfit, Hset, Hid by done.
  change (0 =? 0) with true. cbv iota. cbn [negb].
  unfold Setting.setting_set_value. rewrite Hsett.
  destruct (Nat.ltb_spec (String.length v) SETTING_MAX_LEN); [reflexivity|lia].
Qed.

Lemma setting_get_value_with_setting_value st id sett v :
  setting_get_value (with_setting_value st id sett v) id =
  (if decide (v = EmptyString) then None else Some v).
Proof.
  unfold setting_get_value, setting_by_id, with_setting_value.
  cbn [values with_values]. rewrite lookup_insert_eq. cbn [value with_value].
  destruct v; [reflexivity|]. unfold strlen. cbn [String.length].
  rewrite decide_False by discriminate.
  destruct (Z.ltb_spec 0 (Z.of_nat (S (String.length v)))); [reflexivity|lia].
Qed.

(** X9.  The last [set] line for a setting decides its value: whatever
    lines were read before it, once a line [set name value] has been read
    whose fields fit the arrays they are scanned into ([type[20]],
    [option[50]], [value[50]]) and whose value fits the setting,
    [setting_get_value] returns that value, and the line changes no other
    setting. *)
Theorem setting_read_lines_last_set lines line st st1 type nm v id :
  setting_read_lines lines st = Returns st1 →
  comment_or_empty line = false →
  sscanf_line line = [type; nm; v] →
  fields_fit [type; nm; v] = true →
  strcasecmp type "set" = 0 →
  setting_id st nm = Some id →
  (String.length v < SETTING_MAX_LEN)%nat →
  ∃ st2,
    setting_read_lines (lines ++ [line]) st = Returns st2 ∧
    setting_get_value st2 id = (if decide (v = EmptyString) then None else Some v) ∧
    ∀ id', id' ≠ id → setting_by_id st2 id' = setting_by_id st1 id'.
Proof.
  intros Hlines Hc Hscan Hfit Hset Hid Hlen.
  pose proof (setting_read_lines_shape lines st) as Hshape.
  rewrite Hlines in Hshape. cbn [state_of] in Hshape.
  assert (Hid1 : setting_id st1 nm = Some id).
  { rewrite <- Hid. symmetry. apply setting_by_name_from_shape. exact Hshape. }
  destruct (setting_id_Some _ _ _ Hid1) as [sett Hsett].
  exists (with_setting_value st1 id sett v). split; [|split].
  - rewrite setting_read_lines_app, Hlines, setting_read_lines_single.
    by rewrite (setting_read_line_set _ _ _ _ _ _ _ Hc Hscan Hfit Hset Hid1 Hsett Hlen).
  - apply setting_get_value_with_setting_value.
  - intros id' Hne. unfold setting_by_id, with_setting_value.
    cbn [values with_values]. by rewrite lookup_insert_ne.
Qed.

(** ** Aliases *)

Lemma get_alias_loop_unknown l address :
  address ∉ alias_address <$> l → get_alias_loop l address = address.
Proof.
  induction l as [|a l IH]; simpl; [done|].
  rewrite not_elem_of_cons. intros [Hne Hl].
  rewrite strcmp_eqb, bool_decide_eq_false_2 by done. by apply IH.
Qed.

Lemma get_alias_loop_first l1 a l2 :
  alias_address a ∉ alias_address <$> l1 →
  get_alias_loop (l1 ++ a :: l2) (alias_address a) = alias_alias a.
Proof.
  induction l1 as [|x l1 IH]; simpl.
  - intros _. by rewrite strcmp_eqb, bool_decide_eq_true_2.
  - rewrite not_elem_of_cons. intros [Hne Hl].
    rewrite strcmp_eqb, bool_decide_eq_false_2 by done. by apply IH.
Qed.

Lemma get_alias_loop_known l more address :
  address ∈ alias_address <$> l →
  get_alias_loop (l ++ more) address = get_alias_loop l address.
Proof.
  induction l as [|x l IH]; simpl; [by intros ?%elem_of_nil|].
  rewrite strcmp_eqb. case_bool_decide as Hx; [done|].
  rewrite elem_of_cons. intros [->|Hl]; [done|]. by apply IH.
Qed.

(** X10.  [setting_get_alias] answers with the alias of the first entry
    made for an address, whatever entries follow it, and with the address
    itself when no entry was made for it. *)
Theorem setting_get_alias_first st address :
  (∀ l1 a l2,
     alias st = l1 ++ a :: l2 →
     alias_address a = address →
     address ∉ alias_address <$> l1 →
     setting_get_alias st (Some address) = Some (alias_alias a)) ∧
  (address ∉ alias_address <$> alias st →
     setting_get_alias st (Some address) = Some address).
Proof.
  unfold setting_get_alias. split.
  - intros l1 a l2 -> <- Hl1. by rewrite get_alias_loop_first.
  - intros Hno. by rewrite get_alias_loop_unknown.
Qed.

(** X11.  An [alias] line whose fields fit the arrays they are scanned
    into ([type[20]], [option[50]], [value[50]]) gives an address its
    alias only if the address has none yet: for an address that has one
    the line changes no answer of [setting_get_alias], and no line changes
    the alias of another address or the value of a setting. *)
Theorem setting_read_line_alias line st type address label :
  comment_or_empty line = false →
  sscanf_line line = [type; address; label] →
  fields_fit [type; address; label] = true →
  strcasecmp type "set" ≠ 0 →
  strcasecmp type "alias" = 0 →
  ∃ st',
    setting_read_line line st = Returns st' ∧
    values st' = values st ∧ externips st' = externips st ∧
    (address ∉ alias_address <$> alias st →
       setting_get_alias st' (Some address) = Some label) ∧
    (address ∈ alias_address <$> alias st →
       setting_get_alias st' (Some address) = setting_get_alias st (Some address)) ∧
    (∀ other, other ≠ address →
       setting_get_alias st' (Some other) = setting_get_alias st (Some other)).
Proof.
  intros Hc Hscan Hfit Hset Halias.
  rewrite setting_read_line_scanned, Hscan, Hfit by done.
  apply Z.eqb_neq in Hset. rewrite Hset, Halias.
  change (0 =? 0) with true. cbv iota. cbn [negb].
  eexists. split; [reflexivity|]. split; [done|]. split; [done|].
  unfold setting_get_alias. cbn [alias].
  split; [|split].
  - intros Hno. f_equal.
    exact (get_alias_loop_first (alias st) (setting_alias_new address label) [] Hno).
  - intros Hin. by rewrite get_alias_loop_known.
  - intros other Hne. f_equal.
    destruct (decide (other ∈ alias_address <$> alias st)) as [Hin|Hno].
    + by rewrite get_alias_loop_known.
    + rewrite (get_alias_loop_unknown (alias st)) by done.
      apply get_alias_loop_unknown. rewrite fmap_app, elem_of_app.
      intros [?|Hin]; [done|]. simpl in Hin.
      apply list_elem_of_singleton in Hin. done.
Qed.

(** ** External addresses *)

(** An [externip] entry names [address], on either side. *)
Definition names_address (address : string) (e : SettingExtenIp) : Prop :=
  ext_address e = address ∨ ext_externip e = address.

Lemma get_externip_loop_skip l1 l2 address :
  Forall (λ e, ¬ names_address address e) l1 →
  get_externip_loop (l1 ++ l2) address = get_externip_loop l2 address.
Proof.
  induction 1 as [|e l1 He _ IH]; simpl; [done|].
  rewrite !strcmp_eqb.
  rewrite !bool_decide_eq_false_2; [done| |]; intros E; apply He;
    [by right|by left].
Qed.

(** X12.  [setting_get_externip] maps both ways: the first entry that
    names an address on either side decides, giving for its address its
    external address and for its external address its address; an
    address that no entry names has no counterpart. *)
Theorem setting_get_externip_both_ways st l1 e l2 :
  externips st = l1 ++ e :: l2 →
  (Forall (λ x, ¬ names_address (ext_address e) x) l1 →
     setting_get_externip st (Some (ext_address e)) = Some (ext_externip e)) ∧
  (Forall (λ x, ¬ names_address (ext_externip e) x) l1 →
     setting_get_externip st (Some (ext_externip e)) = Some (ext_address e)) ∧
  (∀ address, Forall (λ x, ¬ names_address address x) (externips st) →
     setting_get_externip st (Some address) = None).
Proof.
  intros Hst. unfold setting_get_externip. split; [|split].
  - intros Hl1. rewrite Hst, get_externip_loop_skip by done. simpl.
    by rewrite strcmp_eqb, bool_decide_eq_true_2.
  - intros Hl1. rewrite Hst, get_externip_loop_skip by done. simpl.
    rewrite !strcmp_eqb. case_bool_decide as E; [by rewrite E|].
    by rewrite bool_decide_eq_true_2.
  - intros address Hall.
    rewrite <- (app_nil_r (externips st)), get_externip_loop_skip; done.
Qed.

End More.

(** ** Instances *)

(** A stand-in for [sscanf] on lines whose fields are parted by single
    blanks. *)
Definition plain_fields (line : string) : list string :=
  g_strsplit line " " 3.

Lemma setting_set_value_get_value_witness :
  ∃ st',
    setting_set_value 1024 (storage_syntax "on") SETTING_SYNTAX (Some "off")
      = Returns st' ∧
    setting_get_value st' SETTING_SYNTAX = Some "off".
Proof.
  destruct (setting_set_value_get_value 1024 (storage_syntax "on") SETTING_SYNTAX
              _ "off" eq_refl) as (st' & H1 & H2 & _).
  - simpl. lia.
  - exists st'. split; [exact H1|exact H2].
Defined.

Lemma setting_set_value_too_long_witness :
  ∃ st',
    setting_set_value 2 (storage_syntax "on") SETTING_SYNTAX (Some "off")
      = Exits 1 st' ∧
    setting_get_value st' SETTING_SYNTAX = None.
Proof.
  destruct (setting_set_value_too_long 2 (storage_syntax "on") SETTING_SYNTAX
              _ "off" eq_refl) as (st' & H1 & H2 & _).
  - simpl. lia.
  - exists st'. split; [exact H1|exact H2].
Defined.

Definition storage_colormode (v : string) : SettingStorage :=
  {| values :=
       {[ SETTING_COLORMODE :=
            setting_enum_new 1024 "colormode" v "request,cseq,callid" ]};
     alias := []; externips := [] |}.

Lemma setting_toggle_enum_next_witness :
  ∃ next,
    ["request"; "cseq"; "callid"] !! 0%nat = Some next ∧
    setting_toggle 1024 (storage_colormode "callid") SETTING_COLORMODE
      = Returns (storage_colormode next).
Proof.
  destruct (setting_toggle_enum_next 1024 (storage_colormode "callid")
              SETTING_COLORMODE
              (setting_enum_new 1024 "colormode" "callid" "request,cseq,callid")
              ["request"; "cseq"; "callid"] 2)
    as (next & Hnext & Ht).
  - reflexivity.
  - reflexivity.
  - reflexivity.
  - apply (bool_decide_unpack _). vm_compute. reflexivity.
  - reflexivity.
  - repeat constructor; simpl; lia.
  - exists next. split; [exact Hnext|].
    rewrite Ht. injection Hnext as <-. reflexivity.
Defined.

Lemma setting_toggle_enum_cycle_witness :
  setting_toggle_times 1024 3 (storage_colormode "cseq") SETTING_COLORMODE
    = Returns (storage_colormode "cseq").
Proof.
  apply (setting_toggle_enum_cycle 1024 (storage_colormode "cseq")
           SETTING_COLORMODE
           (setting_enum_new 1024 "colormode" "cseq" "request,cseq,callid")
           ["request"; "cseq"; "callid"]).
  - reflexivity.
  - reflexivity.
  - reflexivity.
  - apply (bool_decide_unpack _). vm_compute. reflexivity.
  - apply (bool_decide_unpack _). vm_compute. reflexivity.
  - repeat constructor; simpl; lia.
Defined.

Lemma setting_toggle_enum_unknown_value_witness :
  setting_toggle 1024 (storage_colormode "method") SETTING_COLORMODE
    = Returns (storage_colormode EmptyString) ∧
  setting_get_value (storage_colormode EmptyString) SETTING_COLORMODE = None ∧
  setting_toggle 1024 (storage_colormode EmptyString) SETTING_COLORMODE
    = Returns (storage_colormode EmptyString).
Proof.
  destruct (setting_toggle_enum_unknown_value 1024 (storage_colormode "method")
              SETTING_COLORMODE
              (setting_enum_new 1024 "colormode" "method" "request,cseq,callid")
              ["request"; "cseq"; "callid"])
    as (H1 & H2 & H3).
  - reflexivity.
  - reflexivity.
  - reflexivity.
  - apply (bool_decide_unpack _). vm_compute. reflexivity.
  - split; [exact H1|]. split; [exact H2|].
    apply H3. apply (bool_decide_unpack _). vm_compute. reflexivity.
Defined.

Lemma setting_read_lines_passed_over_witness :
  setting_read_lines 1024 plain_fields
    ["# colours"; EmptyString; "syntax"; "set nothing on"; "bind q quit"]
    (storage_syntax "on")
  = Returns (storage_syntax "on") ∧
  setting_read_lines 1024 plain_fields
    (["# colours"; EmptyString; "syntax"; "set nothing on"; "bind q quit"]
       ++ "set_a_type_of_twenty_ syntax off" :: ["set syntax off"])
    (storage_syntax "on")
  = Overruns (storage_syntax "on").
Proof.
  destruct (setting_read_lines_passed_over 1024 plain_fields (storage_syntax "on")
              ["# colours"; EmptyString; "syntax"; "set nothing on"; "bind q quit"])
    as [Hret Hover].
  - apply Forall_cons_2; [left; reflexivity|].
    apply Forall_cons_2; [left; reflexivity|].
    apply Forall_cons_2; [right; vm_compute; split; [reflexivity|exact I]|].
    apply Forall_cons_2; [right; vm_compute; split; reflexivity|].
    apply Forall_cons_2;
      [right; vm_compute; split; [reflexivity|split; discriminate]|].
    apply Forall_nil_2.
  - split; [exact Hret|]. apply Hover; vm_compute; reflexivity.
Defined.

Lemma setting_read_lines_last_set_witness :
  ∃ st2,
    setting_read_lines 1024 plain_fields
      (["set syntax off"] ++ ["set syntax yes"]) (storage_syntax "on")
      = Returns st2 ∧
    setting_get_value st2 SETTING_SYNTAX = Some "yes".
Proof.
  destruct (setting_read_lines_last_set 1024 plain_fields
              ["set syntax off"] "set syntax yes"
              (storage_syntax "on") (storage_syntax "off")
              "set" "syntax" "yes" SETTING_SYNTAX)
    as (st2 & H1 & H2 & _).
  - vm_compute. reflexivity.
  - reflexivity.
  - vm_compute. reflexivity.
  - vm_compute. reflexivity.
  - vm_compute. reflexivity.
  - vm_compute. reflexivity.
  - simpl. lia.
  - exists st2. split; [exact H1|exact H2].
Defined.

Lemma setting_read_line_alias_witness :
  ∃ st',
    setting_read_line 1024 plain_fields "alias 10.0.0.1 pbx" (storage_syntax "on")
      = Returns st' ∧
    setting_get_alias st' (Some "10.0.0.1") = Some "pbx" ∧
    setting_get_alias st' (Some "10.0.0.2") = Some "10.0.0.2".
Proof.
  destruct (setting_read_line_alias 1024 plain_fields "alias 10.0.0.1 pbx"
              (storage_syntax "on") "alias" "10.0.0.1" "pbx")
    as (st' & H1 & _ & _ & H2 & _ & H3).
  - reflexivity.
  - vm_compute. reflexivity.
  - vm_compute. reflexivity.
  - vm_compute. discriminate.
  - vm_compute. reflexivity.
  - exists st'. split; [exact H1|]. split.
    + apply H2. simpl. apply not_elem_of_nil.
    + rewrite H3; [reflexivity|discriminate].
Defined.

Definition storage_externip : SettingStorage :=
  {| values := ∅; alias := [];
     externips := [setting_externip_new "10.0.0.1" "192.0.2.1"] |}.

Lemma setting_get_externip_both_ways_witness :
  setting_get_externip storage_externip (Some "10.0.0.1") = Some "192.0.2.1" ∧
  setting_get_externip storage_externip (Some "192.0.2.1") = Some "10.0.0.1".
Proof.
  destruct (setting_get_externip_both_ways storage_externip []
              (setting_externip_new "10.0.0.1" "192.0.2.1") [] eq_refl)
    as (H1 & H2 & _).
  split; [apply H1|apply H2]; constructor.
Defined.

End SettingMore.

(* ===================================================================== *)
(** * Further properties of the messages of a call                        *)
(* ===================================================================== *)

Module StorageMore.
Import GLib GLibProps Storage StorageProps.
Local Open Scope string_scope.
Local Open Scope list_scope.
Local Open Scope Z_scope.

(** ** The attribute cache *)

Lemma msg_set_cached_attribute_keeps_uncached msg a v attr :
  msg_get_cached_attribute msg attr = None →
  msg_get_cached_attribute (msg_set_cached_attribute msg a v) attr = None.
Proof.
  unfold msg_get_cached_attribute, msg_set_cached_attribute. intros Hnone.
  destruct (g_hash_table_lookup (attributes msg) (attr_name a)) as [prev|] eqn:Ha;
    [|done].
  destruct (negb _); [|done].
  unfold g_hash_table_lookup in *. cbn [attributes].
  destruct (decide (attr_name a = attr_name attr)) as [E|E].
  - rewrite E in Ha. congruence.
  - by rewrite lookup_insert_ne, lookup_delete_ne.
Qed.

(** The calls of [msg_set_cached_attribute] of a run, first call first. *)
Definition set_cached_attributes (msg : Message)
    (updates : list (Attribute * option string)) : Message :=
  foldl (λ m u, msg_set_cached_attribute m u.1 u.2) msg updates.

(** X13.  [msg_set_cached_attribute] never gives a value to an
    attribute that has none in the cache: after any number of calls, for
    this attribute or for others, [msg_get_cached_attribute] still
    answers NULL.  So the cache of a message that comes from [msg_new]
    stays empty as long as it is written through this function only. *)
Theorem msg_set_cached_attribute_never_fills msg updates attr :
  msg_get_cached_attribute msg attr = None →
  msg_get_cached_attribute (set_cached_attributes msg updates) attr = None.
Proof.
  unfold set_cached_attributes. revert msg.
  induction updates as [|[a v] updates IH]; intros msg Hnone; [done|].
  simpl. apply IH. by apply msg_set_cached_attribute_keeps_uncached.
Qed.

(** ** Responses and the initial transaction *)

Lemma find_middle {A} (P : A → bool) l1 x l2 :
  P x = false → find P (l1 ++ x :: l2) = find P (l1 ++ l2).
Proof.
  intros Hx. induction l1 as [|y l1 IH]; simpl; [by rewrite Hx|].
  by destruct (P y).
Qed.

(** X14.  For a response, [msg_is_initial_transaction] looks through
    the whole call, the messages stored behind the response included: the
    first request with the CSeq number of the response that was sent to
    the address the response comes from gives the result, by the
    initial-transaction flag of its packet; without such a request the
    flag of the packet of the response itself is the result. *)
Theorem msg_is_initial_transaction_of_response
    (before after : list Message) (m : Message) :
  msg_is_request m = false →
  Forall (λ x, msg_is_request x = true → same_message x m = false)
    (before ++ after) →
  msg_is_initial_transaction {| msgs := before ++ m :: after |} m =
  match find (transaction_request m) (before ++ after) with
  | Some r => packet_sip_initial_transaction (packet r)
  | None => packet_sip_initial_transaction (packet m)
  end.
Proof.
  intros Hm Hall.
  rewrite msg_is_initial_transaction_response; [|done|].
  - cbn [msgs]. rewrite find_middle; [done|].
    unfold transaction_request. by rewrite Hm.
  - cbn [msgs]. apply Forall_app in Hall as [Hb Ha].
    apply Forall_app. split; [done|].
    apply Forall_cons. split; [|done]. congruence.
Qed.

(** ** Media *)

Section Media.

Variable packet_sdp_data : Packet → option PacketSdpData.

Local Abbreviation msg_media_count := (msg_media_count packet_sdp_data).
Local Abbreviation msg_media_for_addr := (msg_media_for_addr packet_sdp_data).
Local Abbreviation msg_has_sdp := (msg_has_sdp packet_sdp_data).
Local Abbreviation msg_get_preferred_codec_alias :=
  (msg_get_preferred_codec_alias packet_sdp_data).

Lemma media_for_addr_loop_Some l dst media :
  media_for_addr_loop l dst = Some media ↔
  ∃ l1 l2, l = l1 ++ media :: l2 ∧
    addressport_equals (media_address media) dst = true ∧
    Forall (λ x, addressport_equals (media_address x) dst = false) l1.
Proof.
  induction l as [|x l IH]; simpl.
  - split; [done|]. intros (l1 & l2 & H & _). by destruct l1.
  - destruct (addressport_equals (media_address x) dst) eqn:E.
    + split.
      * intros [= <-]. by exists [], l.
      * intros (l1 & l2 & H & Hm & Hl1). destruct l1 as [|y l1].
        -- by injection H as ->.
        -- injection H as -> _. apply Forall_cons in Hl1 as [Hy _]. congruence.
    + rewrite IH. split.
      * intros (l1 & l2 & -> & Hm & Hl1). exists (x :: l1), l2.
        split; [done|]. split; [done|]. by apply Forall_cons.
      * intros (l1 & l2 & H & Hm & Hl1). destruct l1 as [|y l1].
        -- injection H as -> _. congruence.
        -- injection H as _ ->. apply Forall_cons in Hl1 as [_ Hl1]. eauto.
Qed.

Lemma media_for_addr_loop_None l dst :
  media_for_addr_loop l dst = None ↔
  Forall (λ x, addressport_equals (media_address x) dst = false) l.
Proof.
  induction l as [|x l IH]; simpl; [done|].
  rewrite Forall_cons.
  destruct (addressport_equals (media_address x) dst); [|rewrite IH; tauto].
  split; [done|]. by intros [? _].
Qed.

(** X15.  [msg_media_for_addr] returns the first media of the SDP data
    of the message whose address and port are those asked for; it
    returns NULL exactly when the message has no SDP data or none of its
    media has that address.  A message for which it finds a media has
    SDP, and a message without SDP has no preferred codec. *)
Theorem msg_media_for_addr_first msg dst :
  (∀ media,
     msg_media_for_addr msg dst = Some media ↔
     ∃ sdp l1 l2,
       packet_sdp_data (packet msg) = Some sdp ∧
       medias sdp = l1 ++ media :: l2 ∧
       addressport_equals (media_address media) dst = true ∧
       Forall (λ x, addressport_equals (media_address x) dst = false) l1) ∧
  (msg_media_for_addr msg dst = None ↔
     ∀ sdp, packet_sdp_data (packet msg) = Some sdp →
       Forall (λ x, addressport_equals (media_address x) dst = false) (medias sdp)) ∧
  (is_Some (msg_media_for_addr msg dst) → msg_has_sdp msg = true) ∧
  (msg_has_sdp msg = false → msg_get_preferred_codec_alias msg = None).
Proof.
  unfold Storage.msg_media_for_addr, Storage.msg_has_sdp,
    Storage.msg_media_count, Storage.msg_get_preferred_codec_alias.
  destruct (packet_sdp_data (packet msg)) as [sdp|].
  - split; [|split; [|split]].
    + intros media. rewrite media_for_addr_loop_Some. split.
      * intros (l1 & l2 & H). by exists sdp, l1, l2.
      * intros (sdp' & l1 & l2 & [= <-] & H). by exists l1, l2.
    + rewrite media_for_addr_loop_None. split.
      * by intros H sdp' [= <-].
      * intros H. by apply H.
    + intros [media H]. apply media_for_addr_loop_Some in H as (l1 & l2 & -> & _).
      rewrite length_app. simpl. apply Z.ltb_lt. lia.
    + destruct (medias sdp); [done|]. simpl. intros H.
      apply Z.ltb_ge in H. lia.
  - split; [|split; [|split]].
    + intros media. split; [done|]. by intros (sdp & l1 & l2 & ? & _).
    + split; [|done]. by intros _ sdp.
    + by intros [? ?].
    + done.
Qed.

End Media.

(** ** Instances *)

Definition attr_method : Attribute := {| attr_name := "method" |}.

Lemma msg_set_cached_attribute_never_fills_witness :
  msg_get_cached_attribute
    (set_cached_attributes (msg_new 1 (invite_packet true))
       [(attr_method, Some "INVITE"); (attr_method, Some "ACK")])
    attr_method = None.
Proof.
  apply (msg_set_cached_attribute_never_fills (msg_new 1 (invite_packet true))).
  reflexivity.
Defined.

(** A 200 answer that goes from [addr_b] to [addr_a]. *)
Definition answer_packet : Packet :=
  {| packet_src_address := addr_b; packet_dst_address := addr_a;
     packet_sip_method := 200; packet_sip_cseq := 1;
     packet_sip_payload := "SIP/2.0 200 OK";
     packet_sip_initial_transaction := true |}.

Definition answer_at (ptr : N) : Message :=
  {| msg_ptr := ptr; packet := answer_packet; attributes := ∅ |}.

Lemma msg_is_initial_transaction_of_response_witness :
  msg_is_initial_transaction
    {| msgs := [] ++ answer_at 1 :: [invite_at 2 false] |} (answer_at 1) = false.
Proof.
  rewrite (msg_is_initial_transaction_of_response [] [invite_at 2 false] (answer_at 1)).
  - reflexivity.
  - reflexivity.
  - apply Forall_cons_2; [intros _; reflexivity|apply Forall_nil_2].
Defined.

End StorageMore.

(* ===================================================================== *)
(** * Further properties of the dissector tree                            *)
(* ===================================================================== *)

Module ParserMore.
Import GLib Setting Parser ParserProps.
Local Open Scope list_scope.
Local Open Scope nat_scope.

Section Building.

Variable Priv : Type.
Variable settings : SettingStorage.
Variable subdissectors : PacketProtoId → list PacketProtoId.
Variable dissector_init : PacketProtoId → Priv → Priv.

Local Abbreviation dissector_enabled := (dissector_enabled settings).
Local Abbreviation dissector_lookup_or_new :=
  (dissector_lookup_or_new settings dissector_init).
Local Abbreviation packet_parser_dissector_init :=
  (packet_parser_dissector_init settings subdissectors dissector_init).
Local Abbreviation parser_ok := (parser_ok Priv settings).
Local Abbreviation init_keeps := (init_keeps Priv settings).

(** The subdissector lists are free of cycles: every protocol ranks above
    the protocols it hands its payload to. *)
Variable rank : PacketProtoId → nat.
Hypothesis rank_decreases : ∀ id sub, sub ∈ subdissectors id → rank sub < rank id.



End Building.

(** ** Instances *)



End ParserMore.

(* ===================================================================== *)
(** * Further properties of the HEP input and output                      *)
(* ===================================================================== *)

Module HepMore.
Import GLib GLibProps Setting Hep HepProps.
Local Open Scope string_scope.
Local Open Scope list_scope.
Local Open Scope Z_scope.

(** ** URLs *)

(** No character of [s] is the delimiter. *)
Fixpoint no_delim (d : ascii) (s : string) : bool :=
  match s with
  | EmptyString => true
  | String c r => negb (Ascii.eqb c d) && no_delim d r
  end.

Lemma strsplit_tokens_0 d s : strsplit_tokens d 0 s = (s, []).
Proof.
  induction s as [|c r IH]; simpl; [done|].
  destruct (Ascii.eqb c d); [done|]. by rewrite IH.
Qed.

Lemma strsplit_tokens_cut d k a r :
  no_delim d a = true →
  strsplit_tokens d (S k) (a +:+ String d r) =
  let '(t, ts) := strsplit_tokens d k r in (a, t :: ts).
Proof.
  induction a as [|c a IH]; simpl.
  - intros _. rewrite Ascii.eqb_refl. by destruct (strsplit_tokens d k r).
  - intros [Hc Ha]%andb_prop. apply negb_true_iff in Hc. rewrite Hc.
    rewrite IH by done. by destruct (strsplit_tokens d k r).
Qed.

Lemma strsplit_tokens_inv d k s t t' ts :
  strsplit_tokens d k s = (t, t' :: ts) →
  ∃ k' r, k = S k' ∧ s = t +:+ String d r ∧ no_delim d t = true ∧
          strsplit_tokens d k' r = (t', ts).
Proof.
  revert t. induction s as [|c r IH]; intros t; simpl; [done|].
  destruct (Ascii.eqb_spec c d) as [->|Hne].
  - destruct k as [|k']; [done|].
    destruct (strsplit_tokens d k' r) as [t0 ts0] eqn:E.
    intros [= <- <- <-]. by exists k', r.
  - destruct (strsplit_tokens d k r) as [t0 ts0] eqn:E.
    intros [= <- ->].
    destruct (IH t0 eq_refl) as (k' & r' & -> & -> & Hno & Hrest).
    exists k', r'. split; [done|]. split; [done|]. split; [|done].
    simpl. rewrite Hno. by destruct (Ascii.eqb_spec c d).
Qed.

Lemma strsplit_tokens_last d k s t :
  strsplit_tokens d k s = (t, []) → s = t.
Proof.
  revert k t. induction s as [|c r IH]; intros k t; simpl; [by intros [= <-]|].
  destruct (Ascii.eqb c d).
  - destruct k as [|k']; [by intros [= <-]|].
    by destruct (strsplit_tokens d k' r).
  - destruct (strsplit_tokens d k r) as [t0 ts0] eqn:E.
    intros [= <- ->]. by rewrite (IH _ _ E).
Qed.

Lemma atoi_range s : - 2 ^ 31 ≤ atoi s < 2 ^ 31.
Proof.
  unfold atoi, int_of_long.
  pose proof (Z.mod_pos_bound (strtol s + 2 ^ 31) (2 ^ 32)). lia.
Qed.

Lemma atoi_small s :
  - 2 ^ 31 ≤ decimal_value s < 2 ^ 31 → atoi s = decimal_value s.
Proof.
  intros H. unfold atoi, int_of_long, strtol, LONG_MIN, LONG_MAX.
  rewrite Z.min_r, Z.max_r by lia. rewrite Z.mod_small by lia. lia.
Qed.

(** A number beyond the range of [int] comes back reduced to 32 bits. *)
Example atoi_wraps : atoi "4294967297" = 1 ∧ atoi "70000" = 70000.
Proof. split; vm_compute; reflexivity. Qed.

(** X18.  [capture_hep_parse_url] accepts exactly the URLs made of
    [udp], a colon, a host without colon, a colon and a rest: the host is
    taken as it stands, and the port is the [int] that [atoi] reads at the
    head of the rest, stored in the port field: the number that stands
    there while it lies in the range of [int], 0 if no number stands
    there. *)
Theorem capture_hep_parse_url_accepts (url_port_of_int : Z → Z) url_str u :
  capture_hep_parse_url url_port_of_int url_str = inl u ↔
  ∃ host rest,
    no_delim ":" host = true ∧
    url_str = "udp:" +:+ host +:+ ":" +:+ rest ∧
    u = {| url_host := Some host; url_port := url_port_of_int (atoi rest) |} ∧
    - 2 ^ 31 ≤ atoi rest < 2 ^ 31 ∧
    (- 2 ^ 31 ≤ decimal_value rest < 2 ^ 31 → atoi rest = decimal_value rest).
Proof.
  unfold capture_hep_parse_url, g_strsplit. split.
  - destruct url_str as [|c s]; [done|].
    change (if 3 <? 1 then String.length (String c s) else Z.to_nat (3 - 1))
      with 2%nat.
    destruct (strsplit_tokens ":" 2 (String c s)) as [proto ts] eqn:E.
    destruct ts as [|host [|port [|? ?]]]; try done.
    apply strsplit_tokens_inv in E as (k1 & r1 & [= <-] & Hs & _ & E1).
    apply strsplit_tokens_inv in E1 as (k2 & r2 & [= <-] & -> & Hhost & E2).
    apply strsplit_tokens_last in E2 as ->.
    destruct (Z.eqb_spec (g_strcmp0 (Some proto) (Some "udp")) 0) as [Hp|]; [|done].
    apply strcmp_zero in Hp as ->.
    intros [= <-]. exists host, port. rewrite Hs.
    split; [done|]. split; [done|]. split; [done|].
    split; [apply atoi_range|apply atoi_small].
  - intros (host & rest & Hhost & -> & -> & _).
    change ("udp:" +:+ host +:+ ":" +:+ rest)
      with (String "u" ("dp" +:+ String ":" (host +:+ String ":" rest))).
    change (if 3 <? 1 then _ else Z.to_nat (3 - 1)) with 2%nat.
    change (String "u" ("dp" +:+ String ":" (host +:+ String ":" rest)))
      with ("udp" +:+ String ":" (host +:+ String ":" rest)).
    rewrite strsplit_tokens_cut by done.
    rewrite strsplit_tokens_cut by done.
    by rewrite strsplit_tokens_0.
Qed.

(** A port beyond the range of [int] is stored reduced to 32 bits, here
    with a port field as wide as an [int]. *)
Example capture_hep_parse_url_wraps :
  capture_hep_parse_url (λ n, n) "udp:h:4294967297"
  = inl {| url_host := Some "h"; url_port := 1 |}.
Proof. vm_compute. reflexivity. Qed.

(** ** The length in the header *)

Section Length.

Variable USE_IPV6 : bool.
Variable inet_pton : Z → string → GByteArray.
Variable capt_id_data : Z → GByteArray.

Local Abbreviation capture_output_hep_write :=
  (capture_output_hep_write USE_IPV6 inet_pton capt_id_data).

Lemma len_be16 n : len (be16 n) = 2.
Proof. reflexivity. Qed.

Lemma len_be32 n : len (be32 n) = 4.
Proof. reflexivity. Qed.

Lemma len_cons b (l : GByteArray) : len (b :: l) = 1 + len l.
Proof. unfold len. cbn [length]. lia. Qed.

Lemma len_nil : len [] = 0.
Proof. reflexivity. Qed.

(** X19.  Whatever the IP version of the packet, the buffer that
    [capture_output_hep_write] sends starts with the four characters
    HEP3 followed by its own length in 16 bits: the length that the
    source adds up from the sizes of the structures is the number of
    bytes it puts into the buffer, address chunks being counted only
    where they are written.  The addresses are taken to fill their
    fields, 4 bytes for IPv4 and 16 for IPv6. *)
Theorem capture_output_hep_write_length hep packet buf :
  capture_output_hep_write hep packet = Some buf →
  (∀ ipd addr, ip packet = Some ipd → addr = srcip ipd ∨ addr = dstip ipd →
     (ip_version ipd = 4 → len (inet_pton AF_INET addr) = 4) ∧
     (ip_version ipd = 6 → len (inet_pton AF_INET6 addr) = 16)) →
  take 4 buf = bytes_of_string "HEP3" ∧
  take 2 (drop 4 buf) = be16 (len buf).
Proof.
  unfold Hep.capture_output_hep_write.
  destruct (frames packet) as [|frame more]; [done|].
  destruct (ip packet) as [ipd|]; [|done].
  destruct (udp packet) as [udpd|]; [|done].
  destruct (sip packet) as [sipd|]; [|done].
  cbv zeta. intros Hbuf Haddr. apply (inj Some) in Hbuf. subst buf.
  split; [reflexivity|].
  destruct (Haddr ipd (srcip ipd) eq_refl (or_introl eq_refl)) as [Hs4 Hs6].
  destruct (Haddr ipd (dstip ipd) eq_refl (or_intror eq_refl)) as [Hd4 Hd6].
  match goal with
  | |- take 2 (drop 4 ((bytes_of_string "HEP3" ++ be16 ?t) ++ ?rest)) = _ =>
      set (total := t); set (chunks := rest);
      assert (Hlen : len ((bytes_of_string "HEP3" ++ be16 total) ++ chunks) = total)
  end.
  { subst total chunks.
    unfold sizeof_generic, sizeof_capt_id, sizeof_ctrl, sizeof_chunk_uint8,
      sizeof_chunk_uint16, sizeof_chunk_uint32, sizeof_chunk_ip4,
      sizeof_chunk_ip6, sizeof_chunk.
    destruct (Z.eqb_spec (ip_version ipd) 4) as [H4|H4]; cbn [negb andb].
    - destruct (password hep) as [pw|];
        rewrite ?len_app, ?len_cons, ?len_nil, ?len_hep_chunk, ?len_be16,
          ?len_be32, ?len_bytes_of_string, ?Hs4, ?Hd4 by done;
        change (strlen "HEP3") with 4; lia.
    - destruct USE_IPV6; cbn [andb];
        [destruct (Z.eqb_spec (ip_version ipd) 6) as [H6|H6]|];
        destruct (password hep) as [pw|];
        rewrite ?len_app, ?len_cons, ?len_nil, ?len_hep_chunk, ?len_be16,
          ?len_be32, ?len_bytes_of_string, ?Hs6, ?Hd6 by done;
        change (strlen "HEP3") with 4; lia. }
  rewrite Hlen. reflexivity.
Qed.

End Length.

(** ** Receiving *)

Section Receive.

Variable Priv : Type.
Variable Packet : Type.
Variable settings : SettingStorage.
Variable subdissectors : Parser.PacketProtoId → list Parser.PacketProtoId.
Variable dissector_init : Parser.PacketProtoId → Priv → Priv.
Variable dissect : nat → option (Parser.DissectFn Priv Packet).
Variable packet_new : GByteArray → Packet.

(** The subdissector lists are free of cycles: every protocol ranks above
    the protocols it hands its payload to. *)
Variable rank : Parser.PacketProtoId → nat.
Hypothesis rank_decreases :
  ∀ id sub, sub ∈ subdissectors id → (rank sub < rank id)%nat.

Local Abbreviation capture_input_hep_tree :=
  (capture_input_hep_tree Priv settings subdissectors dissector_init).
Local Abbreviation capture_input_hep_receive :=
  (capture_input_hep_receive Priv Packet dissect packet_new).

(** X20.  [capture_input_hep] hands NULL as parent to
    [packet_parser_dissector_init], so the node of the HEP dissector is
    hung nowhere: with subdissector lists free of cycles the building of
    the tree comes to an end, the dissector is made and entered into
    [parser->dissectors] when the protocol is switched on, but
    [parser->dissector_tree] stays as it was.  On a parser whose tree has
    a root without children, as [packet_parser_new] makes it,
    [capture_input_hep_receive] therefore hands what it received to no
    dissector: it returns TRUE, and the packet is as [packet_new] made
    it. *)
Theorem capture_input_hep_receive_reaches_no_dissector fuel
    (parser : Parser.PacketParser Priv) data :
  ParserProps.parser_ok Priv settings parser →
  Parser.node_children (Parser.dissector_tree parser) = [] →
  (rank Parser.PACKET_HEP < fuel)%nat →
  ∃ parser',
    capture_input_hep_tree fuel parser = Some parser' ∧
    (Parser.dissector_enabled settings Parser.PACKET_HEP = true →
       is_Some (Parser.dissectors parser' !! Parser.PACKET_HEP)) ∧
    Parser.dissector_tree parser' = Parser.dissector_tree parser ∧
    capture_input_hep_receive (Some data) parser' =
      (true, Parser.set_current parser' (Some (Parser.dissector_tree parser)),
       Some (packet_new data)).
Proof.
  intros Hok Hroot Hfuel. unfold Hep.capture_input_hep_tree.
  destruct (ParserProps.packet_parser_dissector_init_total Priv settings
              subdissectors dissector_init rank rank_decreases fuel parser None
              Parser.PACKET_HEP Hfuel) as [[[p' parent'] r] E].
  rewrite E. exists p'. split; [done|].
  destruct (ParserProps.packet_parser_dissector_init_does _ _ _ _ fuel
              _ _ _ _ _ _ Hok E) as [(Htree & _) Hr].
  split; [|split; [done|]].
  - intros Hen. destruct r as [ptr|].
    + destruct Hr as (_ & Hptr & _). by exists ptr.
    + destruct Hr as (Hoff & _). congruence.
  - unfold Hep.capture_input_hep_receive, Parser.packet_parser_next_dissector.
    cbn [Parser.set_current Parser.current Parser.g_node_n_children].
    rewrite Htree, Hroot. reflexivity.
Qed.

End Receive.

(** ** Instances *)

Lemma capture_output_hep_write_length_witness :
  ∃ buf,
    capture_output_hep_write true dotted_quad_bytes capt_id_le32
      (s3_output 3 (Some "secret")) (s3_packet s3_sip) = Some buf ∧
    take 2 (drop 4 buf) = be16 (len buf).
Proof.
  destruct (capture_output_hep_write true dotted_quad_bytes capt_id_le32
              (s3_output 3 (Some "secret")) (s3_packet s3_sip)) as [buf|] eqn:E;
    [|vm_compute in E; discriminate].
  exists buf. split; [reflexivity|].
  apply (capture_output_hep_write_length true dotted_quad_bytes capt_id_le32
           (s3_output 3 (Some "secret")) (s3_packet s3_sip) buf E).
  intros ipd addr [= <-] [-> | ->]; split; intros Hv;
    first [discriminate Hv|vm_compute; reflexivity].
Defined.

(** The settings with the HEP dissector switched on. *)
Definition storage_hep_on : SettingStorage :=
  {| values :=
       {[ SETTING_CAPTURE_PACKET_HEP :=
            setting_bool_new 1024 "capture.packet.hep" "on" ]};
     alias := []; externips := [] |}.

(** A dissector that takes all the bytes it is given into the packet. *)
Definition received_bytes : Parser.DissectFn unit (list Z) :=
  λ parser packet data, (parser, packet ++ data, None).

Lemma capture_input_hep_receive_reaches_no_dissector_witness :
  ∃ parser',
    capture_input_hep_tree unit storage_hep_on ParserProps.sngrep_subdissectors
      (λ _ priv, priv) 3 (Parser.packet_parser_new tt) = Some parser' ∧
    is_Some (Parser.dissectors parser' !! Parser.PACKET_HEP) ∧
    capture_input_hep_receive unit (list Z) (λ _, Some received_bytes)
      (λ data, data) (Some [72; 69; 80; 51]) parser' =
    (true, Parser.set_current parser' (Some (Parser.g_node_new None)),
     Some [72; 69; 80; 51]).
Proof.
  destruct (capture_input_hep_receive_reaches_no_dissector unit (list Z)
              storage_hep_on ParserProps.sngrep_subdissectors (λ _ priv, priv)
              (λ _, Some received_bytes) (λ data, data)
              ParserProps.sngrep_rank ParserProps.sngrep_rank_decreases 3
              (Parser.packet_parser_new tt) [72; 69; 80; 51]
              (ParserProps.parser_ok_new _ _ tt) eq_refl)
    as (parser' & E & Hhep & _ & Hrecv); [simpl; lia|].
  exists parser'. split; [exact E|]. split; [|exact Hrecv].
  apply Hhep. vm_compute. reflexivity.
Defined.

End HepMore.
